(** * Procedural noise and heightmap generation (terrain/noise.cpp)

    A shallow embedding of the noise module: the Perlin and Simplex
    engines with their seeded permutation tables, the two standalone
    entry points that keep a function-local static engine, the fBM
    compositors and the diamond-square heightmap generator; and of the
    mesh generation of terrain/terrain.cpp, which calls the compositors.

    The C++ arithmetic types [double] and [float] are not defined by the
    repository: their operations are an interface ([Arith]).  IEEE-754
    binary64, as Rocq's primitive floats compute it, and binary32, on
    Rocq's specification of IEEE arithmetic, are the instances the code
    runs on ([binary64], [binary32]); exact rationals are a third
    instance ([rational]), for what does not depend on rounding.  [int]
    is modelled as [Z]; conversions into [int] that C++ leaves
    undefined, and vector accesses out of range, are errors of the
    [result] monad. *)

From Stdlib Require Import ZArith QArith Qpower Qround Floats Lia Lqa
  Permutation.
From stdpp Require Import base list.

Local Open Scope Z_scope.

(** ** Results of fallible code *)

Inductive error : Set :=
| UndefinedIndex        (* operator[] outside the vector *)
| UndefinedConversion   (* floating value outside the range of int, signed overflow *)
| UndefinedDivision     (* integer remainder by zero *)
| LengthError.          (* a std::vector asked for more than max_size elements *)

Inductive result (A : Type) : Type :=
| Ok (a : A)
| Err (e : error).
Arguments Ok {A} a.
Arguments Err {A} e.

#[global] Instance result_ret : MRet result := @Ok.
#[global] Instance result_bind : MBind result :=
  λ A B f m, match m with Ok a => f a | Err e => Err e end.

Definition INT_MIN : Z := - 2 ^ 31.
Definition INT_MAX : Z := 2 ^ 31 - 1.

(** A value of type [int]: outside the range the behaviour is undefined. *)
Definition int_of (z : Z) : result Z :=
  if (INT_MIN <=? z) && (z <=? INT_MAX) then Ok z else Err UndefinedConversion.

(** [v[i]] on a [std::vector]. *)
Definition at_ {A} (v : list A) (i : Z) : result A :=
  if i <? 0 then Err UndefinedIndex
  else match v !! Z.to_nat i with
       | Some a => Ok a
       | None => Err UndefinedIndex
       end.

(** [v[i] = a] on a [std::vector]. *)
Definition set_at {A} (v : list A) (i : Z) (a : A) : result (list A) :=
  if (0 <=? i) && (i <? Z.of_nat (length v)) then Ok (<[Z.to_nat i := a]> v)
  else Err UndefinedIndex.

(** [a % b] on [int]s. *)
Definition rem_ (a b : Z) : result Z :=
  if b =? 0 then Err UndefinedDivision else Ok (Z.rem a b).

(** A loop body run once for each index of a list, in order. *)
Fixpoint forM {S : Type} (l : list Z) (body : Z → S → result S) (s : S)
  : result S :=
  match l with
  | [] => Ok s
  | i :: l' => s' ← body i s; forM l' body s'
  end.

(** The values [i] takes in [for (i = start; i < stop; i += step)],
    for a positive [step]: at most [stop - start] of them. *)
Fixpoint count_up (fuel : nat) (i stop step : Z) : list Z :=
  match fuel with
  | O => []
  | S fuel' =>
      if i <? stop then i :: count_up fuel' (i + step) stop step else []
  end.

Definition loop_range (start stop step : Z) : list Z :=
  count_up (Z.to_nat (stop - start)) start stop step.

(** ** The arithmetic interface *)

Class Arith (F : Type) : Type := {
  fadd : F → F → F;
  fsub : F → F → F;
  fmul : F → F → F;
  fdiv : F → F → F;
  fneg : F → F;
  fltb : F → F → bool;          (* operator< *)
  fsqrt : F → F;               (* sqrt *)
  ffloor : F → F;              (* floor *)
  to_int : F → result Z;       (* (int)x: truncation toward zero *)
  of_int : Z → F;              (* conversion of an int *)
}.

Declare Scope arith_scope.
Delimit Scope arith_scope with F.
Infix "+" := fadd : arith_scope.
Infix "-" := fsub : arith_scope.
Infix "*" := fmul : arith_scope.
Infix "/" := fdiv : arith_scope.
Notation "- x" := (fneg x) : arith_scope.
Infix "<?" := fltb : arith_scope.
Notation "# z" := (of_int z) (at level 5, format "# z") : arith_scope.

(** ** IEEE-754 binary64 *)

Module IEEE.

(** The conversion of an [int], exact up to [2^53]. *)
Definition of_Z (z : Z) : float :=
  match z with
  | Z0 => 0%float
  | Zpos _ => PrimFloat.of_uint63 (Uint63.of_Z z)
  | Zneg q => PrimFloat.opp (PrimFloat.of_uint63 (Uint63.of_Z (Zpos q)))
  end.

(** [floor]: the mantissa is cut at the binary point, and a negative
    value that lost bits moves one further down. *)
Definition floor (x : float) : float :=
  match Prim2SF x with
  | S754_finite s m e =>
      if 0 <=? e then x
      else
        let q := Z.shiftr (Zpos m) (- e) in
        if s then
          if Z.shiftl q (- e) =? Zpos m then of_Z (- q) else of_Z (- (q + 1))
        else of_Z q
  | _ => x
  end.

(** [(int)x]: defined when the truncated value fits an [int]. *)
Definition trunc (x : float) : result Z :=
  match Prim2SF x with
  | S754_zero _ => Ok 0
  | S754_finite s m e =>
      int_of (cond_Zopp s (if 0 <=? e then Z.shiftl (Zpos m) e
                           else Z.shiftr (Zpos m) (- e)))
  | _ => Err UndefinedConversion
  end.

(** The binary64 numbers 1 and 2. *)
Definition one : spec_float := S754_finite false 4503599627370496 (-52).
Definition two : spec_float := S754_finite false 4503599627370496 (-51).

End IEEE.

#[global] Instance binary64 : Arith float := {|
  fadd := PrimFloat.add;
  fsub := PrimFloat.sub;
  fmul := PrimFloat.mul;
  fdiv := PrimFloat.div;
  fneg := PrimFloat.opp;
  fltb := PrimFloat.ltb;
  fsqrt := PrimFloat.sqrt;
  ffloor := IEEE.floor;
  to_int := IEEE.trunc;
  of_int := IEEE.of_Z;
|}.

(** ** IEEE-754 binary32

    The C++ [float], on Rocq's specification of IEEE arithmetic
    ([SpecFloat], precision 24 and maximal exponent 128). *)

Module Binary32.

Definition prec : Z := 24.
Definition emax : Z := 128.

Definition of_Z (z : Z) : spec_float := binary_normalize prec emax z 0 false.

Definition floor (x : spec_float) : spec_float :=
  match x with
  | S754_finite s m e =>
      if 0 <=? e then x
      else
        let q := Z.shiftr (Zpos m) (- e) in
        if s then
          if Z.shiftl q (- e) =? Zpos m then of_Z (- q) else of_Z (- (q + 1))
        else of_Z q
  | _ => x
  end.

Definition trunc (x : spec_float) : result Z :=
  match x with
  | S754_zero _ => Ok 0
  | S754_finite s m e =>
      int_of (cond_Zopp s (if 0 <=? e then Z.shiftl (Zpos m) e
                           else Z.shiftr (Zpos m) (- e)))
  | _ => Err UndefinedConversion
  end.

End Binary32.

#[global] Instance binary32 : Arith spec_float := {|
  fadd := SFadd Binary32.prec Binary32.emax;
  fsub := SFsub Binary32.prec Binary32.emax;
  fmul := SFmul Binary32.prec Binary32.emax;
  fdiv := SFdiv Binary32.prec Binary32.emax;
  fneg := SFopp;
  fltb := SFltb;
  fsqrt := SFsqrt Binary32.prec Binary32.emax;
  ffloor := Binary32.floor;
  to_int := Binary32.trunc;
  of_int := Binary32.of_Z;
|}.

(** ** Exact arithmetic

    Rationals, every result reduced; the square root is cut to a
    multiple of [2^-32]. *)

Module Rational.

Definition ltb (a b : Q) : bool := negb (Qle_bool b a).

Definition sqrt (a : Q) : Q :=
  Qred (Qmake (Z.sqrt (Qnum a * 2 ^ 64 / Zpos (Qden a))) (2 ^ 32)).

Definition floor (a : Q) : Q := inject_Z (Qfloor a).

Definition trunc (a : Q) : result Z :=
  int_of (Z.quot (Qnum a) (Zpos (Qden a))).

End Rational.

#[global] Instance rational : Arith Q := {|
  fadd a b := Qred (a + b);
  fsub a b := Qred (a - b);
  fmul a b := Qred (a * b);
  fdiv a b := Qred (a / b);
  fneg a := Qred (- a);
  fltb := Rational.ltb;
  fsqrt := Rational.sqrt;
  ffloor := Rational.floor;
  to_int := Rational.trunc;
  of_int := inject_Z;
|}.

(** The order [operator<] induces. *)

Section Order.
Context {F : Type} `{Arith F}.

Definition flt (a b : F) : Prop := (a <? b)%F = true.
Definition fle (a b : F) : Prop := (b <? a)%F = false.
(** [a == b] *)
Definition feq (a b : F) : Prop := fle a b ∧ fle b a.

End Order.

Section Unit.
Context {F : Type} `{Arith F}.

(** A value of [0, 1]. *)
Definition in_unit (v : F) : Prop := fle (#0)%F v ∧ fle v (#1)%F.

(** [frequency] when iteration [i] of an fBM loop starts. *)
Definition frequency_at (lacunarity : F) (i : nat) : F :=
  Nat.iter i (λ f, (f * lacunarity)%F) (#1)%F.

(** Every noise call of an fBM loop of [octaves] iterations returns a
    value of [0, 1]. *)
Definition octave_calls_in_unit (noise2D : F → F → result F) (x y : F)
    (lacunarity : F) (octaves : Z) : Prop :=
  ∀ i : nat, (i < Z.to_nat octaves)%nat →
    ∃ v, noise2D (x * frequency_at lacunarity i)%F
                 (y * frequency_at lacunarity i)%F = Ok v ∧ in_unit v.

End Unit.

(** ** The engines *)

(** The 256 values [std::iota] writes. *)
Definition iota (n : nat) : list Z := Z.of_nat <$> seq 0 n.

Module PerlinNoise.
Section PerlinNoise.
Context {F : Type} `{Arith F}.
(** [std::shuffle] driven by a [std::default_random_engine] built from
    the seed: a function of the C++ standard library. *)
Variable shuffle : Z → list Z → list Z.

Record t : Type := { p : list Z }.

Definition fade (t : F) : F :=
  (t * t * t * (t * (t * #6 - #15) + #10))%F.

Definition lerp (t a b : F) : F := (a + t * (b - a))%F.

Definition grad (hash : Z) (x y z : F) : F :=
  let h := Z.land hash 15 in
  let u := if h <? 8 then x else y in
  let v := if h <? 4 then y
           else if (h =? 12) || (h =? 14) then x else z in
  ((if Z.land h 1 =? 0 then u else - u) +
   (if Z.land h 2 =? 0 then v else - v))%F.

Definition new (seed : Z) : t :=
  let p := shuffle seed (iota 256) in
  {| p := p ++ p |}.

Definition noise (e : t) (x y z : F) : result F :=
  X ← to_int (ffloor x);
  Y ← to_int (ffloor y);
  Z ← to_int (ffloor z);
  let X := Z.land X 255 in
  let Y := Z.land Y 255 in
  let Z := Z.land Z 255 in
  let x := (x - ffloor x)%F in
  let y := (y - ffloor y)%F in
  let z := (z - ffloor z)%F in
  let u := fade x in
  let v := fade y in
  let w := fade z in
  pX ← at_ (p e) X;
  let A := pX + Y in
  pA ← at_ (p e) A;
  let AA := pA + Z in
  pA1 ← at_ (p e) (A + 1);
  let AB := pA1 + Z in
  pX1 ← at_ (p e) (X + 1);
  let B := pX1 + Y in
  pB ← at_ (p e) B;
  let BA := pB + Z in
  pB1 ← at_ (p e) (B + 1);
  let BB := pB1 + Z in
  pAA ← at_ (p e) AA;
  pBA ← at_ (p e) BA;
  pAB ← at_ (p e) AB;
  pBB ← at_ (p e) BB;
  pAA1 ← at_ (p e) (AA + 1);
  pBA1 ← at_ (p e) (BA + 1);
  pAB1 ← at_ (p e) (AB + 1);
  pBB1 ← at_ (p e) (BB + 1);
  let res :=
    lerp w
      (lerp v (lerp u (grad pAA x y z) (grad pBA (x - #1)%F y z))
              (lerp u (grad pAB x (y - #1)%F z)
                      (grad pBB (x - #1)%F (y - #1)%F z)))
      (lerp v (lerp u (grad pAA1 x y (z - #1)%F)
                      (grad pBA1 (x - #1)%F y (z - #1)%F))
              (lerp u (grad pAB1 x (y - #1)%F (z - #1)%F)
                      (grad pBB1 (x - #1)%F (y - #1)%F (z - #1)%F))) in
  mret ((res + #1) / #2)%F.

Definition noise2D (e : t) (x y : F) : result F := noise e x y (#0)%F.

End PerlinNoise.
End PerlinNoise.

Module SimplexNoise.
Section SimplexNoise.
Context {F : Type} `{Arith F}.
Variable shuffle : Z → list Z → list Z.

Record t : Type := { perm : list Z }.

Definition grad3 : list (Z * Z * Z) :=
  [ (1, 1, 0); (-1, 1, 0); (1, -1, 0); (-1, -1, 0); (1, 0, 1); (-1, 0, 1);
    (1, 0, -1); (-1, 0, -1); (0, 1, 1); (0, -1, 1); (0, 1, -1); (0, -1, -1) ].

(** The literal [0.5]. *)
Definition half : F := (#1 / #2)%F.

Definition F2 : F := (half * (fsqrt #3 - #1))%F.
Definition G2 : F := ((#3 - fsqrt #3) / #6)%F.

Definition fastfloor (x : F) : result Z :=
  xi ← to_int x;
  if (x <? #xi)%F then int_of (xi - 1) else mret xi.

Definition dot (g : Z * Z * Z) (x y : F) : F :=
  (#(g.1.1) * x + #(g.1.2) * y)%F.

Definition new (seed : Z) : result t :=
  let p := shuffle seed (iota 256) in
  perm ← mapM (λ i, at_ p (Z.land i 255)) (iota 512);
  mret {| perm := perm |}.

(** The contribution of one corner. *)
Definition corner (t0 : F) (gi : Z) (x0 y0 : F) : result F :=
  if (t0 <? #0)%F then mret (#0)%F
  else
    let t0 := (t0 * t0)%F in
    g ← at_ grad3 gi;
    mret (t0 * t0 * dot g x0 y0)%F.

Definition noise2D (e : t) (xin yin : F) : result F :=
  let s := ((xin + yin) * F2)%F in
  i ← fastfloor (xin + s)%F;
  j ← fastfloor (yin + s)%F;
  ij ← int_of (i + j);
  let t := (#ij * G2)%F in
  let X0 := (#i - t)%F in
  let Y0 := (#j - t)%F in
  let x0 := (xin - X0)%F in
  let y0 := (yin - Y0)%F in
  let '(i1, j1) := if (y0 <? x0)%F then (1, 0) else (0, 1) in
  let x1 := (x0 - #i1 + G2)%F in
  let y1 := (y0 - #j1 + G2)%F in
  let x2 := (x0 - #1 + #2 * G2)%F in
  let y2 := (y0 - #1 + #2 * G2)%F in
  let ii := Z.land i 255 in
  let jj := Z.land j 255 in
  pj0 ← at_ (perm e) jj;
  h0 ← at_ (perm e) (ii + pj0);
  let gi0 := Z.rem h0 12 in
  pj1 ← at_ (perm e) (jj + j1);
  h1 ← at_ (perm e) (ii + i1 + pj1);
  let gi1 := Z.rem h1 12 in
  pj2 ← at_ (perm e) (jj + 1);
  h2 ← at_ (perm e) (ii + 1 + pj2);
  let gi2 := Z.rem h2 12 in
  n0 ← corner (half - x0 * x0 - y0 * y0)%F gi0 x0 y0;
  n1 ← corner (half - x1 * x1 - y1 * y1)%F gi1 x1 y1;
  n2 ← corner (half - x2 * x2 - y2 * y2)%F gi2 x2 y2;
  mret ((#70 * (n0 + n1 + n2) + #1) / #2)%F.

End SimplexNoise.
End SimplexNoise.

(** ** Standalone entry points

    [generatePerlinNoise] and [generateSimplexNoise] each hold their
    engine in a function-local [static]: it is built by the first call,
    from that call's seed, and lives as long as the process. *)

Record statics : Type := {
  perlin : option PerlinNoise.t;
  simplex : option SimplexNoise.t;
}.

(** The statics when the process starts. *)
Definition process_start : statics := {| perlin := None; simplex := None |}.

Section Standalone.
Context {F : Type} `{Arith F}.
Variable shuffle : Z → list Z → list Z.

Definition generatePerlinNoise (st : statics) (x y z : F) (seed : Z)
  : statics * result F :=
  let e := match perlin st with
           | Some e => e
           | None => PerlinNoise.new shuffle seed
           end in
  ({| perlin := Some e; simplex := simplex st |}, PerlinNoise.noise e x y z).

Definition generateSimplexNoise (st : statics) (x y : F) (seed : Z)
  : statics * result F :=
  match simplex st with
  | Some e => (st, SimplexNoise.noise2D e x y)
  | None =>
      match SimplexNoise.new shuffle seed with
      | Ok e => ({| perlin := perlin st; simplex := Some e |},
                 SimplexNoise.noise2D e x y)
      | Err er => (st, Err er)
      end
  end.

(** ** Fractal Brownian motion *)

(** The accumulation loop of both compositors, [n] iterations from the
    given [total], [frequency], [amplitude] and [maxValue]. *)
Fixpoint octaves_loop (noise2D : F → F → result F) (n : nat)
    (x y persistence lacunarity : F)
    (total frequency amplitude maxValue : F) : result (F * F) :=
  match n with
  | O => mret (total, maxValue)
  | S n' =>
      v ← noise2D (x * frequency)%F (y * frequency)%F;
      octaves_loop noise2D n' x y persistence lacunarity
        (total + v * amplitude)%F
        (frequency * lacunarity)%F
        (amplitude * persistence)%F
        (maxValue + amplitude)%F
  end.

Definition fbm (noise2D : F → F → result F) (x y : F) (octaves : Z)
    (persistence lacunarity : F) : result F :=
  r ← octaves_loop noise2D (Z.to_nat octaves) x y persistence lacunarity
         (#0)%F (#1)%F (#1)%F (#0)%F;
  mret (r.1 / r.2)%F.

Definition generatePerlinFBM (x y : F) (octaves : Z)
    (persistence lacunarity : F) (seed : Z) : result F :=
  let perlin := PerlinNoise.new shuffle seed in
  fbm (PerlinNoise.noise2D perlin) x y octaves persistence lacunarity.

Definition generateSimplexFBM (x y : F) (octaves : Z)
    (persistence lacunarity : F) (seed : Z) : result F :=
  simplex ← SimplexNoise.new shuffle seed;
  fbm (SimplexNoise.noise2D simplex) x y octaves persistence lacunarity.

End Standalone.

(** ** Diamond-square *)

Module DiamondSquare.
Section DiamondSquare.
Context {F : Type} `{Arith F}.
(** From the C++ standard library: [std::mt19937] with its seeding and
    one draw of [std::uniform_real_distribution<float>(-1, 1)]. *)
Context {RNG : Type}.
Variable mt19937 : Z → RNG.
Variable dist : RNG → F * RNG.
(** The call [pow(2.0f, -roughness)] is unqualified, and <cmath> leaves
    to the library which functions it finds: the [float] overload, or
    (GNU libstdc++) only [double pow(double, double)].  [D] is the type
    the call computes in, [widen] and [narrow] are the conversions
    between [float] and [D]: the identity in the first case, those
    between [float] and [double] in the second, where
    [randomRange *= pow(...)] multiplies in [double] and rounds the
    product to [float]. *)
Context {D : Type} {arithD : Arith D}.
Variable widen : F → D.
Variable narrow : D → F.
Variable pow : D → D → D.

Record t : Type := {
  heightmap : list (list F);
  size : Z;
  rng : RNG;
}.

(** The grid is [size] rows of [size] cells. *)
Definition wf (d : t) : Prop :=
  0 ≤ size d ∧ length (heightmap d) = Z.to_nat (size d) ∧
  Forall (λ row, length row = Z.to_nat (size d)) (heightmap d).

(** What every step keeps: the grid well formed, the size the same. *)
Definition keeps (n : Z) (d : t) : Prop := wf d ∧ size d = n.

(** A position of the grid, and the height it holds. *)
Definition inside (d : t) (x y : Z) : bool :=
  (0 <=? x) && (x <? size d) && (0 <=? y) && (y <? size d).

Definition cell (d : t) (x y : Z) : F :=
  default (#0)%F (heightmap d !! Z.to_nat x ≫= λ row, row !! Z.to_nat y).



(** How many of the four guards of [squareStep] hold. *)
Definition count_of (n x y stepSize : Z) (wrap : bool) : Z :=
  (if wrap || (0 <=? y - stepSize) then 1 else 0) +
  (if wrap || (x + stepSize <? n) then 1 else 0) +
  (if wrap || (y + stepSize <? n) then 1 else 0) +
  (if wrap || (0 <=? x - stepSize) then 1 else 0).

Definition with_heightmap (d : t) (hm : list (list F)) : t :=
  {| heightmap := hm; size := size d; rng := rng d |}.

(** [dist(rng)] *)
Definition draw (d : t) : F * t :=
  let '(v, g) := dist (rng d) in
  (v, {| heightmap := heightmap d; size := size d; rng := g |}).

(** [heightmap[x][y]] *)
Definition get2 (hm : list (list F)) (x y : Z) : result F :=
  row ← at_ hm x; at_ row y.

(** [heightmap[x][y] = value] *)
Definition set2 (hm : list (list F)) (x y : Z) (value : F)
  : result (list (list F)) :=
  row ← at_ hm x; row' ← set_at row y value; set_at hm x row'.

Definition getHeight (d : t) (x y : Z) (wrap : bool) : result F :=
  x ← (if wrap then rem_ (x + size d) (size d) else mret x);
  y ← (if wrap then rem_ (y + size d) (size d) else mret y);
  if (x <? 0) || (size d <=? x) || (y <? 0) || (size d <=? y)
  then mret (#0)%F
  else get2 (heightmap d) x y.

Definition getHeightAt (d : t) (x y : Z) : result F := getHeight d x y false.

Definition setHeight (d : t) (x y : Z) (value : F) : result t :=
  if (0 <=? x) && (x <? size d) && (0 <=? y) && (y <? size d)
  then hm ← set2 (heightmap d) x y value; mret (with_heightmap d hm)
  else mret d.

Definition diamondStep (d : t) (x y stepSize : Z) (randomRange : F)
  : result t :=
  a ← getHeight d (x - stepSize) (y - stepSize) false;
  b ← getHeight d (x + stepSize) (y - stepSize) false;
  c ← getHeight d (x - stepSize) (y + stepSize) false;
  e ← getHeight d (x + stepSize) (y + stepSize) false;
  let avg := ((a + b + c + e) / #4)%F in
  let '(r, d) := draw d in
  let randomValue := (r * randomRange * #2 - randomRange)%F in
  setHeight d x y (avg + randomValue)%F.

(** One of the four guarded reads of [squareStep]: [sum] and [count]
    after it. *)
Definition neighbour (d : t) (guard : bool) (x y : Z) (wrap : bool)
    (acc : F * Z) : result (F * Z) :=
  if guard then h ← getHeight d x y wrap; mret ((acc.1 + h)%F, acc.2 + 1)
  else mret acc.

(** [sum] and [count] when [squareStep] has read its neighbours. *)
Definition neighbours (d : t) (x y stepSize : Z) (wrap : bool)
  : result (F * Z) :=
  acc ← neighbour d (wrap || (0 <=? y - stepSize)) x (y - stepSize) wrap
          ((#0)%F, 0);
  acc ← neighbour d (wrap || (x + stepSize <? size d)) (x + stepSize) y wrap
          acc;
  acc ← neighbour d (wrap || (y + stepSize <? size d)) x (y + stepSize) wrap
          acc;
  neighbour d (wrap || (0 <=? x - stepSize)) (x - stepSize) y wrap acc.

Definition squareStep (d : t) (x y stepSize : Z) (randomRange : F)
    (wrap : bool) : result t :=
  acc ← neighbours d x y stepSize wrap;
  let avg := (acc.1 / #(acc.2))%F in
  let '(r, d) := draw d in
  let randomValue := (r * randomRange * #2 - randomRange)%F in
  setHeight d x y (avg + randomValue)%F.

Definition new (mapSize seed : Z) : result t :=
  if mapSize <? 0 then Err LengthError
  else mret {| heightmap := replicate (Z.to_nat mapSize)
                              (replicate (Z.to_nat mapSize) (#0)%F);
               size := mapSize;
               rng := mt19937 seed |}.

(** [heightmap[x][y] = dist(rng)] *)
Definition seed_corner (x y : Z) (d : t) : result t :=
  let '(v, d) := draw d in
  hm ← set2 (heightmap d) x y v; mret (with_heightmap d hm).

(** The values of [stepSize] in
    [for (stepSize = size - 1; stepSize > 1; stepSize /= 2)]. *)
Fixpoint halvings (fuel : nat) (stepSize : Z) : list Z :=
  match fuel with
  | O => []
  | S fuel' =>
      if 1 <? stepSize then stepSize :: halvings fuel' (Z.quot stepSize 2)
      else []
  end.

Definition stepSizes (size : Z) : list Z :=
  halvings (Z.to_nat size) (size - 1).

Definition diamonds (halfStep stepSize : Z) (randomRange : F) (d : t)
  : result t :=
  forM (loop_range halfStep (size d) stepSize) (λ y,
    forM (loop_range halfStep (size d) stepSize) (λ x d,
      diamondStep d x y halfStep randomRange)) d.

Definition squares (halfStep stepSize : Z) (randomRange : F) (wrap : bool)
    (d : t) : result t :=
  forM (loop_range 0 (size d) halfStep) (λ y d,
    x0 ← rem_ (y + halfStep) stepSize;
    forM (loop_range x0 (size d) stepSize) (λ x d,
      squareStep d x y halfStep randomRange wrap) d) d.

(** One round of the outer loop, on the grid and [randomRange]. *)
Definition round (roughness : F) (wrap : bool) (stepSize : Z) (s : t * F)
  : result (t * F) :=
  let '(d, randomRange) := s in
  let halfStep := Z.quot stepSize 2 in
  d ← diamonds halfStep stepSize randomRange d;
  d ← squares halfStep stepSize randomRange wrap d;
  mret (d, narrow (widen randomRange * pow (widen #2) (widen (- roughness)))%F).

(** [generate] up to the call of [normalize]. *)
Definition rounds (d : t) (roughness : F) (wrap : bool) : result t :=
  d ← seed_corner 0 0 d;
  d ← seed_corner (size d - 1) 0 d;
  d ← seed_corner 0 (size d - 1) d;
  d ← seed_corner (size d - 1) (size d - 1) d;
  s ← forM (stepSizes (size d)) (round roughness wrap) (d, (#1)%F);
  mret s.1.

(** [std::min] and [std::max] *)
Definition fmin (a b : F) : F := if (b <? a)%F then b else a.
Definition fmax (a b : F) : F := if (a <? b)%F then b else a.

(** The literal [0.0001f]. *)
Definition epsilon : F := (#1 / #10000)%F.

(** [minVal] and [maxVal] after the first pair of loops of [normalize]. *)
Definition min_max (d : t) : result (F * F) :=
  h ← get2 (heightmap d) 0 0;
  forM (loop_range 0 (size d) 1) (λ y,
    forM (loop_range 0 (size d) 1) (λ x acc,
      h ← get2 (heightmap d) x y;
      mret (fmin acc.1 h, fmax acc.2 h))) (h, h).

Definition rescale (minVal range : F) (d : t) : result t :=
  forM (loop_range 0 (size d) 1) (λ y,
    forM (loop_range 0 (size d) 1) (λ x d,
      h ← get2 (heightmap d) x y;
      hm ← set2 (heightmap d) x y ((h - minVal) / range)%F;
      mret (with_heightmap d hm))) d.

Definition normalize (d : t) : result t :=
  mm ← min_max d;
  let range := (mm.2 - mm.1)%F in
  if (epsilon <? range)%F then rescale mm.1 range d else mret d.

Definition generate (d : t) (roughness : F) (wrap : bool) : result t :=
  d ← rounds d roughness wrap; normalize d.

Definition generateDiamondSquareNoise (size : Z) (roughness : F) (seed : Z)
    (wrap : bool) : result (list (list F)) :=
  ds ← new size seed;
  ds ← generate ds roughness wrap;
  mret (heightmap ds).

End DiamondSquare.
End DiamondSquare.

(** ** A standard library

    The C++ standard fixes what [std::shuffle] must do (reorder the range
    by swaps whose positions come from the generator), not how.  [Ref] is
    one conforming library: [minstd_rand0] (the generator libstdc++ names
    [std::default_random_engine]) and the backward swap loop of the
    standard's description, an index being drawn by remainder. *)

Module Ref.

Definition minstd_modulus : Z := 2147483647.

Definition minstd_seed (seed : Z) : Z :=
  let x := seed mod minstd_modulus in if x =? 0 then 1 else x.

Definition minstd_next (x : Z) : Z := (16807 * x) mod minstd_modulus.

Definition swap (l : list Z) (i j : nat) : list Z :=
  match l !! i, l !! j with
  | Some a, Some b => <[j := a]> (<[i := b]> l)
  | _, _ => l
  end.

(** [for (i = n - 1; i > 0; --i) swap(first[i], first[g() % (i + 1)])] *)
Fixpoint shuffle_from (i : nat) (x : Z) (l : list Z) : list Z :=
  match i with
  | O => l
  | S i' =>
      let x := minstd_next x in
      shuffle_from i' x (swap l i (Z.to_nat (x mod Z.of_nat (S i))))
  end.

Definition shuffle (seed : Z) (l : list Z) : list Z :=
  shuffle_from (length l - 1) (minstd_seed seed) l.

(** A stand-in for [std::mt19937] and the draws of
    [std::uniform_real_distribution<float>(-1, 1)]: the same
    generator, a draw being its low 24 bits scaled into [-1, 1). *)
Definition engine (seed : Z) : Z := minstd_seed seed.

Definition uniform {F : Type} `{Arith F} (x : Z) : F * Z :=
  let x := minstd_next x in
  ((#(x mod 2 ^ 24) / #(2 ^ 23) - #1)%F, x).

(** [std::pow] on an integral exponent, by repeated multiplication
    (the exponent is truncated first). *)
Definition pow {F : Type} `{Arith F} (b y : F) : F :=
  match to_int y with
  | Ok k =>
      let r := Nat.iter (Z.abs_nat k) (λ r, (r * b)%F) (#1)%F in
      if k <? 0 then (#1 / r)%F else r
  | Err _ => (#0 / #0)%F
  end.

End Ref.


(** The permutation GNU libstdc++ (GCC 12) builds for seed 0: what
    [std::shuffle] leaves of [0 .. 255] under
    [std::default_random_engine engine(0)]. *)
Definition libstdcxx_seed0 : list Z :=
  [ 244; 63; 164; 66; 95; 33; 248; 214; 20; 35; 183; 197; 134; 73; 36; 19;
    30; 109; 195; 151; 162; 240; 59; 215; 119; 145; 209; 12; 78; 106; 221;
    238; 208; 135; 26; 139; 219; 232; 181; 108; 144; 251; 180; 98; 117;
    255; 83; 87; 62; 234; 68; 43; 233; 196; 142; 75; 182; 88; 204; 32; 47;
    254; 122; 173; 184; 86; 242; 125; 79; 93; 150; 163; 16; 31; 253; 69;
    76; 100; 148; 192; 25; 82; 247; 72; 94; 141; 6; 53; 157; 48; 4; 74;
    237; 131; 202; 186; 50; 27; 46; 80; 39; 8; 246; 193; 77; 45; 116; 200;
    13; 218; 3; 191; 171; 55; 166; 216; 137; 107; 37; 231; 210; 91; 158;
    90; 224; 2; 174; 172; 65; 136; 124; 211; 199; 160; 146; 0; 54; 189; 14;
    149; 56; 1; 112; 228; 126; 24; 168; 102; 21; 153; 140; 10; 67; 132;
    118; 104; 155; 89; 11; 178; 177; 190; 99; 167; 194; 105; 222; 7; 143;
    236; 212; 111; 128; 249; 185; 71; 176; 243; 250; 138; 245; 15; 121;
    179; 187; 18; 52; 130; 113; 42; 207; 188; 44; 114; 230; 223; 133; 22;
    34; 129; 170; 203; 226; 201; 92; 101; 85; 51; 61; 115; 64; 220; 97;
    217; 154; 70; 96; 110; 120; 206; 60; 29; 175; 213; 241; 17; 23; 161;
    152; 103; 38; 156; 9; 41; 147; 235; 40; 252; 5; 58; 229; 169; 127; 225;
    81; 205; 165; 198; 123; 28; 49; 239; 57; 159; 84; 227 ].

(** A fresh generator in binary32, its grid still all zeros. *)
Definition fresh (n : Z) : @DiamondSquare.t spec_float Z :=
  {| DiamondSquare.heightmap :=
       replicate (Z.to_nat n) (replicate (Z.to_nat n) (#0)%F);
     DiamondSquare.size := n;
     DiamondSquare.rng := Ref.engine 0 |}.

(** The sizes the generator is written for. *)
Definition valid_size (n : Z) : Prop := ∃ k : Z, 1 ≤ k ∧ n = 2 ^ k + 1.

(** ** The terrain mesh (terrain/terrain.cpp)

    The caller of the noise functions: [generateTerrainVertices] with the
    functions it calls, and [generateTerrainIndices].  [float] is
    binary32 and [double] binary64; [glm::vec3] is a record of three
    [float]s, and [glm::mix] and [glm::normalize] are functions of the
    GLM library. *)

Module Terrain.

Definition TERRAIN_WIDTH : Z := 256.
Definition TERRAIN_HEIGHT : Z := 256.

(** A decimal literal of type [float]: the binary32 number nearest to
    [n / d]. *)
Definition lit (n d : Z) : spec_float := (#n / #d)%F.

Definition TERRAIN_SCALE : spec_float := lit 5 10.
Definition HEIGHT_SCALE : spec_float := (#20)%F.
Definition NOISE_SCALE : spec_float := lit 2 100.

Inductive NoiseType : Set := PERLIN | SIMPLEX | DIAMOND_SQUARE.

(** [glm::vec3] *)
Record vec3 : Type := { x : spec_float; y : spec_float; z : spec_float }.

Record Vertex : Type := { position : vec3; normal : vec3; color : vec3 }.

(** The conversions between [float] and [double]: exact one way,
    rounded to the nearest the other way (as IEEE 754 has it: a value
    beyond the range of [float] becomes an infinity). *)
Definition to_double (v : spec_float) : float := SF2Prim v.

Definition to_float (v : float) : spec_float :=
  match Prim2SF v with
  | S754_finite s m e => binary_round Binary32.prec Binary32.emax s m e
  | other => other
  end.

Section Terrain.
Variable shuffle : Z → list Z → list Z.
(** [glm::mix] and [glm::normalize], of the GLM library. *)
Variable mix : vec3 → vec3 → spec_float → vec3.
Variable normalize : vec3 → vec3.

Definition getColorForHeight (height : spec_float) : vec3 :=
  if (height <? lit 3 10)%F then
    mix {| x := lit 2 10; y := lit 4 10; z := lit 8 10 |}
        {| x := lit 4 10; y := lit 6 10; z := lit 3 10 |}
        (height / lit 3 10)%F
  else if (height <? lit 5 10)%F then
    mix {| x := lit 4 10; y := lit 6 10; z := lit 3 10 |}
        {| x := lit 3 10; y := lit 5 10; z := lit 2 10 |}
        ((height - lit 3 10) / lit 2 10)%F
  else if (height <? lit 7 10)%F then
    mix {| x := lit 3 10; y := lit 5 10; z := lit 2 10 |}
        {| x := lit 5 10; y := lit 4 10; z := lit 3 10 |}
        ((height - lit 5 10) / lit 2 10)%F
  else if (height <? lit 85 100)%F then
    mix {| x := lit 5 10; y := lit 4 10; z := lit 3 10 |}
        {| x := lit 5 10; y := lit 5 10; z := lit 5 10 |}
        ((height - lit 7 10) / lit 15 100)%F
  else
    mix {| x := lit 5 10; y := lit 5 10; z := lit 5 10 |}
        {| x := lit 9 10; y := lit 9 10; z := lit 95 100 |}
        ((height - lit 85 100) / lit 15 100)%F.

(** [vertices[i].position.y] *)
Definition height_at (vertices : list Vertex) (i : Z) : result spec_float :=
  v ← at_ vertices i; mret (y (position v)).

Definition calculateNormal (vertices : list Vertex) (x z width : Z)
  : result vec3 :=
  row ← int_of (z * width);
  index ← int_of (row + x);
  heightL ← height_at vertices (if 0 <? x then index - 1 else index);
  heightR ← height_at vertices (if x <? width - 1 then index + 1 else index);
  heightD ← height_at vertices (if 0 <? z then index - width else index);
  heightU ← height_at vertices
              (if z <? width - 1 then index + width else index);
  mret (normalize {| Terrain.x := (heightL - heightR)%F;
                     Terrain.y := (#2 * TERRAIN_SCALE)%F;
                     Terrain.z := (heightD - heightU)%F |}).

(** The height of the vertex at [(x, z)]: the [switch] of
    [generateTerrainVertices]. *)
Definition height_of (type : NoiseType) (x z : Z) : result spec_float :=
  let xs := to_double (#x * NOISE_SCALE)%F in
  let zs := to_double (#z * NOISE_SCALE)%F in
  match type with
  | PERLIN =>
      h ← generatePerlinFBM shuffle xs zs 6 0.5%float 2%float 12345;
      mret (to_float h)
  | SIMPLEX =>
      h ← generateSimplexFBM shuffle xs zs 5 0.5%float 2%float 54321;
      mret (to_float h)
  | DIAMOND_SQUARE =>
      h ← generatePerlinFBM shuffle xs zs 6 0.5%float 2%float 12345;
      mret (to_float h)
  end.

Definition generateTerrainVertices (type : NoiseType)
  : result (list Vertex) :=
  vertices ←
    forM (loop_range 0 TERRAIN_HEIGHT 1) (λ z,
      forM (loop_range 0 TERRAIN_WIDTH 1) (λ x vertices,
        height ← height_of type x z;
        let vertex :=
          {| position := {| Terrain.x := (#x * TERRAIN_SCALE)%F;
                            Terrain.y := (height * HEIGHT_SCALE)%F;
                            Terrain.z := (#z * TERRAIN_SCALE)%F |};
             normal := {| Terrain.x := (#0)%F; Terrain.y := (#1)%F;
                          Terrain.z := (#0)%F |};
             color := getColorForHeight height |} in
        mret (vertices ++ [vertex]))) [];
  forM (loop_range 0 TERRAIN_HEIGHT 1) (λ z,
    forM (loop_range 0 TERRAIN_WIDTH 1) (λ x vertices,
      let index := z * TERRAIN_WIDTH + x in
      n ← calculateNormal vertices x z TERRAIN_WIDTH;
      v ← at_ vertices index;
      set_at vertices index
        {| position := position v; normal := n; color := color v |}))
    vertices.

(** What the vertex of column [x] and row [z] holds in [vertices]: its
    index, its position and its color. *)
Definition vertex_of (type : NoiseType) (vertices : list Vertex)
    (x z : Z) : Prop :=
  ∃ h v,
    height_of type x z = Ok h ∧
    vertices !! Z.to_nat (z * TERRAIN_WIDTH + x) = Some v ∧
    position v = {| Terrain.x := (#x * TERRAIN_SCALE)%F;
                    Terrain.y := (h * HEIGHT_SCALE)%F;
                    Terrain.z := (#z * TERRAIN_SCALE)%F |} ∧
    color v = getColorForHeight h.

End Terrain.

Definition generateTerrainIndices : list Z :=
  z ← loop_range 0 (TERRAIN_HEIGHT - 1) 1;
  x ← loop_range 0 (TERRAIN_WIDTH - 1) 1;
  let topLeft := z * TERRAIN_WIDTH + x in
  let topRight := topLeft + 1 in
  let bottomLeft := (z + 1) * TERRAIN_WIDTH + x in
  let bottomRight := bottomLeft + 1 in
  [topLeft; bottomLeft; topRight; topRight; bottomLeft; bottomRight].

End Terrain.

(** The coordinate the mesh hands to the noise functions for column or
    row [i], all 256 of them, and what the noise functions need of two
    coordinates scaled by a frequency. *)
Definition noise_coordinate (i : Z) : float :=
  Terrain.to_double (#i * Terrain.NOISE_SCALE)%F.

Definition noise_coordinates : list float := noise_coordinate <$> iota 256.

Definition converts (v : float) : bool :=
  match IEEE.trunc (IEEE.floor v) with Ok _ => true | Err _ => false end.

Definition simplex_converts (xf yf : float) : bool :=
  match SimplexNoise.fastfloor (xf + (xf + yf) * SimplexNoise.F2)%float,
        SimplexNoise.fastfloor (yf + (xf + yf) * SimplexNoise.F2)%float with
  | Ok a, Ok b => (INT_MIN <=? a + b) && (a + b <=? INT_MAX)
  | _, _ => false
  end.

(** ** Predicates of the properties *)

(** The positions whose coordinates are multiples of [s]: the lattice
    diamond-square has filled when a round of step [s] starts. *)
Definition on_lattice (s x y : Z) : Prop := x mod s = 0 ∧ y mod s = 0.

(** Two generators of size [n] in the same random state whose grids hold
    the same heights at the positions of [P]. *)
Definition agree {F : Type} `{Arith F} {RNG : Type} (n : Z)
    (P : Z → Z → Prop) (d1 d2 : @DiamondSquare.t F RNG) : Prop :=
  DiamondSquare.keeps n d1 ∧ DiamondSquare.keeps n d2 ∧
  DiamondSquare.rng d1 = DiamondSquare.rng d2 ∧
  ∀ x y, 0 ≤ x < n → 0 ≤ y < n → P x y →
         DiamondSquare.cell d1 x y = DiamondSquare.cell d2 x y.

(** Binary64 values met at the corners of a lattice cell: a zero of
    either sign, an offset to a corner, a gradient value there. *)
Definition is_zero (f : float) : Prop := f = 0%float ∨ f = (-0)%float.

Definition corner_offset (f : float) : Prop := f = 0%float ∨ f = (-1)%float.

Definition small (f : float) : Prop :=
  f = (-2)%float ∨ f = (-1)%float ∨ f = (-0)%float ∨ f = 0%float ∨
  f = 1%float ∨ f = 2%float.

(** One of the alternatives of a disjunction holds by computation. *)
Ltac one_of := repeat (first [left; reflexivity | right]); try reflexivity.

(** [e mod s = 0] from [H : a mod s = 0], [e] being [a + k * s]. *)
Ltac mod_from H k :=
  match type of H with
  | ?a mod ?s = 0 =>
      match goal with
      | |- ?e mod s = 0 =>
          replace e with (a + k * s) by lia;
          rewrite Z.mod_add by lia; exact H
      end
  end.

(** ** The numbers of an IEEE format

    What the floats of [SpecFloat] denote, as rationals, and what it is
    for an operation of the format to return its exact result rounded
    to nearest, ties to even: the specification the arithmetic of C++
    on [float] and [double] follows, against which the order of the
    computed results is proved. *)

(** Powers of two. *)
Definition pow2 (e : Z) : Q := Qpower 2 e.

(** One half. *)
Definition one_half : Q := Qmake 1 2.

(** [y] lies in [[m, m + 1)], at the place [l] says. *)
Definition inb (m : Z) (l : location) (y : Q) : Prop :=
  match l with
  | loc_Exact => (y == inject_Z m)%Q
  | loc_Inexact Lt => (inject_Z m < y)%Q ∧ (y < inject_Z m + one_half)%Q
  | loc_Inexact Eq => (y == inject_Z m + one_half)%Q
  | loc_Inexact Gt => (inject_Z m + one_half < y)%Q ∧ (y < inject_Z m + 1)%Q
  end.

(** The number a finite float denotes (0 for the others). *)
Definition val (f : spec_float) : Q :=
  match f with
  | S754_finite s m e =>
      if s then (- (inject_Z (Zpos m) * pow2 e))%Q
      else (inject_Z (Zpos m) * pow2 e)%Q
  | _ => 0%Q
  end.

Section FloatFormat.
Variables prec emax : Z.
Local Abbreviation emin := (SpecFloat.emin prec emax).

(** [v] is what [x >= 0] rounds to, to nearest and ties to even, among
    the numbers [m * 2 ^ e] with [m < 2 ^ prec] and [e >= emin]: the
    numbers of the format, were its exponents not bounded above. *)
Definition rnd (x v : Q) : Prop :=
  ∃ (e m : Z) (l : location),
    emin ≤ e ∧ inb m l (x / pow2 e) ∧ 0 ≤ m < 2 ^ prec ∧
    (emin < e → 2 ^ (prec - 1) ≤ m) ∧
    (v == inject_Z (round_nearest_even m l) * pow2 e)%Q.

(** The outcome of an operation whose rounded value is [v >= 0]. *)
Definition outcome (r : spec_float) (s : bool) (v : Q) : Prop :=
  ((v == 0)%Q ∧ r = S754_zero s) ∨
  ((0 < v)%Q ∧ (v < pow2 emax)%Q ∧
   ∃ p e, r = S754_finite s p e ∧ bounded prec emax p e = true ∧
          (inject_Z (Zpos p) * pow2 e == v)%Q) ∨
  ((pow2 emax <= v)%Q ∧ r = S754_infinity s).

(** A finite number of the format, and one that is not negative. *)
Definition fin_float (f : spec_float) : bool :=
  match f with
  | S754_zero _ => true
  | S754_finite _ m e => bounded prec emax m e
  | _ => false
  end.

Definition nonneg_float (f : spec_float) : bool :=
  match f with
  | S754_zero _ => true
  | S754_finite false m e => bounded prec emax m e
  | _ => false
  end.

(** [r] is the float an operation returns when its exact result is
    [x >= 0]: the rounded value if that is below [2 ^ emax], the
    positive infinity if not. *)
Definition rounds_to (x : Q) (r : spec_float) : Prop :=
  ∃ v, rnd x v ∧
    (((v == 0)%Q ∧ ∃ s, r = S754_zero s) ∨
     ((0 < v)%Q ∧ (v < pow2 emax)%Q ∧ nonneg_float r = true ∧
      (val r == v)%Q) ∨
     ((pow2 emax <= v)%Q ∧ r = S754_infinity false)).

End FloatFormat.

(** *** Binary32

    A finite number (no infinity, no NaN), the number 1, the test
    [0 <= v && v <= 1], false of a NaN, and a grid whose heights are all
    finite. *)

Definition finite32 (v : spec_float) : bool :=
  fin_float Binary32.prec Binary32.emax v.

Definition one32 : spec_float := S754_finite false 8388608 (-23).



(** *** Binary64

    The test [0 <= v && v <= 1], false of a NaN; the noise calls of an
    fBM loop all passing it; a [double] that is finite and not
    negative, the rational it denotes, and [2^53]. *)

Definition in_unit64 (v : float) : Prop :=
  (0 <=? v)%float = true ∧ (v <=? 1)%float = true.

Definition octave_calls_in_unit64 (noise2D : float → float → result float)
    (x y lacunarity : float) (octaves : Z) : Prop :=
  ∀ i : nat, (i < Z.to_nat octaves)%nat →
    ∃ v, noise2D (x * frequency_at lacunarity i)%F
                 (y * frequency_at lacunarity i)%F = Ok v ∧ in_unit64 v.

Definition nonneg64 (x : float) : Prop :=
  nonneg_float prec emax (Prim2SF x) = true.

Definition value64 (x : float) : Q := val (Prim2SF x).

Definition cap64 : float := 9007199254740992%float.

(** * Properties *)

(** ** The permutation table *)

Lemma iota_length n : length (iota n) = n.
Proof. unfold iota. by rewrite length_fmap, length_seq. Qed.

Lemma elem_of_iota n v : v ∈ iota n ↔ 0 ≤ v < Z.of_nat n.
Proof.
  unfold iota. rewrite list_elem_of_fmap. split.
  - intros (k & -> & Hk). apply elem_of_seq in Hk. lia.
  - intros Hv. exists (Z.to_nat v). split; [lia|]. apply elem_of_seq. lia.
Qed.

Lemma NoDup_iota n : NoDup (iota n).
Proof.
  unfold iota. apply NoDup_fmap_2; [intros ? ? ?; lia | apply NoDup_seq].
Qed.

Lemma at_lookup {A} (v : list A) (i : Z) (a : A) :
  at_ v i = Ok a ↔ 0 ≤ i ∧ v !! Z.to_nat i = Some a.
Proof.
  unfold at_. destruct (Z.ltb_spec i 0).
  - split; [done | lia].
  - destruct (v !! Z.to_nat i) as [b|]; split.
    + intros [= ->]. split; [lia | done].
    + by intros [_ [= ->]].
    + done.
    + by intros [_ [=]].
Qed.

Lemma at_in_range {A} (v : list A) (i : Z) :
  0 ≤ i < Z.of_nat (length v) → ∃ a, at_ v i = Ok a.
Proof.
  intros Hi. destruct (lookup_lt_is_Some_2 v (Z.to_nat i)) as [a Ha]; [lia|].
  exists a. apply at_lookup. split; [lia | done].
Qed.

Module RefFacts.

Lemma swap_perm l i j : Ref.swap l i j ≡ₚ l.
Proof.
  unfold Ref.swap.
  destruct (l !! i) eqn:Hi, (l !! j) eqn:Hj; try done.
  by apply Permutation_insert_swap.
Qed.

Lemma shuffle_from_perm i x l : Ref.shuffle_from i x l ≡ₚ l.
Proof.
  revert x l. induction i as [|i IH]; intros x l; simpl; [done|].
  by rewrite IH, swap_perm.
Qed.

Lemma shuffle_perm seed l : Ref.shuffle seed l ≡ₚ l.
Proof. apply shuffle_from_perm. Qed.

End RefFacts.

Section Table.
Variable shuffle : Z → list Z → list Z.
Hypothesis shuffle_perm : ∀ seed l, shuffle seed l ≡ₚ l.

Lemma base_length seed : length (shuffle seed (iota 256)) = 256%nat.
Proof. by rewrite (Permutation_length (shuffle_perm _ _)), iota_length. Qed.

Lemma simplex_new seed :
  ∃ e, SimplexNoise.new shuffle seed = Ok e ∧
       SimplexNoise.perm e =
         (λ i, default 0 (shuffle seed (iota 256) !! Z.to_nat (Z.land i 255)))
           <$> iota 512.
Proof.
  unfold SimplexNoise.new.
  set (base := shuffle seed (iota 256)).
  assert (Hall : ∀ l : list Z,
    mapM (λ i, at_ base (Z.land i 255)) l =
    Ok ((λ i, default 0 (base !! Z.to_nat (Z.land i 255))) <$> l)).
  { induction l as [|i l IH]; [done|].
    change (mapM (λ i, at_ base (Z.land i 255)) (i :: l))
      with (at_ base (Z.land i 255) ≫= λ y,
            mapM (λ i, at_ base (Z.land i 255)) l ≫= λ k, mret (y :: k)).
    destruct (at_in_range base (Z.land i 255)) as [a Ha].
    { unfold base. rewrite base_length.
      change 255 with (Z.ones 8). rewrite Z.land_ones by lia.
      pose proof (Z.mod_pos_bound i (2 ^ 8)). lia. }
    rewrite Ha, IH. apply at_lookup in Ha as [_ Ha].
    cbn. by rewrite Ha. }
  rewrite Hall. eexists. split; [done|]. done.
Qed.

End Table.

(** ** The result monad and loops *)

Lemma bind_Ok {A B} (a : A) (f : A → result B) : (Ok a ≫= f) = f a.
Proof. reflexivity. Qed.

Lemma bind_inv {A B} (m : result A) (f : A → result B) (b : B) :
  m ≫= f = Ok b → ∃ a, m = Ok a ∧ f a = Ok b.
Proof. destruct m as [a|e]; [eauto | discriminate]. Qed.

Lemma set_at_in_range {A} (v : list A) (i : Z) (a : A) :
  0 ≤ i < Z.of_nat (length v) → set_at v i a = Ok (<[Z.to_nat i := a]> v).
Proof.
  intros Hi. unfold set_at.
  destruct (Z.leb_spec 0 i), (Z.ltb_spec i (Z.of_nat (length v))); (done || lia).
Qed.

(** A loop whose body keeps an invariant and never fails does neither. *)
Lemma forM_invariant {S} (P : S → Prop) (l : list Z)
    (body : Z → S → result S) (s : S) :
  P s →
  (∀ i s, i ∈ l → P s → ∃ s', body i s = Ok s' ∧ P s') →
  ∃ s', forM l body s = Ok s' ∧ P s'.
Proof.
  revert s. induction l as [|i l IH]; intros s Hs Hbody; simpl; [eauto|].
  destruct (Hbody i s) as (s' & -> & Hs'); [left | done |].
  rewrite bind_Ok. apply IH; [done|].
  intros j s0 Hj. apply Hbody. by right.
Qed.

Lemma count_up_bounds fuel i stop step j :
  0 < step → j ∈ count_up fuel i stop step → i ≤ j < stop.
Proof.
  intros Hstep. revert i. induction fuel as [|fuel IH]; intros i; simpl.
  - by intros ?%elem_of_nil.
  - destruct (Z.ltb_spec i stop); [|by intros ?%elem_of_nil].
    intros [->|Hj%IH]%elem_of_cons; lia.
Qed.

Lemma loop_range_bounds start stop step j :
  0 < step → j ∈ loop_range start stop step → start ≤ j < stop.
Proof. apply count_up_bounds. Qed.

(** The fuel of [count_up] is enough: every value the C++ loop reaches
    is in the list. *)
Lemma count_up_complete fuel i stop step k :
  0 < step → (Z.to_nat (stop - i) ≤ fuel)%nat →
  0 ≤ k → i + k * step < stop → i + k * step ∈ count_up fuel i stop step.
Proof.
  intros Hstep. revert i k. induction fuel as [|fuel IH]; intros i k Hfuel Hk Hlt.
  - nia.
  - simpl. destruct (Z.ltb_spec i stop); [|nia].
    destruct (decide (k = 0)) as [->|Hne].
    + rewrite Z.add_0_r. left.
    + right. replace (i + k * step) with ((i + step) + (k - 1) * step) by lia.
      apply IH; lia.
Qed.

Lemma elem_of_loop_range start stop step j :
  0 < step →
  j ∈ loop_range start stop step ↔
  start ≤ j < stop ∧ (j - start) mod step = 0.
Proof.
  intros Hstep. split.
  - intros Hj. split; [by eapply loop_range_bounds|].
    unfold loop_range in Hj. revert Hj.
    generalize (Z.to_nat (stop - start)). intros fuel. revert start.
    induction fuel as [|fuel IH]; intros start; simpl.
    + by intros ?%elem_of_nil.
    + destruct (Z.ltb_spec start stop); [|by intros ?%elem_of_nil].
      intros [->|Hj%IH]%elem_of_cons.
      * by rewrite Z.sub_diag.
      * replace (j - start) with ((j - (start + step)) + 1 * step) by lia.
        by rewrite Z.mod_add by lia.
  - intros [Hj Hmod].
    apply Z.mod_divide in Hmod as [k Hk]; [|lia].
    replace j with (start + k * step) by lia.
    apply count_up_complete; [done | done | nia | lia].
Qed.

(** ** Diamond-square: the grid stays well formed and no step fails *)

Module DS := DiamondSquare.

Section DiamondSquareFacts.
Context {D : Type} `{Arith D} {F : Type} `{Arith F} {RNG : Type}.
Variable mt19937 : Z → RNG.
Variable dist : RNG → F * RNG.
Variable widen : F → D.
Variable narrow : D → F.
Variable pow : D → D → D.

Local Abbreviation t := (@DS.t F RNG).
Local Abbreviation draw := (DS.draw dist).

Local Abbreviation keeps := DS.keeps.
Local Abbreviation count_of := DS.count_of.

Lemma draw_heightmap (d : t) : DS.heightmap (draw d).2 = DS.heightmap d.
Proof. unfold DS.draw. by destruct (dist _). Qed.

Lemma draw_size (d : t) : DS.size (draw d).2 = DS.size d.
Proof. unfold DS.draw. by destruct (dist _). Qed.

Lemma draw_keeps n (d : t) : keeps n d → keeps n (draw d).2.
Proof.
  unfold keeps, DS.wf. by rewrite draw_heightmap, draw_size.
Qed.

Lemma new_keeps n seed :
  0 ≤ n → ∃ d, DS.new mt19937 n seed = Ok d ∧ keeps n d.
Proof.
  intros Hn. unfold DS.new. destruct (Z.ltb_spec n 0); [lia|].
  eexists. split; [done|]. repeat split; simpl; [done | |].
  - by rewrite length_replicate.
  - apply Forall_replicate. by rewrite length_replicate.
Qed.

Lemma wf_row (d : t) x :
  DS.wf d → 0 ≤ x < DS.size d →
  ∃ row, DS.heightmap d !! Z.to_nat x = Some row ∧
         length row = Z.to_nat (DS.size d).
Proof.
  intros (Hn & Hlen & Hrows) Hx.
  destruct (lookup_lt_is_Some_2 (DS.heightmap d) (Z.to_nat x)) as [row Hrow];
    [lia|].
  exists row. split; [done|].
  by eapply (proj1 (Forall_lookup _ _) Hrows).
Qed.

Lemma get2_in_range (d : t) x y :
  DS.wf d → 0 ≤ x < DS.size d → 0 ≤ y < DS.size d →
  ∃ h, DS.get2 (DS.heightmap d) x y = Ok h.
Proof.
  intros Hwf Hx Hy. destruct (wf_row d x Hwf Hx) as (row & Hrow & Hlen).
  unfold DS.get2.
  assert (at_ (DS.heightmap d) x = Ok row) as -> by (apply at_lookup; split; [lia | done]).
  rewrite bind_Ok. apply at_in_range. lia.
Qed.

Lemma set2_in_range (d : t) x y v :
  DS.wf d → 0 ≤ x < DS.size d → 0 ≤ y < DS.size d →
  ∃ hm, DS.set2 (DS.heightmap d) x y v = Ok hm ∧
        DS.wf (DS.with_heightmap d hm).
Proof.
  intros Hwf Hx Hy. destruct (wf_row d x Hwf Hx) as (row & Hrow & Hlen).
  destruct Hwf as (Hn & Hlen' & Hrows).
  unfold DS.set2.
  assert (at_ (DS.heightmap d) x = Ok row) as -> by (apply at_lookup; split; [lia | done]).
  rewrite bind_Ok, set_at_in_range by lia.
  rewrite bind_Ok, set_at_in_range by lia.
  eexists. split; [done|].
  repeat split; simpl; [done | by rewrite length_insert |].
  apply Forall_insert; [done|]. by rewrite length_insert.
Qed.

Lemma getHeight_total (d : t) x y wrap :
  DS.wf d → (wrap = true → DS.size d ≠ 0) →
  ∃ h, DS.getHeight d x y wrap = Ok h.
Proof.
  intros Hwf Hwrap. unfold DS.getHeight.
  assert (∀ a, ∃ a', (if wrap then rem_ (a + DS.size d) (DS.size d) else mret a)
                     = Ok a') as Hrem.
  { intros a. destruct wrap; [|by eexists].
    unfold rem_. destruct (Z.eqb_spec (DS.size d) 0); [by destruct Hwrap|].
    by eexists. }
  destruct (Hrem x) as [x' ->], (Hrem y) as [y' ->]. rewrite !bind_Ok.
  destruct (Z.ltb_spec x' 0), (Z.leb_spec (DS.size d) x'),
    (Z.ltb_spec y' 0), (Z.leb_spec (DS.size d) y'); simpl; eauto.
  apply get2_in_range; [done | lia | lia].
Qed.

Lemma setHeight_keeps n (d : t) x y v :
  keeps n d → ∃ d', DS.setHeight d x y v = Ok d' ∧ keeps n d'.
Proof.
  intros [Hwf Hn]. unfold DS.setHeight.
  destruct (Z.leb_spec 0 x), (Z.ltb_spec x (DS.size d)),
    (Z.leb_spec 0 y), (Z.ltb_spec y (DS.size d)); simpl;
    try (by eexists).
  destruct (set2_in_range d x y v) as (hm & -> & Hwf'); [done | lia | lia |].
  rewrite bind_Ok. by eexists.
Qed.

Lemma diamondStep_keeps n (d : t) x y stepSize randomRange :
  keeps n d →
  ∃ d', DS.diamondStep dist d x y stepSize randomRange = Ok d' ∧ keeps n d'.
Proof.
  intros Hd. unfold DS.diamondStep.
  destruct (getHeight_total d (x - stepSize) (y - stepSize) false)
    as [a ->]; [apply Hd | done |].
  destruct (getHeight_total d (x + stepSize) (y - stepSize) false)
    as [b ->]; [apply Hd | done |].
  destruct (getHeight_total d (x - stepSize) (y + stepSize) false)
    as [c ->]; [apply Hd | done |].
  destruct (getHeight_total d (x + stepSize) (y + stepSize) false)
    as [e ->]; [apply Hd | done |].
  rewrite !bind_Ok.
  pose proof (draw_keeps n d Hd) as Hd'. destruct (draw d) as [r d'].
  by apply setHeight_keeps.
Qed.

Lemma neighbour_total (d : t) guard x y wrap acc :
  DS.wf d → (wrap = true → DS.size d ≠ 0) →
  ∃ sum, DS.neighbour d guard x y wrap acc
         = Ok (sum, acc.2 + (if guard then 1 else 0)).
Proof.
  intros Hwf Hwrap. unfold DS.neighbour. destruct guard.
  - destruct (getHeight_total d x y wrap) as [h ->]; [done | done |].
    rewrite bind_Ok. by eexists.
  - exists acc.1. rewrite Z.add_0_r. by destruct acc.
Qed.

Lemma neighbours_total (d : t) x y stepSize wrap :
  DS.wf d → (wrap = true → DS.size d ≠ 0) →
  ∃ sum, DS.neighbours d x y stepSize wrap
         = Ok (sum, count_of (DS.size d) x y stepSize wrap).
Proof.
  intros Hwf Hwrap. unfold DS.neighbours, count_of.
  edestruct neighbour_total as [s1 ->]; [done | done |]. rewrite bind_Ok.
  edestruct neighbour_total as [s2 ->]; [done | done |]. rewrite bind_Ok.
  edestruct neighbour_total as [s3 ->]; [done | done |]. rewrite bind_Ok.
  edestruct neighbour_total as [s4 ->]; [done | done |].
  exists s4. simpl. do 2 f_equal.
Qed.

Lemma squareStep_keeps n (d : t) x y stepSize randomRange wrap :
  keeps n d → (wrap = true → n ≠ 0) →
  ∃ d', DS.squareStep dist d x y stepSize randomRange wrap = Ok d' ∧
        keeps n d'.
Proof.
  intros Hd Hwrap. unfold DS.squareStep.
  destruct (neighbours_total d x y stepSize wrap) as [s ->];
    [apply Hd | by destruct Hd as [_ ->] |].
  rewrite bind_Ok.
  pose proof (draw_keeps n d Hd) as Hd'. destruct (draw d) as [r d'].
  by apply setHeight_keeps.
Qed.

Lemma halvings_bounds fuel start s :
  s ∈ DS.halvings fuel start → 1 < s ≤ start.
Proof.
  revert start. induction fuel as [|fuel IH]; intros start; simpl.
  - by intros ?%elem_of_nil.
  - destruct (Z.ltb_spec 1 start); [|by intros ?%elem_of_nil].
    intros [->|Hs%IH]%elem_of_cons; [lia|].
    pose proof (Z.quot_lt start 2). lia.
Qed.

(** The fuel of [halvings] is enough: the list ends because [stepSize]
    has come down to 1 or less, which more fuel does not change. *)
Lemma halvings_fuel fuel start :
  start < Z.of_nat fuel → DS.halvings (S fuel) start = DS.halvings fuel start.
Proof.
  revert start. induction fuel as [|fuel IH]; intros start Hfuel.
  - simpl. by destruct (Z.ltb_spec 1 start); [lia|].
  - change (DS.halvings (S (S fuel)) start)
      with (if 1 <? start
            then start :: DS.halvings (S fuel) (Z.quot start 2) else []).
    change (DS.halvings (S fuel) start)
      with (if 1 <? start
            then start :: DS.halvings fuel (Z.quot start 2) else []).
    destruct (Z.ltb_spec 1 start); [|done].
    rewrite IH; [done|]. pose proof (Z.quot_lt start 2). lia.
Qed.

Lemma stepSizes_bounds n s : s ∈ DS.stepSizes n → 1 < s ≤ n - 1.
Proof. apply halvings_bounds. Qed.

Lemma diamonds_keeps n (d : t) halfStep stepSize randomRange :
  keeps n d →
  ∃ d', DS.diamonds dist halfStep stepSize randomRange d = Ok d' ∧ keeps n d'.
Proof.
  intros Hd. unfold DS.diamonds.
  apply (forM_invariant (keeps n)); [done|]. intros y d1 _ Hd1.
  apply (forM_invariant (keeps n)); [done|]. intros x d2 _ Hd2.
  by apply diamondStep_keeps.
Qed.

Lemma squares_keeps n (d : t) halfStep stepSize randomRange wrap :
  keeps n d → stepSize ≠ 0 → (wrap = true → n ≠ 0) →
  ∃ d', DS.squares dist halfStep stepSize randomRange wrap d = Ok d' ∧
        keeps n d'.
Proof.
  intros Hd Hstep Hwrap. unfold DS.squares.
  apply (forM_invariant (keeps n)); [done|]. intros y d1 _ Hd1.
  unfold rem_. destruct (Z.eqb_spec stepSize 0); [done|]. rewrite bind_Ok.
  apply (forM_invariant (keeps n)); [done|]. intros x d2 _ Hd2.
  by apply squareStep_keeps.
Qed.

Lemma round_keeps n (d : t) roughness wrap stepSize randomRange :
  keeps n d → stepSize ≠ 0 → (wrap = true → n ≠ 0) →
  ∃ s, DS.round dist widen narrow pow roughness wrap stepSize (d, randomRange) = Ok s ∧
       keeps n s.1.
Proof.
  intros Hd Hstep Hwrap. unfold DS.round.
  destruct (diamonds_keeps n d (Z.quot stepSize 2) stepSize randomRange Hd)
    as (d1 & -> & Hd1). rewrite bind_Ok.
  destruct (squares_keeps n d1 (Z.quot stepSize 2) stepSize randomRange wrap
              Hd1 Hstep Hwrap) as (d2 & -> & Hd2). rewrite bind_Ok.
  by eexists.
Qed.

Lemma seed_corner_keeps n (d : t) x y :
  keeps n d → 0 ≤ x < n → 0 ≤ y < n →
  ∃ d', DS.seed_corner dist x y d = Ok d' ∧ keeps n d'.
Proof.
  intros Hd Hx Hy. unfold DS.seed_corner.
  pose proof (draw_keeps n d Hd) as [Hwf Hn]. destruct (draw d) as [v d1].
  simpl in Hwf, Hn.
  destruct (set2_in_range d1 x y v) as (hm & -> & Hwf'); [done | lia | lia |].
  rewrite bind_Ok. by eexists.
Qed.

Lemma rounds_keeps n (d : t) roughness wrap :
  keeps n d → 1 ≤ n →
  ∃ d', DS.rounds dist widen narrow pow d roughness wrap = Ok d' ∧ keeps n d'.
Proof.
  intros Hd Hn. unfold DS.rounds.
  destruct (seed_corner_keeps n d 0 0) as (d1 & -> & Hd1); [done | lia | lia |].
  rewrite bind_Ok. destruct Hd1 as [Hwf1 Hn1]. rewrite Hn1.
  destruct (seed_corner_keeps n d1 (n - 1) 0) as (d2 & -> & Hd2);
    [done | lia | lia |].
  rewrite bind_Ok. destruct Hd2 as [Hwf2 Hn2]. rewrite Hn2.
  destruct (seed_corner_keeps n d2 0 (n - 1)) as (d3 & -> & Hd3);
    [done | lia | lia |].
  rewrite bind_Ok. destruct Hd3 as [Hwf3 Hn3]. rewrite Hn3.
  destruct (seed_corner_keeps n d3 (n - 1) (n - 1)) as (d4 & -> & Hd4);
    [done | lia | lia |].
  rewrite bind_Ok. destruct Hd4 as [Hwf4 Hn4]. rewrite Hn4.
  destruct (forM_invariant (λ s : t * F, keeps n s.1) (DS.stepSizes n)
              (DS.round dist widen narrow pow roughness wrap) (d4, (#1)%F))
    as (s & -> & Hs); [done | | by eexists].
  intros stepSize [d5 r] Hstep%stepSizes_bounds Hd5.
  apply round_keeps; [done | lia | lia].
Qed.

Lemma min_max_total n (d : t) :
  keeps n d → 1 ≤ n → ∃ mm, DS.min_max d = Ok mm.
Proof.
  intros [Hwf Hn] Hn1. unfold DS.min_max.
  destruct (get2_in_range d 0 0) as [h ->]; [done | lia | lia |].
  rewrite bind_Ok.
  destruct (forM_invariant (λ _ : F * F, True) (loop_range 0 (DS.size d) 1)
    (λ y, forM (loop_range 0 (DS.size d) 1) (λ x acc,
       h ← DS.get2 (DS.heightmap d) x y;
       mret (DS.fmin acc.1 h, DS.fmax acc.2 h))) (h, h))
    as (mm & -> & _); [done | | by eexists].
  intros y acc Hy%loop_range_bounds _; [|lia].
  apply (forM_invariant (λ _ : F * F, True)); [done|].
  intros x acc' Hx%loop_range_bounds _; [|lia].
  destruct (get2_in_range d x y) as [h' ->]; [done | lia | lia |].
  rewrite bind_Ok. by eexists.
Qed.

Lemma rescale_keeps n (d : t) minVal range :
  keeps n d → ∃ d', DS.rescale minVal range d = Ok d' ∧ keeps n d'.
Proof.
  intros Hd. unfold DS.rescale. destruct Hd as [Hwf Hn]. rewrite Hn.
  apply (forM_invariant (keeps n)); [done|].
  intros y d1 Hy%loop_range_bounds Hd1; [|lia].
  apply (forM_invariant (keeps n)); [done|].
  intros x d2 Hx%loop_range_bounds [Hwf2 Hn2]; [|lia].
  destruct (get2_in_range d2 x y) as [h ->]; [done | lia | lia |].
  rewrite bind_Ok.
  destruct (set2_in_range d2 x y ((h - minVal) / range)%F)
    as (hm & -> & Hwf'); [done | lia | lia |].
  rewrite bind_Ok. by eexists.
Qed.

Lemma normalize_keeps n (d : t) :
  keeps n d → 1 ≤ n → ∃ d', DS.normalize d = Ok d' ∧ keeps n d'.
Proof.
  intros Hd Hn. unfold DS.normalize.
  destruct (min_max_total n d Hd Hn) as [mm ->]. rewrite bind_Ok.
  destruct (_ <? _)%F; [by apply rescale_keeps | by eexists].
Qed.

Lemma generate_keeps n (d : t) roughness wrap :
  keeps n d → 1 ≤ n →
  ∃ d', DS.generate dist widen narrow pow d roughness wrap = Ok d' ∧ keeps n d'.
Proof.
  intros Hd Hn. unfold DS.generate.
  destruct (rounds_keeps n d roughness wrap Hd Hn) as (d1 & -> & Hd1).
  rewrite bind_Ok. by apply normalize_keeps.
Qed.

(** Every size from 1 on is accepted and gives a grid of that size. *)
Lemma generateDiamondSquareNoise_total n roughness seed wrap :
  1 ≤ n →
  ∃ grid, DS.generateDiamondSquareNoise mt19937 dist widen narrow pow
            n roughness seed wrap
          = Ok grid ∧
          length grid = Z.to_nat n ∧
          Forall (λ row, length row = Z.to_nat n) grid.
Proof.
  intros Hn. unfold DS.generateDiamondSquareNoise.
  destruct (new_keeps n seed) as (d & -> & Hd); [lia|]. rewrite bind_Ok.
  destruct (generate_keeps n d roughness wrap Hd Hn)
    as (d' & -> & (_ & Hlen & Hrows) & Hsize).
  rewrite bind_Ok. exists (DS.heightmap d'). by rewrite Hsize in Hlen, Hrows.
Qed.

Lemma get2_cell (d : t) x y :
  DS.wf d → DS.inside d x y = true →
  DS.get2 (DS.heightmap d) x y = Ok (DS.cell d x y).
Proof.
  intros Hwf Hin. unfold DS.inside in Hin.
  apply andb_prop in Hin as [[[Hx1 Hx2]%andb_prop Hy1]%andb_prop Hy2].
  apply Z.leb_le in Hx1, Hy1. apply Z.ltb_lt in Hx2, Hy2.
  destruct (wf_row d x Hwf) as (row & Hrow & Hlen); [lia|].
  destruct (lookup_lt_is_Some_2 row (Z.to_nat y)) as [h Hh]; [lia|].
  unfold DS.get2, DS.cell. rewrite Hrow. simpl. rewrite Hh. simpl.
  assert (at_ (DS.heightmap d) x = Ok row) as ->
    by (apply at_lookup; split; [lia | done]).
  rewrite bind_Ok. apply at_lookup. split; [lia | done].
Qed.

Lemma getHeight_no_wrap (d : t) x y :
  DS.wf d →
  DS.getHeight d x y false
  = Ok (if DS.inside d x y then DS.cell d x y else (#0)%F).
Proof.
  intros Hwf. unfold DS.getHeight. rewrite !bind_Ok.
  destruct (DS.inside d x y) eqn:Hin.
  - rewrite get2_cell by done. unfold DS.inside in Hin.
    destruct (Z.ltb_spec x 0), (Z.leb_spec (DS.size d) x),
      (Z.ltb_spec y 0), (Z.leb_spec (DS.size d) y); simpl; try done;
      destruct (Z.leb_spec 0 x), (Z.ltb_spec x (DS.size d)),
        (Z.leb_spec 0 y), (Z.ltb_spec y (DS.size d)); simpl in Hin;
      (done || lia).
  - unfold DS.inside in Hin.
    destruct (Z.ltb_spec x 0), (Z.leb_spec (DS.size d) x),
      (Z.ltb_spec y 0), (Z.leb_spec (DS.size d) y); simpl; try done.
    destruct (Z.leb_spec 0 x), (Z.ltb_spec x (DS.size d)),
      (Z.leb_spec 0 y), (Z.ltb_spec y (DS.size d)); simpl in Hin;
      (done || lia).
Qed.

Lemma count_of_positive n x y stepSize wrap :
  0 ≤ y < n → 2 * stepSize ≤ n - 1 → 1 ≤ count_of n x y stepSize wrap.
Proof.
  intros Hy Hstep. unfold DS.count_of. destruct wrap; simpl; [lia|].
  destruct (Z.leb_spec 0 (y - stepSize)), (Z.ltb_spec (x + stepSize) n),
    (Z.ltb_spec (y + stepSize) n), (Z.leb_spec 0 (x - stepSize)); lia.
Qed.

End DiamondSquareFacts.

(** ** The claims on the engines *)

(** C2: for every seed, the 256 base entries of the table hold each of
    0..255 exactly once; the Perlin table is that permutation twice, 512
    entries; the Simplex table has 512 entries, [perm[i] = base[i & 255]];
    and once a static engine exists, no call replaces or changes it. *)
Theorem permutation_table_valid (shuffle : Z → list Z → list Z) :
  (∀ seed l, shuffle seed l ≡ₚ l) →
  ∀ seed : Z,
    let base := shuffle seed (iota 256) in
    (length base = 256%nat ∧ NoDup base ∧ ∀ v, v ∈ base ↔ 0 ≤ v < 256) ∧
    PerlinNoise.p (PerlinNoise.new shuffle seed) = base ++ base ∧
    length (PerlinNoise.p (PerlinNoise.new shuffle seed)) = 512%nat ∧
    (∃ e, SimplexNoise.new shuffle seed = Ok e ∧
          length (SimplexNoise.perm e) = 512%nat ∧
          ∀ i, 0 ≤ i < 512 →
               at_ (SimplexNoise.perm e) i = at_ base (Z.land i 255)) ∧
    (∀ (st : statics) (x y z : float) (seed' : Z),
       (∀ e, perlin st = Some e →
             perlin (generatePerlinNoise shuffle st x y z seed').1 = Some e) ∧
       (∀ e, simplex st = Some e →
             simplex (generateSimplexNoise shuffle st x y seed').1 = Some e)).
Proof.
  intros Hperm seed base.
  assert (Hlen : length base = 256%nat) by by apply base_length.
  split; [|split; [|split; [|split]]].
  - split; [done|]. split.
    + unfold base. rewrite (Hperm seed (iota 256)). apply NoDup_iota.
    + intros v. unfold base. rewrite (Hperm seed (iota 256)).
      apply (elem_of_iota 256).
  - done.
  - unfold PerlinNoise.new. simpl. rewrite length_app. fold base. lia.
  - destruct (simplex_new shuffle Hperm seed) as (e & He & Hperm_e).
    exists e. split; [done|]. fold base in Hperm_e. split.
    + by rewrite Hperm_e, length_fmap, iota_length.
    + intros i Hi.
      assert (Hland : 0 ≤ Z.land i 255 < 256).
      { change 255 with (Z.ones 8). rewrite Z.land_ones by lia.
        apply Z.mod_pos_bound. lia. }
      destruct (at_in_range base (Z.land i 255)) as [a Ha]; [lia|].
      rewrite Ha. apply at_lookup. split; [lia|].
      rewrite Hperm_e, list_lookup_fmap.
      assert (iota 512 !! Z.to_nat i = Some i) as ->.
      { unfold iota. rewrite list_lookup_fmap, lookup_seq_lt by lia.
        simpl. f_equal. lia. }
      simpl. apply at_lookup in Ha as [_ ->]. done.
  - intros st x y z seed'. split.
    + intros e He. unfold generatePerlinNoise. by rewrite He.
    + intros e He. unfold generateSimplexNoise. by rewrite He.
Qed.

Lemma permutation_table_valid_witness :
  (∀ seed l, Ref.shuffle seed l ≡ₚ l) ∧
  length (PerlinNoise.p (PerlinNoise.new Ref.shuffle 0)) = 512%nat.
Proof.
  split; [exact RefFacts.shuffle_perm|].
  exact (proj1 (proj2 (proj2
           (permutation_table_valid Ref.shuffle RefFacts.shuffle_perm 0)))).
Defined.

(** C1, at an input where it fails: on the table GNU libstdc++ builds for
    seed 0 the Perlin value at (182.5, 61.5, 14.3125) is above 1, and on
    the table of [Ref.shuffle] for seed 0 the value at
    (102.5, 122.5, 152.6875) is below 0. *)
Theorem perlin_noise_leaves_unit_interval :
  (∃ v : float,
     PerlinNoise.noise {| PerlinNoise.p := libstdcxx_seed0 ++ libstdcxx_seed0 |}
       182.5%float 61.5%float 14.3125%float = Ok v ∧
     (1 <? v)%float = true) ∧
  (∃ v : float,
     PerlinNoise.noise (PerlinNoise.new Ref.shuffle 0)
       102.5%float 122.5%float 152.6875%float = Ok v ∧
     (v <? 0)%float = true).
Proof.
  split; eexists; (split; [vm_compute; reflexivity | vm_compute; reflexivity]).
Qed.

(** C3, at an input where it fails: a call repeated with the same
    arguments returns the same value, but once an engine is in the
    static, the seed of a call is not read; after a first call with seed
    1, a call with seed 2 returns the value of the engine of seed 1,
    which is not that of a fresh engine of seed 2. *)
Theorem standalone_noise_keeps_first_seed :
  (∀ (shuffle : Z → list Z → list Z) st (x y z : float) seed,
     (generatePerlinNoise shuffle
        (generatePerlinNoise shuffle st x y z seed).1 x y z seed).2
     = (generatePerlinNoise shuffle st x y z seed).2) ∧
  (∀ (shuffle : Z → list Z → list Z) e s (x y z : float) seed,
     (generatePerlinNoise shuffle {| perlin := Some e; simplex := s |}
        x y z seed).2 = PerlinNoise.noise e x y z) ∧
  (∀ (shuffle : Z → list Z → list Z) e s (x y : float) seed,
     (generateSimplexNoise shuffle {| perlin := s; simplex := Some e |}
        x y seed).2 = SimplexNoise.noise2D e x y) ∧
  (let first := generatePerlinNoise Ref.shuffle process_start
                  0.5%float 0.5%float 0.5%float 1 in
   let second := generatePerlinNoise Ref.shuffle first.1
                   0.5%float 0.5%float 0.5%float 2 in
   second.2 = Ok 0.5625%float ∧
   PerlinNoise.noise (PerlinNoise.new Ref.shuffle 2)
     0.5%float 0.5%float 0.5%float = Ok 0.3125%float) ∧
  (let first := generateSimplexNoise Ref.shuffle process_start 0.5%float 0.25%float 1 in
   let second := generateSimplexNoise Ref.shuffle first.1
                   0.5%float 0.25%float 2 in
   ∃ a b : float,
     second.2 = Ok a ∧
     (SimplexNoise.new Ref.shuffle 2 ≫= λ e,
        SimplexNoise.noise2D e 0.5%float 0.25%float) = Ok b ∧
     (a <? b)%float = true).
Proof.
  split; [done|]. split; [done|]. split; [done|]. split.
  - split; vm_compute; reflexivity.
  - do 2 eexists. split; [|split]; vm_compute; reflexivity.
Qed.

(** With no iteration the loop leaves [total] and [maxValue] at 0. *)
Lemma fbm_no_octaves {F : Type} `{Arith F} (noise2D : F → F → result F)
    (x y : F) (octaves : Z) (persistence lacunarity : F) :
  octaves ≤ 0 →
  octaves_loop noise2D (Z.to_nat octaves) x y persistence lacunarity
    (#0)%F (#1)%F (#1)%F (#0)%F = Ok ((#0)%F, (#0)%F) ∧
  fbm noise2D x y octaves persistence lacunarity = Ok (#0 / #0)%F.
Proof.
  intros Hoct. unfold fbm.
  replace (Z.to_nat octaves) with 0%nat by lia. done.
Qed.

(** C6: with [octaves <= 0] both compositors run no iteration, leave
    [total] and [maxValue] at 0 and return their quotient, a NaN in
    binary64; nothing is rejected. *)
Theorem fbm_without_octaves_is_nan (shuffle : Z → list Z → list Z) :
  (∀ seed l, shuffle seed l ≡ₚ l) →
  ∀ (x y : float) (octaves : Z) (persistence lacunarity : float) (seed : Z),
    octaves ≤ 0 →
    (∀ noise2D : float → float → result float,
       octaves_loop noise2D (Z.to_nat octaves) x y persistence lacunarity
         0%float 1%float 1%float 0%float = Ok (0%float, 0%float)) ∧
    generatePerlinFBM shuffle x y octaves persistence lacunarity seed
      = Ok (0 / 0)%float ∧
    generateSimplexFBM shuffle x y octaves persistence lacunarity seed
      = Ok (0 / 0)%float ∧
    (0 / 0)%float = nan.
Proof.
  intros Hperm x y octaves persistence lacunarity seed Hoct.
  split; [|split; [|split]].
  - intros noise2D.
    exact (proj1 (fbm_no_octaves noise2D x y octaves persistence lacunarity
                    Hoct)).
  - unfold generatePerlinFBM.
    exact (proj2 (fbm_no_octaves _ x y octaves persistence lacunarity Hoct)).
  - unfold generateSimplexFBM.
    destruct (simplex_new shuffle Hperm seed) as (e & -> & _).
    rewrite bind_Ok.
    exact (proj2 (fbm_no_octaves _ x y octaves persistence lacunarity Hoct)).
  - reflexivity.
Qed.

Lemma fbm_without_octaves_is_nan_witness :
  (∀ seed l, Ref.shuffle seed l ≡ₚ l) ∧ -3 ≤ 0 ∧
  generatePerlinFBM Ref.shuffle 0.5%float 0.25%float (-3) 0.5%float 2%float 7
    = Ok (0 / 0)%float.
Proof.
  split; [exact RefFacts.shuffle_perm|]. split; [lia|].
  exact (proj1 (proj2
    (fbm_without_octaves_is_nan Ref.shuffle RefFacts.shuffle_perm
       0.5%float 0.25%float (-3) 0.5%float 2%float 7 ltac:(lia)))).
Defined.

(** ** The claims on diamond-square *)

(** C4, as the code has it: no size is validated; every size from 1 on,
    of the form [2^n + 1] or not, is accepted, and [generate] returns a
    grid of that many rows and columns (allocation is not modelled: the
    vectors of the model have no capacity limit). *)
Theorem diamond_square_accepts_every_size
    {D : Type} `{Arith D} {F : Type} `{Arith F} {RNG : Type}
    (mt19937 : Z → RNG) (dist : RNG → F * RNG)
    (widen : F → D) (narrow : D → F) (pow : D → D → D)
    (n : Z) (roughness : F) (seed : Z) (wrap : bool) :
  1 ≤ n →
  ∃ grid,
    DS.generateDiamondSquareNoise mt19937 dist widen narrow pow
      n roughness seed wrap
      = Ok grid ∧
    length grid = Z.to_nat n ∧
    Forall (λ row, length row = Z.to_nat n) grid.
Proof. apply generateDiamondSquareNoise_total. Qed.

Lemma diamond_square_accepts_every_size_witness :
  1 ≤ 10 ∧
  ∃ grid,
    DS.generateDiamondSquareNoise (F:=spec_float) Ref.engine Ref.uniform
      id id Ref.pow 10 (#1)%F 0 false = Ok grid ∧
    length grid = 10%nat ∧
    Forall (λ row, length row = 10%nat) grid.
Proof.
  split; [lia|].
  exact (diamond_square_accepts_every_size (F:=spec_float) Ref.engine
           Ref.uniform id id Ref.pow 10 (#1)%F 0 false ltac:(lia)).
Defined.

(** C4 as stated fails: 10 is not of the form [2^n + 1], and the call
    with size 10 returns a grid, not an error. *)
Lemma size_10_is_not_rejected :
  ¬ (∀ (n : Z) (roughness : spec_float) (seed : Z) (wrap : bool),
       ¬ valid_size n →
       ∃ e, DS.generateDiamondSquareNoise (F:=spec_float) Ref.engine
              Ref.uniform id id Ref.pow n roughness seed wrap = Err e).
Proof.
  intros Hclaim.
  destruct (Hclaim 10 (#1)%F 0 false) as [e He].
  - intros (k & Hk & Heq).
    assert (k < 4).
    { destruct (Z.lt_ge_cases k 4) as [|Hge]; [done|].
      pose proof (Z.pow_le_mono_r 2 4 k ltac:(lia) Hge). lia. }
    assert (k = 1 ∨ k = 2 ∨ k = 3) as [-> | [-> | ->]] by lia; discriminate.
  - destruct (generateDiamondSquareNoise_total (F:=spec_float) Ref.engine
                Ref.uniform id id Ref.pow 10 (#1)%F 0 false) as (grid & Hgrid & _);
      [lia|].
    congruence.
Qed.

(** C9: a diamond step reads its four corners without wrapping; a corner
    outside the grid counts as height 0, the sum is always divided by 4,
    and the step does not fail.  [diamondStep] has no [wrap] parameter:
    in a round, the flag of [generate] reaches the square steps only. *)
Theorem diamond_step_reads_zero_outside
    {D : Type} `{Arith D} {F : Type} `{Arith F} {RNG : Type}
    (dist : RNG → F * RNG)
    (widen : F → D) (narrow : D → F) (pow : D → D → D) (d : @DS.t F RNG)
    (x y stepSize : Z) (randomRange roughness : F) :
  DS.wf d →
  let read i j := if DS.inside d i j then DS.cell d i j else (#0)%F in
  (∀ i j, DS.getHeight d i j false = Ok (read i j)) ∧
  (let a := read (x - stepSize) (y - stepSize) in
   let b := read (x + stepSize) (y - stepSize) in
   let c := read (x - stepSize) (y + stepSize) in
   let e := read (x + stepSize) (y + stepSize) in
   let r := (DS.draw dist d).1 in
   DS.diamondStep dist d x y stepSize randomRange
   = DS.setHeight (DS.draw dist d).2 x y
       ((a + b + c + e) / #4 + (r * randomRange * #2 - randomRange))%F) ∧
  (∃ d', DS.diamondStep dist d x y stepSize randomRange = Ok d') ∧
  (∀ wrap,
     DS.round dist widen narrow pow roughness wrap stepSize (d, randomRange)
     = (d1 ← DS.diamonds dist (Z.quot stepSize 2) stepSize randomRange d;
        d2 ← DS.squares dist (Z.quot stepSize 2) stepSize randomRange wrap d1;
        mret (d2, narrow (widen randomRange
                          * pow (widen #2) (widen (- roughness)))%F))).
Proof.
  intros Hwf read. split; [|split; [|split]].
  - intros i j. by apply getHeight_no_wrap.
  - unfold DS.diamondStep. rewrite !getHeight_no_wrap by done.
    rewrite !bind_Ok. by destruct (DS.draw dist d).
  - destruct (diamondStep_keeps dist (DS.size d) d x y stepSize randomRange)
      as (d' & Hd' & _); [done|]. by exists d'.
  - done.
Qed.

Lemma diamond_step_reads_zero_outside_witness :
  DS.wf (fresh 3) ∧
  DS.getHeight (fresh 3) (-1) 3 false = Ok (#0)%F.
Proof.
  assert (Hwf : DS.wf (fresh 3)).
  { split; [done|]. split; [done|]. by repeat constructor. }
  split; [exact Hwf|].
  exact (proj1 (diamond_step_reads_zero_outside Ref.uniform id id Ref.pow (fresh 3)
                  1 1 1 (#1)%F (#1)%F Hwf) (-1) 3).
Defined.

(** C10: in every square step [generate] reaches, one of the four guards
    holds, so [count] is at least 1 when the sum is divided by it.  This
    holds for every size, those of the form [2^n + 1] among them. *)
Theorem square_step_count_positive {F : Type} `{Arith F} {RNG : Type}
    (d : @DS.t F RNG) (wrap : bool) (stepSize y x0 x : Z) :
  DS.wf d →
  stepSize ∈ DS.stepSizes (DS.size d) →
  y ∈ loop_range 0 (DS.size d) (Z.quot stepSize 2) →
  rem_ (y + Z.quot stepSize 2) stepSize = Ok x0 →
  x ∈ loop_range x0 (DS.size d) stepSize →
  ∃ sum count,
    DS.neighbours d x y (Z.quot stepSize 2) wrap = Ok (sum, count) ∧
    1 ≤ count.
Proof.
  intros Hwf Hstep%stepSizes_bounds Hy _ _.
  assert (Hhalf : 0 < Z.quot stepSize 2 ∧ 2 * Z.quot stepSize 2 ≤ stepSize).
  { rewrite Z.quot_div_nonneg by lia.
    pose proof (Z.div_mod stepSize 2 ltac:(lia)).
    pose proof (Z.mod_pos_bound stepSize 2 ltac:(lia)).
    assert (1 ≤ stepSize / 2) by (apply Z.div_le_lower_bound; lia). lia. }
  apply loop_range_bounds in Hy; [|lia].
  destruct (neighbours_total d x y (Z.quot stepSize 2) wrap) as [sum Hsum];
    [done | lia |].
  exists sum, (DS.count_of (DS.size d) x y (Z.quot stepSize 2) wrap).
  split; [done|]. apply count_of_positive; lia.
Qed.

Lemma square_step_count_positive_witness :
  ∃ sum count,
    DS.neighbours (fresh 5) 2 0 2 false = Ok (sum, count) ∧ 1 ≤ count.
Proof.
  refine (square_step_count_positive (fresh 5) false 4 0 2 2 _ _ _ _ _).
  - split; [done|]. split; [done|]. by repeat constructor.
  - by left.
  - by left.
  - done.
  - by left.
Defined.

(** With [wrap] set, every square step on a grid that is not empty reads
    its four neighbours: [count] is 4. *)
Theorem square_step_wrap_reads_four {F : Type} `{Arith F} {RNG : Type}
    (d : @DS.t F RNG) (x y stepSize : Z) :
  DS.wf d → DS.size d ≠ 0 →
  ∃ sum, DS.neighbours d x y stepSize true = Ok (sum, 4).
Proof.
  intros Hwf Hsize.
  by destruct (neighbours_total d x y stepSize true Hwf) as [sum Hsum];
    [|exists sum].
Qed.

Lemma square_step_wrap_reads_four_witness :
  ∃ sum, DS.neighbours (fresh 5) 0 2 2 true = Ok (sum, 4).
Proof.
  refine (square_step_wrap_reads_four (fresh 5) 0 2 2 _ _).
  - split; [done|]. split; [done|]. by repeat constructor.
  - done.
Defined.

(** ** IEEE arithmetic: rounding keeps the order

    [SpecFloat]'s operations, traced through [binary_round_aux]: each
    returns the float its exact result rounds to ([rounds_to]),
    rounding is monotone, and a number of the format rounds to itself.
    The order of computed sums, differences, products and quotients
    follows.  Nothing here depends on the precision or on the range of
    the exponent beyond [0 < prec < emax]. *)

Lemma pow2_pos (e : Z) : (0 < pow2 e)%Q.
Proof. apply Qpower_0_lt. reflexivity. Qed.

Lemma pow2_add (a b : Z) : (pow2 (a + b) == pow2 a * pow2 b)%Q.
Proof. apply Qpower_plus. discriminate. Qed.

Lemma pow2_Z (k : Z) : 0 ≤ k → (pow2 k == inject_Z (2 ^ k))%Q.
Proof. intros Hk. unfold pow2. by rewrite Zpower_Qpower. Qed.

Lemma pow2_le (a b : Z) : a ≤ b → (pow2 a <= pow2 b)%Q.
Proof. intros Hab. apply Qpower_le_compat_l; [done|]. discriminate. Qed.

Lemma pow2_lt (a b : Z) : a < b → (pow2 a < pow2 b)%Q.
Proof. intros Hab. apply Qpower_lt_compat_l; [done|]. reflexivity. Qed.

Lemma pow2_succ (e : Z) : (pow2 (e + 1) == 2 * pow2 e)%Q.
Proof. rewrite pow2_add. change (pow2 1) with 2%Q. lra. Qed.

Lemma pow2_0 : pow2 0 = 1%Q.
Proof. reflexivity. Qed.

Lemma pow2_sub (a b : Z) : (pow2 (a - b) == pow2 a / pow2 b)%Q.
Proof.
  pose proof (pow2_pos b). pose proof (pow2_add (a - b) b) as Hadd.
  replace (a - b + b) with a in Hadd by lia.
  rewrite Hadd. field. lra.
Qed.

Lemma inject_Z_lt (a b : Z) : (inject_Z a < inject_Z b)%Q ↔ a < b.
Proof. by rewrite <- Zlt_Qlt. Qed.

Lemma inject_Z_le (a b : Z) : (inject_Z a <= inject_Z b)%Q ↔ a ≤ b.
Proof. by rewrite <- Zle_Qle. Qed.

Lemma Zle_of_Q (a b : Z) : (inject_Z a <= inject_Z b)%Q → a ≤ b.
Proof. apply inject_Z_le. Qed.

Lemma Qle_of_Z (a b : Z) : a ≤ b → (inject_Z a <= inject_Z b)%Q.
Proof. apply inject_Z_le. Qed.

Lemma Zlt_of_Q (a b : Z) : (inject_Z a < inject_Z b)%Q → a < b.
Proof. apply inject_Z_lt. Qed.

Lemma Qlt_of_Z (a b : Z) : a < b → (inject_Z a < inject_Z b)%Q.
Proof. apply inject_Z_lt. Qed.

Lemma digits2_pos_size (p : positive) : digits2_pos p = Pos.size p.
Proof. induction p; simpl; congruence. Qed.

Lemma iter_pos_nat {A} (f : A -> A) (p : positive) (x : A) :
  SpecFloat.iter_pos f p x = Nat.iter (Pos.to_nat p) f x.
Proof.
  revert x. induction p as [p IH|p IH|]; intros x; cbn [SpecFloat.iter_pos].
  - rewrite !IH, Pos2Nat.inj_xI.
    change (Nat.iter (S (2 * Pos.to_nat p)) f x)
      with (f (Nat.iter (2 * Pos.to_nat p) f x)).
    rewrite <- Nat.iter_add, <- Nat.iter_succ_r. simpl. do 2 f_equal. lia.
  - rewrite !IH, Pos2Nat.inj_xO. rewrite <- Nat.iter_add. f_equal. lia.
  - reflexivity.
Qed.

(** ** Digits *)

Lemma digits_bounds (m : positive) :
  2 ^ (Zpos (digits2_pos m) - 1) ≤ Zpos m < 2 ^ Zpos (digits2_pos m).
Proof.
  rewrite digits2_pos_size.
  pose proof (Pos.size_gt m) as Hgt. pose proof (Pos.size_le m) as Hle.
  apply Pos2Z.pos_lt_pos in Hgt. apply Pos2Z.pos_le_pos in Hle.
  rewrite Pos2Z.inj_pow in Hgt, Hle. change (Zpos m~0) with (2 * Zpos m) in Hle.
  split; [|done].
  replace (Zpos (Pos.size m)) with (Zpos (Pos.size m) - 1 + 1) in Hle by lia.
  rewrite Z.pow_add_r, Z.pow_1_r in Hle by lia. lia.
Qed.

Lemma digits_unique (m : positive) (d : Z) :
  2 ^ (d - 1) ≤ Zpos m < 2 ^ d → Zpos (digits2_pos m) = d.
Proof.
  intros [Hlo Hhi]. pose proof (digits_bounds m) as [Hlo' Hhi'].
  assert (0 < d).
  { destruct (Z.lt_ge_cases 0 d); [done|].
    destruct (Z.eq_dec d 0) as [->|]; [simpl in Hhi; lia|].
    rewrite Z.pow_neg_r in Hhi by lia. lia. }
  assert (Zpos (digits2_pos m) - 1 < d).
  { apply (Z.pow_lt_mono_r_iff 2); lia. }
  assert (d - 1 < Zpos (digits2_pos m)).
  { apply (Z.pow_lt_mono_r_iff 2); lia. }
  lia.
Qed.

Lemma Zdigits2_nonneg (m : Z) : 0 ≤ Zdigits2 m.
Proof. destruct m; simpl; lia. Qed.

(** [m < 2 ^ Zdigits2 m], and [2 ^ (Zdigits2 m - 1) <= m] for [m > 0]. *)
Lemma Zdigits2_upper (m : Z) : 0 ≤ m → m < 2 ^ Zdigits2 m.
Proof.
  intros Hm. destruct m as [|p|p]; [simpl; lia | | lia].
  apply digits_bounds.
Qed.

Lemma Zdigits2_lower (m : Z) : 0 < m → 2 ^ (Zdigits2 m - 1) ≤ m.
Proof.
  intros Hm. destruct m as [|p|p]; [lia | | lia].
  apply digits_bounds.
Qed.

(** ** Positions between two integers *)

Lemma inb_range (m : Z) (l : location) (y : Q) :
  inb m l y → (inject_Z m <= y)%Q ∧ (y < inject_Z m + 1)%Q.
Proof. unfold one_half. destruct l as [|[]]; simpl; unfold one_half; lra. Qed.

Lemma inject_Z_xO (p : positive) :
  (inject_Z (Zpos p~0) == 2 * inject_Z (Zpos p))%Q.
Proof. rewrite Pos2Z.inj_xO, inject_Z_mult. reflexivity. Qed.

Lemma inject_Z_xI (p : positive) :
  (inject_Z (Zpos p~1) == 2 * inject_Z (Zpos p) + 1)%Q.
Proof. rewrite Pos2Z.inj_xI, inject_Z_plus, inject_Z_mult. reflexivity. Qed.

(** One shift to the right halves the number and keeps its place. *)
Lemma shr_1_inb (mrs : shr_record) (y : Q) :
  0 ≤ shr_m mrs → inb (shr_m mrs) (loc_of_shr_record mrs) y →
  0 ≤ shr_m (shr_1 mrs) ∧
  inb (shr_m (shr_1 mrs)) (loc_of_shr_record (shr_1 mrs)) (y / 2).
Proof.
  destruct mrs as [m r s]. simpl. intros Hm Hy.
  assert (Hz : (y == 2 * (y / 2))%Q) by field.
  set (z := (y / 2)%Q) in *. clearbody z.
  destruct m as [|[p|p|]|]; [| | | |lia]; (split; [simpl; lia|]).
  - destruct r, s; simpl in *; unfold one_half in *;
      change (inject_Z 0) with 0%Q in *; lra.
  - pose proof (inject_Z_xI p) as Hp.
    destruct r, s; simpl in *; unfold one_half in *;
      set (q := inject_Z (Zpos p~1)) in *; set (q' := inject_Z (Zpos p)) in *;
      clearbody q q'; lra.
  - pose proof (inject_Z_xO p) as Hp.
    destruct r, s; simpl in *; unfold one_half in *;
      set (q := inject_Z (Zpos p~0)) in *; set (q' := inject_Z (Zpos p)) in *;
      clearbody q q'; lra.
  - destruct r, s; simpl in *; unfold one_half in *;
      change (inject_Z 0) with 0%Q in *; change (inject_Z 1) with 1%Q in *;
      lra.
Qed.

Lemma inb_eq (m : Z) (l : location) (y y' : Q) :
  (y == y')%Q → inb m l y → inb m l y'.
Proof. intros Heq. destruct l as [|[]]; simpl; rewrite Heq; done. Qed.

Lemma shr_iter_inb (k : nat) (mrs : shr_record) (y : Q) :
  0 ≤ shr_m mrs → inb (shr_m mrs) (loc_of_shr_record mrs) y →
  0 ≤ shr_m (Nat.iter k shr_1 mrs) ∧
  inb (shr_m (Nat.iter k shr_1 mrs))
      (loc_of_shr_record (Nat.iter k shr_1 mrs)) (y / pow2 (Z.of_nat k)).
Proof.
  intros Hm Hy. induction k as [|k [IHm IHy]].
  - split; [done|]. apply (inb_eq _ _ y); [|done].
    change (pow2 (Z.of_nat 0)) with 1%Q. field.
  - cbn [Nat.iter]. destruct (shr_1_inb _ _ IHm IHy) as [Hm' Hy'].
    split; [done|]. eapply inb_eq; [|exact Hy'].
    rewrite Nat2Z.inj_succ. unfold Z.succ. rewrite pow2_succ.
    pose proof (pow2_pos (Z.of_nat k)). field. lra.
Qed.

Lemma record_of_loc_m (m : Z) (l : location) :
  shr_m (shr_record_of_loc m l) = m.
Proof. by destruct l as [|[]]. Qed.

Lemma record_of_loc_loc (m : Z) (l : location) :
  loc_of_shr_record (shr_record_of_loc m l) = l.
Proof. by destruct l as [|[]]. Qed.

(** [shr] by [k >= 0] places. *)
Lemma shr_inb (m : Z) (l : location) (y : Q) (e k : Z) :
  0 ≤ m → inb m l y → 0 ≤ k →
  ∃ mrs, shr (shr_record_of_loc m l) e k = (mrs, e + k) ∧
         0 ≤ shr_m mrs ∧
         inb (shr_m mrs) (loc_of_shr_record mrs) (y / pow2 k).
Proof.
  intros Hm Hy Hk.
  assert (Hm0 : 0 ≤ shr_m (shr_record_of_loc m l))
    by by rewrite record_of_loc_m.
  assert (Hy0 : inb (shr_m (shr_record_of_loc m l))
                    (loc_of_shr_record (shr_record_of_loc m l)) y).
  { by rewrite record_of_loc_m, record_of_loc_loc. }
  destruct k as [|p|p]; [| |lia].
  - exists (shr_record_of_loc m l). rewrite Z.add_0_r. split; [done|].
    split; [done|]. exact (proj2 (shr_iter_inb 0 _ y Hm0 Hy0)).
  - exists (Nat.iter (Pos.to_nat p) shr_1 (shr_record_of_loc m l)).
    unfold shr. rewrite iter_pos_nat. split; [done|].
    rewrite <- (positive_nat_Z p).
    by apply shr_iter_inb.
Qed.

(** ** Rounding to the nearest integer, ties to even *)

Lemma rne_bounds (m : Z) (l : location) :
  m ≤ round_nearest_even m l ≤ m + 1.
Proof. destruct l as [|[]]; simpl; try destruct (Z.even m); lia. Qed.

Lemma rne_mono (m1 m2 : Z) (l1 l2 : location) (y1 y2 : Q) :
  inb m1 l1 y1 → inb m2 l2 y2 → (y1 <= y2)%Q →
  round_nearest_even m1 l1 ≤ round_nearest_even m2 l2.
Proof.
  intros H1 H2 Hle.
  pose proof (rne_bounds m1 l1). pose proof (rne_bounds m2 l2).
  destruct (Z.lt_trichotomy m1 m2) as [Hlt|[->|Hgt]]; [lia| |].
  - destruct l1 as [|[]], l2 as [|[]]; simpl in *; unfold one_half in *;
      try destruct (Z.even m2); try lia; exfalso; lra.
  - exfalso. apply inb_range in H1, H2.
    assert (inject_Z (m2 + 1) <= inject_Z m1)%Q by (apply Qle_of_Z; lia).
    rewrite inject_Z_plus in *. change (inject_Z 1) with 1%Q in *. lra.
Qed.

Lemma inb_integer (m : Z) (l : location) (n : Z) :
  inb m l (inject_Z n) → m = n ∧ l = loc_Exact.
Proof.
  intros H. pose proof (inb_range _ _ _ H) as [Hlo Hhi].
  assert (m = n) as ->.
  { apply Zle_of_Q in Hlo.
    assert (inject_Z n < inject_Z (m + 1))%Q as Hlt.
    { rewrite inject_Z_plus. exact Hhi. }
    apply Zlt_of_Q in Hlt. lia. }
  split; [done|].
  destruct l as [|[]]; simpl in H; unfold one_half in H; [done|exfalso; lra..].
Qed.

Lemma Qdiv_le_r (a b c : Q) : (0 < c)%Q → (a <= b)%Q → (a / c <= b / c)%Q.
Proof.
  intros Hc Hab. unfold Qdiv. apply Qmult_le_compat_r; [done|].
  apply Qlt_le_weak, Qinv_lt_0_compat, Hc.
Qed.

Lemma Qdiv_lt_r (a b c : Q) : (0 < c)%Q → (a < b)%Q → (a / c < b / c)%Q.
Proof.
  intros Hc Hab. unfold Qdiv. apply Qmult_lt_compat_r; [|done].
  apply Qinv_lt_0_compat, Hc.
Qed.

Lemma Qmul_div_cancel (a c : Q) : (0 < c)%Q → (a / c * c == a)%Q.
Proof. intros Hc. field. lra. Qed.

Lemma mant_pos (m : positive) (e : Z) : (0 < inject_Z (Zpos m) * pow2 e)%Q.
Proof.
  apply Qmult_lt_0_compat; [|apply pow2_pos].
  change 0%Q with (inject_Z 0). by apply Qlt_of_Z.
Qed.

Lemma Qcompare_Lt (a b : Q) : (a < b)%Q → (a ?= b)%Q = Lt.
Proof. apply Qlt_alt. Qed.

Lemma Qcompare_Gt (a b : Q) : (b < a)%Q → (a ?= b)%Q = Gt.
Proof. apply Qgt_alt. Qed.

Lemma Qcompare_Eq (a b : Q) : (a == b)%Q → (a ?= b)%Q = Eq.
Proof. apply Qeq_alt. Qed.

Lemma pos_iter_xO (p d : positive) :
  Zpos (Pos.iter xO p d) = Zpos p * 2 ^ Zpos d.
Proof.
  induction d as [|d IH] using Pos.peano_ind.
  - simpl. lia.
  - rewrite Pos.iter_succ, Pos2Z.inj_xO, IH, Pos2Z.inj_succ, Z.pow_succ_r
      by lia.
    lia.
Qed.

Lemma digits_shift (p : positive) (k : Z) (q : positive) :
  0 ≤ k → Zpos q = Zpos p * 2 ^ k →
  Zpos (digits2_pos q) = Zpos (digits2_pos p) + k.
Proof.
  intros Hk Hq. apply digits_unique. rewrite Hq.
  pose proof (digits_bounds p) as [Hlo Hhi].
  pose proof (Z.pow_pos_nonneg 2 k ltac:(lia) Hk).
  replace (Zpos (digits2_pos p) + k - 1) with (Zpos (digits2_pos p) - 1 + k)
    by lia.
  rewrite !Z.pow_add_r by lia. nia.
Qed.

Lemma shl_align_spec (mx : positive) (ex ex' : Z) :
  let r := shl_align mx ex ex' in
  r.2 = Z.min ex ex' ∧ Zpos r.1 = Zpos mx * 2 ^ (ex - r.2).
Proof.
  unfold shl_align. destruct (ex' - ex) as [|d|d] eqn:Hd; simpl.
  - split; [lia|]. rewrite Z.sub_diag. simpl. lia.
  - split; [lia|]. rewrite Z.sub_diag. simpl. lia.
  - split; [lia|]. rewrite pos_iter_xO. f_equal. f_equal. lia.
Qed.

Lemma shl_align_val (mx : positive) (ex ex' : Z) :
  let r := shl_align mx ex ex' in
  (inject_Z (Zpos r.1) * pow2 r.2 == inject_Z (Zpos mx) * pow2 ex)%Q.
Proof.
  intros r. destruct (shl_align_spec mx ex ex') as [He Hm]. fold r in He, Hm.
  assert (Hp : (pow2 ex == pow2 (ex - r.2) * pow2 r.2)%Q).
  { rewrite <- pow2_add. by replace (ex - r.2 + r.2) with ex by lia. }
  rewrite Hm, inject_Z_mult, <- pow2_Z, Hp by lia. ring.
Qed.

Section Rounding.
Variables prec emax : Z.
Hypothesis Hprec : 0 < prec.
Hypothesis Hemax : prec < emax.

Local Abbreviation emin := (SpecFloat.emin prec emax).
Local Abbreviation fexp := (SpecFloat.fexp prec emax).
Local Abbreviation rnd := (rnd prec emax).
Local Abbreviation outcome := (outcome prec emax).
Local Abbreviation fin_float := (fin_float prec emax).
Local Abbreviation nonneg_float := (nonneg_float prec emax).
Local Abbreviation rounds_to := (rounds_to prec emax).

Lemma fexp_ge_emin (z : Z) : emin ≤ fexp z.
Proof. unfold SpecFloat.fexp. lia. Qed.

Lemma fexp_mono (a b : Z) : a ≤ b → fexp a ≤ fexp b.
Proof. unfold SpecFloat.fexp. lia. Qed.

Lemma scaled_low (m e : Z) :
  2 ^ (prec - 1) ≤ m → (pow2 (prec - 1 + e) <= inject_Z m * pow2 e)%Q.
Proof.
  intros Hm. rewrite pow2_add. apply Qmult_le_compat_r.
  - rewrite pow2_Z by lia. by apply Qle_of_Z.
  - apply Qlt_le_weak, pow2_pos.
Qed.

Lemma scaled_high (m e : Z) :
  m < 2 ^ prec → ((inject_Z m + 1) * pow2 e <= pow2 (prec + e))%Q.
Proof.
  intros Hm. rewrite pow2_add. apply Qmult_le_compat_r.
  - rewrite pow2_Z by lia. change 1%Q with (inject_Z 1).
    rewrite <- inject_Z_plus. apply Qle_of_Z. lia.
  - apply Qlt_le_weak, pow2_pos.
Qed.

Lemma scaled_le (n e : Z) :
  n ≤ 2 ^ prec → (inject_Z n * pow2 e <= pow2 (prec + e))%Q.
Proof.
  intros Hn. rewrite pow2_add. apply Qmult_le_compat_r.
  - rewrite pow2_Z by lia. by apply Qle_of_Z.
  - apply Qlt_le_weak, pow2_pos.
Qed.

Lemma inb_scaled (m : Z) (l : location) (x : Q) (e : Z) :
  inb m l (x / pow2 e) →
  (inject_Z m * pow2 e <= x)%Q ∧ (x < (inject_Z m + 1) * pow2 e)%Q.
Proof.
  intros [Hlo Hhi]%inb_range. pose proof (pow2_pos e) as Hp.
  pose proof (Qmul_div_cancel x (pow2 e) Hp) as Hx.
  split.
  - rewrite <- Hx. apply Qmult_le_compat_r; [done | lra].
  - rewrite <- Hx at 1. apply Qmult_lt_compat_r; done.
Qed.

Lemma rnd_nonneg (x v : Q) : rnd x v → (0 <= x)%Q ∧ (0 <= v)%Q.
Proof.
  intros (e & m & l & He & Hin & [Hm0 Hm] & Hnorm & ->).
  pose proof (pow2_pos e) as Hp. apply inb_scaled in Hin as [Hlo _].
  pose proof (rne_bounds m l) as [Hn _].
  assert (0 <= inject_Z m)%Q
    by (change 0%Q with (inject_Z 0); by apply Qle_of_Z).
  assert (0 <= inject_Z (round_nearest_even m l))%Q
    by (change 0%Q with (inject_Z 0); apply Qle_of_Z; lia).
  split; [|nra]. nra.
Qed.

(** Rounding is monotone. *)
Lemma rnd_mono (x1 x2 v1 v2 : Q) :
  rnd x1 v1 → rnd x2 v2 → (x1 <= x2)%Q → (v1 <= v2)%Q.
Proof.
  intros (e1 & m1 & l1 & He1 & Hin1 & [Hm10 Hm1] & Hnorm1 & ->)
         (e2 & m2 & l2 & He2 & Hin2 & [Hm20 Hm2] & Hnorm2 & ->) Hle.
  pose proof (pow2_pos e1) as Hp1. pose proof (pow2_pos e2) as Hp2.
  pose proof (rne_bounds m1 l1) as [Hn1 Hn1'].
  pose proof (rne_bounds m2 l2) as [Hn2 Hn2'].
  destruct (Z.lt_trichotomy e1 e2) as [Hlt|[->|Hgt]].
  - specialize (Hnorm2 ltac:(lia)).
    apply (Qle_trans _ (pow2 (prec + e1))).
    { apply scaled_le. lia. }
    apply (Qle_trans _ (pow2 (prec - 1 + e2))); [apply pow2_le; lia|].
    apply scaled_low. lia.
  - apply Qmult_le_compat_r; [|lra]. apply Qle_of_Z.
    apply (rne_mono _ _ _ _ _ _ Hin1 Hin2). by apply Qdiv_le_r.
  - exfalso. specialize (Hnorm1 ltac:(lia)).
    apply inb_scaled in Hin1 as [Hlo1 _]. apply inb_scaled in Hin2 as [_ Hhi2].
    pose proof (scaled_low m1 e1 Hnorm1). pose proof (scaled_high m2 e2 Hm2).
    pose proof (pow2_le (prec + e2) (prec - 1 + e1) ltac:(lia)). lra.
Qed.

Lemma rnd_unique (x v1 v2 : Q) : rnd x v1 → rnd x v2 → (v1 == v2)%Q.
Proof.
  intros H1 H2. apply Qle_antisym; eapply rnd_mono; eauto; lra.
Qed.

Lemma rnd_eq (x x' v v' : Q) :
  (x == x')%Q → (v == v')%Q → rnd x v → rnd x' v'.
Proof.
  intros Hx Hv (e & m & l & He & Hin & Hm & Hnorm & Heq).
  exists e, m, l. split; [done|]. split.
  - eapply inb_eq; [|exact Hin]. by rewrite Hx.
  - split; [done|]. split; [done|]. by rewrite <- Hv.
Qed.

Lemma bounded_iff (p : positive) (e : Z) :
  bounded prec emax p e = true ↔
  emin ≤ e ≤ emax - prec ∧ Zpos p < 2 ^ prec ∧
  (emin < e → 2 ^ (prec - 1) ≤ Zpos p).
Proof.
  unfold bounded, canonical_mantissa.
  rewrite andb_true_iff, Z.eqb_eq, Z.leb_le. unfold SpecFloat.fexp.
  pose proof (digits_bounds p) as [Hlo Hhi].
  set (d := Zpos (digits2_pos p)) in *.
  split.
  - intros [Hc He]. split; [lia|]. split.
    + assert (d ≤ prec) by lia.
      pose proof (Z.pow_le_mono_r 2 d prec ltac:(lia) ltac:(lia)). lia.
    + intros Hmin. assert (d = prec) as <- by lia. done.
  - intros ([He1 He2] & Hp & Hnorm). split; [|done].
    assert (d ≤ prec).
    { destruct (Z.le_gt_cases d prec); [done|].
      pose proof (Z.pow_le_mono_r 2 prec (d - 1) ltac:(lia) ltac:(lia)). lia. }
    destruct (Z.eq_dec e emin) as [->|Hne]; [lia|].
    specialize (Hnorm ltac:(lia)).
    assert (prec - 1 < d) by (apply (Z.pow_lt_mono_r_iff 2); lia).
    lia.
Qed.

Lemma emin_le_emax : emin < emax - prec.
Proof. unfold SpecFloat.emin. lia. Qed.

(** What [binary_round_aux] computes, from a mantissa, an exponent and
    a place that denote [y * 2 ^ e]. *)
Lemma bra_rnd (s : bool) (m e : Z) (l : location) (y : Q) :
  0 ≤ m → inb m l y → e ≤ fexp (Zdigits2 m + e) →
  ∃ v, rnd (y * pow2 e) v ∧
       outcome (binary_round_aux prec emax s m e l) s v.
Proof.
  intros Hm Hy HP.
  set (d := Zdigits2 m) in *. set (e' := fexp (d + e)) in *.
  pose proof (fexp_ge_emin (d + e)) as Hmin. fold e' in Hmin.
  destruct (shr_inb m l y e (e' - e) Hm Hy ltac:(lia))
    as (mrs & Hshr & Hm' & Hy').
  replace (e + (e' - e)) with e' in Hshr by lia.
  set (m' := shr_m mrs) in *. set (l' := loc_of_shr_record mrs) in *.
  pose proof (pow2_pos e) as Hpe. pose proof (pow2_pos e') as Hpe'.
  pose proof (pow2_pos (e' - e)) as Hpk.
  assert (Hscale : (y * pow2 e / pow2 e' == y / pow2 (e' - e))%Q).
  { rewrite pow2_sub. field. lra. }
  pose proof (inb_range _ _ _ Hy') as [Hlo Hhi].
  pose proof (inb_range _ _ _ Hy) as [Hlo0 Hhi0].
  (* the digits of the shifted mantissa *)
  assert (Hup : m' < 2 ^ prec).
  { apply Zlt_of_Q. rewrite <- pow2_Z by lia.
    apply (Qle_lt_trans _ _ _ Hlo).
    apply (Qlt_le_trans _ (pow2 d / pow2 (e' - e))).
    - apply Qdiv_lt_r; [done|]. apply (Qlt_le_trans _ _ _ Hhi0).
      rewrite pow2_Z by apply Zdigits2_nonneg.
      change 1%Q with (inject_Z 1). rewrite <- inject_Z_plus.
      apply Qle_of_Z. pose proof (Zdigits2_upper m Hm) as Hdu. fold d in Hdu.
      lia.
    - rewrite <- pow2_sub. apply pow2_le. unfold e', SpecFloat.fexp. lia. }
  assert (Hnorm : emin < e' → 2 ^ (prec - 1) ≤ m').
  { intros He'.
    assert (e' = d + e - prec) as Heq
      by (unfold e', SpecFloat.fexp in *; lia).
    assert (0 < m).
    { destruct (Z.eq_dec m 0) as [->|]; [|lia]. simpl in d. lia. }
    pose proof (Zdigits2_lower m ltac:(lia)) as Hd. fold d in Hd.
    assert (pow2 (prec - 1) <= y / pow2 (e' - e))%Q as Hlow.
    { replace (prec - 1) with (d - 1 - (e' - e)) by lia.
      rewrite pow2_sub. apply Qdiv_le_r; [done|].
      apply (Qle_trans _ (inject_Z m)); [|done].
      rewrite pow2_Z by lia. by apply Qle_of_Z. }
    rewrite pow2_Z in Hlow by lia.
    assert (inject_Z (2 ^ (prec - 1)) < inject_Z (m' + 1))%Q as Hlt.
    { rewrite inject_Z_plus. change (inject_Z 1) with 1%Q. lra. }
    apply Zlt_of_Q in Hlt. lia. }
  set (n := round_nearest_even m' l').
  pose proof (rne_bounds m' l') as [Hn Hn']. fold n in Hn, Hn'.
  exists (inject_Z n * pow2 e')%Q. split.
  { exists e', m', l'. split; [done|]. split.
    - eapply inb_eq; [|exact Hy']. by rewrite Hscale.
    - done. }
  unfold binary_round_aux, shr_fexp at 2. fold d e'.
  change (shr_fexp prec emax m e l)
    with (shr (shr_record_of_loc m l) e (e' - e)).
  rewrite Hshr. fold m' l' n. unfold shr_fexp.
  pose proof emin_le_emax as Hee.
  destruct (Z.eq_dec n 0) as [Hn0|Hn0].
  - (* the rounded mantissa is 0 *)
    rewrite Hn0. left. split; [change (inject_Z 0) with 0%Q; lra|].
    cbn [Zdigits2]. replace (shr _ _ _) with
      ({| shr_m := 0; shr_r := false; shr_s := false |}, e'); [done|].
    unfold shr. cbn [shr_record_of_loc].
    destruct (fexp (0 + e') - e') as [|q|q] eqn:Hk; [done| |done].
    unfold SpecFloat.fexp in Hk. lia.
  - right.
    assert (Hnpos : 0 < n) by lia.
    destruct (Z.lt_ge_cases n (2 ^ prec)) as [Hlt|Hge].
    + (* no carry *)
      destruct n as [|p|p] eqn:Hnp; [lia| |lia].
      pose proof (digits_bounds p) as [Hdlo Hdhi].
      assert (Hdp : Zpos (digits2_pos p) ≤ prec).
      { destruct (Z.le_gt_cases (Zpos (digits2_pos p)) prec); [done|].
        pose proof (Z.pow_le_mono_r 2 prec (Zpos (digits2_pos p) - 1)
                      ltac:(lia) ltac:(lia)). lia. }
      replace (shr _ _ _) with
        ({| shr_m := Zpos p; shr_r := false; shr_s := false |}, e').
      2:{ unfold shr. cbn [shr_record_of_loc Zdigits2].
          destruct (fexp (Zpos (digits2_pos p) + e') - e') as [|q|q] eqn:Hk;
            [done| |done].
          unfold SpecFloat.fexp in Hk. lia. }
      cbn [shr_m].
      assert (Hv : (0 < inject_Z (Zpos p) * pow2 e')%Q).
      { apply Qmult_lt_0_compat; [|done]. change 0%Q with (inject_Z 0).
        by apply Qlt_of_Z. }
      destruct (Z.leb_spec e' (emax - prec)) as [Hfin|Hinf].
      * left. split; [done|]. split.
        { apply (Qlt_le_trans _ (pow2 (prec + e'))); [|apply pow2_le; lia].
          eapply Qlt_le_trans; [|apply (scaled_high (Zpos p)); lia].
          apply Qmult_lt_compat_r; [done|]. lra. }
        exists p, e'. split; [done|]. split; [|done].
        apply bounded_iff. split; [lia|]. split; [done|].
        intros He'. specialize (Hnorm He'). lia.
      * right. split; [|done].
        apply (Qle_trans _ (pow2 (prec - 1 + e'))); [apply pow2_le; lia|].
        apply scaled_low. specialize (Hnorm ltac:(lia)). lia.
    + (* the mantissa was rounded up to [2 ^ prec] *)
      assert (Hn2 : n = 2 ^ prec) by lia.
      assert (Hpow : 2 ^ prec = 2 * 2 ^ (prec - 1)).
      { replace prec with (prec - 1 + 1) at 1 by lia.
        rewrite Z.pow_add_r, Z.pow_1_r by lia. lia. }
      assert (Hdn : Zdigits2 n = prec + 1).
      { destruct n as [|p|p]; [lia| |lia]. apply digits_unique.
        rewrite Hn2. replace (prec + 1 - 1) with prec by lia.
        rewrite Z.pow_add_r, Z.pow_1_r by lia. lia. }
      rewrite Hdn.
      replace (fexp (prec + 1 + e') - e') with 1
        by (unfold SpecFloat.fexp; lia).
      destruct (shr_inb n loc_Exact (inject_Z n) e' 1 ltac:(lia))
        as (mrs2 & -> & Hm2 & Hy2); [done | lia |].
      assert (Hhalf : (inject_Z n / pow2 1 == inject_Z (2 ^ (prec - 1)))%Q).
      { rewrite Hn2, Hpow, inject_Z_mult.
        change (pow2 1) with 2%Q. change (inject_Z 2) with 2%Q. field. }
      apply (inb_eq _ _ _ _ Hhalf) in Hy2.
      apply inb_integer in Hy2 as [Hm2' _]. rewrite Hm2'.
      assert (Hpp : 0 < 2 ^ (prec - 1)) by (apply Z.pow_pos_nonneg; lia).
      destruct (2 ^ (prec - 1)) as [|q|q] eqn:Hq; [lia| |lia].
      assert (Hval : (inject_Z (Zpos q) * pow2 (e' + 1)
                      == inject_Z n * pow2 e')%Q).
      { rewrite pow2_succ, Hn2, Hpow, inject_Z_mult.
        change (inject_Z 2) with 2%Q. ring. }
      assert (Hv2 : (inject_Z n * pow2 e' == pow2 (prec + e'))%Q).
      { rewrite pow2_add, Hn2, (pow2_Z prec) by lia. reflexivity. }
      destruct (Z.leb_spec (e' + 1) (emax - prec)) as [Hfin|Hinf].
      * left. split; [rewrite Hv2; apply pow2_pos|]. split.
        { rewrite Hv2. apply pow2_lt. lia. }
        exists q, (e' + 1). split; [done|]. split; [|done].
        apply bounded_iff. split; [lia|]. rewrite <- Hq.
        split; [|lia]. apply Z.pow_lt_mono_r; lia.
      * right. split; [|done]. rewrite Hv2. apply pow2_le. lia.
Qed.


Lemma nonneg_val (f : spec_float) : nonneg_float f = true → (0 <= val f)%Q.
Proof.
  destruct f as [| | |[] m e]; simpl; try done. intros _.
  apply Qlt_le_weak, mant_pos.
Qed.

(** The order of two positive numbers of the format is that of their
    exponents, then of their mantissas. *)
Lemma compare_pos (m1 m2 : positive) (e1 e2 : Z) :
  bounded prec emax m1 e1 = true → bounded prec emax m2 e2 = true →
  match e1 ?= e2 with
  | Lt => Lt
  | Gt => Gt
  | Eq => Pos.compare_cont Eq m1 m2
  end = (inject_Z (Zpos m1) * pow2 e1 ?= inject_Z (Zpos m2) * pow2 e2)%Q.
Proof.
  intros (He1 & Hm1 & Hn1)%bounded_iff (He2 & Hm2 & Hn2)%bounded_iff.
  pose proof (pow2_pos e1). pose proof (pow2_pos e2).
  destruct (Z.compare_spec e1 e2) as [->|Hlt|Hgt].
  - change (Pos.compare_cont Eq m1 m2) with (Zpos m1 ?= Zpos m2).
    destruct (Z.compare_spec (Zpos m1) (Zpos m2)) as [Heq|Hlt|Hgt]; symmetry.
    + apply Qcompare_Eq. by rewrite Heq.
    + apply Qcompare_Lt. apply Qmult_lt_compat_r; [done|]. by apply Qlt_of_Z.
    + apply Qcompare_Gt. apply Qmult_lt_compat_r; [done|]. by apply Qlt_of_Z.
  - symmetry. apply Qcompare_Lt.
    pose proof (scaled_high (Zpos m1) e1 Hm1).
    pose proof (scaled_low (Zpos m2) e2 (Hn2 ltac:(lia))).
    pose proof (pow2_le (prec + e1) (prec - 1 + e2) ltac:(lia)). lra.
  - symmetry. apply Qcompare_Gt.
    pose proof (scaled_high (Zpos m2) e2 Hm2).
    pose proof (scaled_low (Zpos m1) e1 (Hn1 ltac:(lia))).
    pose proof (pow2_le (prec + e2) (prec - 1 + e1) ltac:(lia)). lra.
Qed.

Lemma Qcompare_opp (a b : Q) : (- a ?= - b)%Q = CompOpp (a ?= b)%Q.
Proof.
  destruct (Qcompare_spec a b) as [Heq|Hlt|Hgt]; simpl.
  - apply Qcompare_Eq. by rewrite Heq.
  - apply Qcompare_Gt. lra.
  - apply Qcompare_Lt. lra.
Qed.

(** Comparison on the finite numbers of the format is comparison of
    what they denote. *)
Lemma SFcompare_val (a b : spec_float) :
  fin_float a = true → fin_float b = true →
  SFcompare a b = Some (val a ?= val b)%Q.
Proof.
  destruct a as [sa| | |sa ma ea], b as [sb| | |sb mb eb]; simpl; try done;
    intros Ha Hb.
  - pose proof (mant_pos mb eb). f_equal. symmetry.
    destruct sb; [apply Qcompare_Gt | apply Qcompare_Lt]; lra.
  - pose proof (mant_pos ma ea). f_equal. symmetry.
    destruct sa; [apply Qcompare_Lt | apply Qcompare_Gt]; lra.
  - pose proof (mant_pos ma ea). pose proof (mant_pos mb eb). f_equal.
    destruct sa, sb.
    + rewrite Qcompare_opp, <- (compare_pos ma mb ea eb Ha Hb).
      by destruct (ea ?= eb).
    + symmetry. apply Qcompare_Lt. lra.
    + symmetry. apply Qcompare_Gt. lra.
    + by apply compare_pos.
Qed.



Lemma SFleb_val (a b : spec_float) :
  fin_float a = true → fin_float b = true →
  SFleb a b = true ↔ (val a <= val b)%Q.
Proof.
  intros Ha Hb. unfold SFleb. rewrite (SFcompare_val a b Ha Hb).
  rewrite Qle_alt. by destruct (val a ?= val b)%Q.
Qed.

(** ** The float an operation returns for the exact result [x >= 0] *)

Lemma outcome_rounds (x v : Q) (r : spec_float) :
  rnd x v → outcome r false v → rounds_to x r.
Proof.
  intros Hrnd [[Hv ->]|[(Hv0 & Hv1 & p & e & -> & Hb & Hval)|[Hv ->]]];
    exists v; (split; [done|]).
  - left. split; [done|]. by exists false.
  - right. left. done.
  - right. right. done.
Qed.

Lemma rnd_zero : rnd 0 0.
Proof.
  exists emin, 0, loc_Exact. split; [done|]. split; [|split; [|split]].
  - simpl. change (inject_Z 0) with 0%Q. pose proof (pow2_pos emin). field. lra.
  - split; [done|]. apply Z.pow_pos_nonneg; lia.
  - lia.
  - simpl. change (inject_Z 0) with 0%Q. ring.
Qed.

Lemma rnd_repr (p : positive) (e : Z) :
  bounded prec emax p e = true →
  rnd (inject_Z (Zpos p) * pow2 e) (inject_Z (Zpos p) * pow2 e).
Proof.
  intros (He & Hm & Hn)%bounded_iff.
  exists e, (Zpos p), loc_Exact. split; [lia|]. split; [|split; [|split]].
  - simpl. pose proof (pow2_pos e). field. lra.
  - lia.
  - done.
  - done.
Qed.

Lemma bounded_below_emax (p : positive) (e : Z) :
  bounded prec emax p e = true → (inject_Z (Zpos p) * pow2 e < pow2 emax)%Q.
Proof.
  intros (He & Hm & Hn)%bounded_iff.
  pose proof (scaled_high (Zpos p) e Hm).
  pose proof (pow2_le (prec + e) emax ltac:(lia)).
  pose proof (pow2_pos e). nra.
Qed.

(** A number of the format rounds to itself. *)
Lemma rounds_repr (r : spec_float) :
  nonneg_float r = true → rounds_to (val r) r.
Proof.
  destruct r as [s| | |[] m e]; simpl; try done; intros Hb.
  - exists 0%Q. split; [apply rnd_zero|]. left. split; [done|]. by exists s.
  - exists (inject_Z (Zpos m) * pow2 e)%Q. split; [by apply rnd_repr|].
    right. left. split; [apply mant_pos|].
    split; [by apply bounded_below_emax | done].
Qed.

Lemma rounds_eq (x x' : Q) (r : spec_float) :
  (x == x')%Q → rounds_to x r → rounds_to x' r.
Proof.
  intros Hx (v & Hrnd & Hout). exists v. split; [|done].
  by apply (rnd_eq x x' v v).
Qed.

(** The operations round monotonically: a smaller exact result gives a
    float not above, and a finite one when the other is. *)
Lemma rounds_mono (x1 x2 : Q) (r1 r2 : spec_float) :
  rounds_to x1 r1 → rounds_to x2 r2 → (x1 <= x2)%Q →
  nonneg_float r2 = true →
  nonneg_float r1 = true ∧ (val r1 <= val r2)%Q.
Proof.
  intros (v1 & Hrnd1 & Hout1) (v2 & Hrnd2 & Hout2) Hle Hfin.
  pose proof (rnd_mono x1 x2 v1 v2 Hrnd1 Hrnd2 Hle) as Hv.
  pose proof Hrnd1 as Hnn. apply rnd_nonneg in Hnn as [_ Hv1].
  assert (Hv2 : (v2 < pow2 emax)%Q ∧ (val r2 == v2)%Q).
  { destruct Hout2 as [[Hz [s ->]]|[(? & ? & ? & ?)|[_ ->]]]; [|done|done].
    pose proof (pow2_pos emax). simpl. split; [lra|]. by rewrite Hz. }
  destruct Hv2 as [Hv2 Hval2].
  destruct Hout1 as [[Hz [s ->]]|[(? & ? & ? & Hval1)|[Hinf ->]]].
  - split; [done|]. simpl. lra.
  - split; [done|]. lra.
  - exfalso. lra.
Qed.

Lemma rounds_le_repr (x : Q) (r c : spec_float) :
  rounds_to x r → nonneg_float c = true → (x <= val c)%Q →
  nonneg_float r = true ∧ (val r <= val c)%Q.
Proof.
  intros Hr Hc Hle.
  eapply rounds_mono; [exact Hr | by apply rounds_repr | done..].
Qed.

Lemma rounds_ge_repr (x : Q) (r c : spec_float) :
  rounds_to x r → nonneg_float c = true → (val c <= x)%Q →
  nonneg_float r = true →
  (val c <= val r)%Q.
Proof.
  intros Hr Hc Hle Hfin.
  by destruct (rounds_mono (val c) x c r (rounds_repr c Hc) Hr Hle Hfin).
Qed.

(** ** The operations *)

Lemma bounded_digits (m : positive) (e : Z) :
  bounded prec emax m e = true →
  emin ≤ e ≤ emax - prec ∧ Zpos (digits2_pos m) ≤ prec ∧
  (emin < e → Zpos (digits2_pos m) = prec).
Proof.
  unfold bounded, canonical_mantissa.
  rewrite andb_true_iff, Z.eqb_eq, Z.leb_le. unfold SpecFloat.fexp. lia.
Qed.

Lemma emin_nonpos : emin ≤ 0.
Proof. unfold SpecFloat.emin. lia. Qed.

(** [binary_round] returns the float its mantissa and exponent round
    to. *)
Lemma binary_round_rounds (m : positive) (e : Z) :
  rounds_to (inject_Z (Zpos m) * pow2 e) (binary_round prec emax false m e).
Proof.
  unfold binary_round.
  pose proof (shl_align_spec m e (fexp (Zpos (digits2_pos m) + e)))
    as [He' Hm'].
  pose proof (shl_align_val m e (fexp (Zpos (digits2_pos m) + e))) as Hval.
  destruct (shl_align m e _) as [mz ez]. cbn [fst snd] in *.
  destruct (bra_rnd false (Zpos mz) ez loc_Exact (inject_Z (Zpos mz)))
    as (v & Hrnd & Hout).
  - lia.
  - simpl. reflexivity.
  - cbn [Zdigits2]. rewrite (digits_shift m (e - ez) mz) by (lia || done).
    replace (Zpos (digits2_pos m) + (e - ez) + ez)
      with (Zpos (digits2_pos m) + e) by lia. lia.
  - eapply outcome_rounds; [|exact Hout].
    eapply rnd_eq; [exact Hval | reflexivity | exact Hrnd].
Qed.

(** A mantissa aligned on a smaller exponent. *)
Lemma aligned_val (s : bool) (m : positive) (e ez : Z) :
  ez ≤ e →
  (val (S754_finite s m e)
   == inject_Z (cond_Zopp s (Zpos (shl_align m e ez).1)) * pow2 ez)%Q.
Proof.
  intros Hez. pose proof (shl_align_spec m e ez) as [He' _].
  pose proof (shl_align_val m e ez) as Hval. cbv zeta in *.
  replace (shl_align m e ez).2 with ez in Hval by lia.
  destruct s; cbn [val cond_Zopp].
  - rewrite inject_Z_opp, <- Hval. ring.
  - by rewrite Hval.
Qed.

Lemma binary_normalize_rounds (M ez : Z) :
  0 ≤ M →
  rounds_to (inject_Z M * pow2 ez) (binary_normalize prec emax M ez false).
Proof.
  intros HM. destruct M as [|p|p]; [| |lia]; cbn [binary_normalize].
  - exists 0%Q. split.
    + eapply rnd_eq; [| |apply rnd_zero]; [|reflexivity].
      change (inject_Z 0) with 0%Q. ring.
    + left. split; [done|]. by exists false.
  - apply binary_round_rounds.
Qed.

(** Addition of numbers that are not negative. *)
Lemma SFadd_rounds (a b : spec_float) :
  nonneg_float a = true → nonneg_float b = true →
  rounds_to (val a + val b) (SFadd prec emax a b).
Proof.
  intros Ha Hb.
  destruct a as [sa| | |[] ma ea]; try done;
    destruct b as [sb| | |[] mb eb]; try done.
  - exists 0%Q. split.
    + eapply rnd_eq; [| |apply rnd_zero]; [|reflexivity]. simpl. ring.
    + left. split; [done|]. destruct sa, sb; by eexists.
  - eapply rounds_eq; [|apply (rounds_repr _ Hb)]. cbn [val]. ring.
  - eapply rounds_eq; [|apply (rounds_repr _ Ha)]. cbn [val]. ring.
  - cbn [SFadd]. set (ez := Z.min ea eb).
    eapply rounds_eq; [|apply binary_normalize_rounds].
    + rewrite (aligned_val false ma ea ez), (aligned_val false mb eb ez)
        by (unfold ez; lia).
      rewrite inject_Z_plus. ring.
    + cbn [cond_Zopp]. lia.
Qed.


Lemma digits_mul (a b : positive) :
  Zpos (digits2_pos a) + Zpos (digits2_pos b) - 1
  ≤ Zpos (digits2_pos (a * b)).
Proof.
  pose proof (digits_bounds a) as [Ha _].
  pose proof (digits_bounds b) as [Hb _].
  pose proof (digits_bounds (a * b)) as [_ Hab].
  set (da := Zpos (digits2_pos a)) in *. set (db := Zpos (digits2_pos b)) in *.
  assert (da + db - 2 < Zpos (digits2_pos (a * b))); [|lia].
  apply (Z.pow_lt_mono_r_iff 2); [lia..|].
  replace (da + db - 2) with ((da - 1) + (db - 1)) by lia.
  rewrite Z.pow_add_r by lia. rewrite Pos2Z.inj_mul in Hab.
  pose proof (Z.pow_pos_nonneg 2 (da - 1) ltac:(lia) ltac:(lia)).
  pose proof (Z.pow_pos_nonneg 2 (db - 1) ltac:(lia) ltac:(lia)). nia.
Qed.

(** Multiplication of numbers that are not negative. *)
Lemma SFmul_rounds (a b : spec_float) :
  nonneg_float a = true → nonneg_float b = true →
  rounds_to (val a * val b) (SFmul prec emax a b).
Proof.
  intros Ha Hb.
  assert (Hzero : ∀ s x, (x == 0)%Q → rounds_to x (S754_zero s)).
  { intros s x Hx. exists 0%Q. split.
    - eapply rnd_eq; [| |apply rnd_zero]; [by symmetry | reflexivity].
    - left. split; [done|]. by exists s. }
  destruct a as [sa| | |[] ma ea]; try done;
    destruct b as [sb| | |[] mb eb]; try done;
    cbn [SFmul]; try (apply Hzero; cbn [val]; ring).
  destruct (bounded_digits ma ea Ha) as (Hea & Hda & Hna).
  destruct (bounded_digits mb eb Hb) as (Heb & Hdb & Hnb).
  pose proof (digits_mul ma mb) as Hd. pose proof emin_nonpos.
  destruct (bra_rnd false (Zpos (ma * mb)) (ea + eb) loc_Exact
              (inject_Z (Zpos (ma * mb)))) as (v & Hrnd & Hout).
  - lia.
  - simpl. reflexivity.
  - cbn [Zdigits2]. unfold SpecFloat.fexp.
    destruct (Z.eq_dec ea emin), (Z.eq_dec eb emin); lia.
  - eapply outcome_rounds; [|exact Hout].
    eapply rnd_eq; [| reflexivity | exact Hrnd].
    cbn [val]. rewrite Pos2Z.inj_mul, inject_Z_mult, pow2_add. ring.
Qed.

(** The place of a quotient between two integers. *)
Lemma new_location_inb (nb q r : Z) :
  0 < nb → 0 ≤ r < nb →
  inb q (new_location nb r) (inject_Z (nb * q + r) / inject_Z nb).
Proof.
  intros Hnb Hr.
  assert (HN : (0 < inject_Z nb)%Q)
    by (change 0%Q with (inject_Z 0); by apply Qlt_of_Z).
  assert (HR : (0 <= inject_Z r)%Q)
    by (change 0%Q with (inject_Z 0); apply Qle_of_Z; lia).
  assert (Hy : (inject_Z (nb * q + r) / inject_Z nb
                == inject_Z q + inject_Z r / inject_Z nb)%Q).
  { rewrite inject_Z_plus, inject_Z_mult. field. lra. }
  eapply inb_eq; [symmetry; exact Hy|].
  assert (Hfrac : (inject_Z r / inject_Z nb * inject_Z nb == inject_Z r)%Q)
    by (field; lra).
  set (f := (inject_Z r / inject_Z nb)%Q) in *. clearbody f.
  assert (Hcmp : ∀ c, (2 * r ?= nb) = c →
            match c with
            | Lt => (2 * f < 1)%Q | Eq => (2 * f == 1)%Q | Gt => (1 < 2 * f)%Q
            end).
  { intros c <-.
    destruct (Z.compare_spec (2 * r) nb) as [Heq|Hlt|Hgt].
    - assert (inject_Z (2 * r) == inject_Z nb)%Q as Hq by by rewrite Heq.
      rewrite inject_Z_mult in Hq. change (inject_Z 2) with 2%Q in Hq. nra.
    - apply Qlt_of_Z in Hlt. rewrite inject_Z_mult in Hlt.
      change (inject_Z 2) with 2%Q in Hlt. nra.
    - apply Qlt_of_Z in Hgt. rewrite inject_Z_mult in Hgt.
      change (inject_Z 2) with 2%Q in Hgt. nra. }
  assert (Hzero : r = 0 → (f == 0)%Q).
  { intros ->. change (inject_Z 0) with 0%Q in Hfrac. nra. }
  assert (Hfpos : r ≠ 0 → (0 < f)%Q ∧ (f < 1)%Q).
  { intros Hr0.
    assert (0 < inject_Z r)%Q
      by (change 0%Q with (inject_Z 0); apply Qlt_of_Z; lia).
    assert (inject_Z r < inject_Z nb)%Q by (apply Qlt_of_Z; lia).
    split; nra. }
  unfold new_location. destruct (Z.even nb) eqn:Heven.
  - unfold new_location_even. destruct (Z.eqb_spec r 0) as [Hr0|Hr0].
    + specialize (Hzero Hr0). cbn [inb]. lra.
    + destruct (Hfpos Hr0). specialize (Hcmp _ eq_refl).
      destruct (2 * r ?= nb); cbn [inb]; unfold one_half; lra.
  - unfold new_location_odd. destruct (Z.eqb_spec r 0) as [Hr0|Hr0].
    + specialize (Hzero Hr0). cbn [inb]. lra.
    + destruct (Hfpos Hr0).
      assert (2 * r ≠ nb).
      { intros <-. rewrite Z.even_mul in Heven. done. }
      pose proof (Hcmp _ eq_refl) as Hc.
      destruct (Z.compare_spec (2 * r + 1) nb) as [Heq|Hlt|Hgt];
        destruct (Z.compare_spec (2 * r) nb); try lia;
        cbn [inb]; unfold one_half; lra.
Qed.

Lemma digits_ge (q : Z) (k : Z) :
  0 ≤ k → 2 ^ k ≤ q → k + 1 ≤ Zdigits2 q.
Proof.
  intros Hk Hq.
  pose proof (Z.pow_pos_nonneg 2 k ltac:(lia) Hk).
  pose proof (Zdigits2_upper q ltac:(lia)) as Hup.
  pose proof (Zdigits2_nonneg q).
  assert (k < Zdigits2 q); [|lia].
  apply (Z.pow_lt_mono_r_iff 2); lia.
Qed.

(** Division of a number that is not negative by a positive one. *)
Lemma SFdiv_rounds (a b : spec_float) :
  nonneg_float a = true → nonneg_float b = true → (0 < val b)%Q →
  rounds_to (val a / val b) (SFdiv prec emax a b).
Proof.
  intros Ha Hb Hpos.
  destruct b as [sb| | |[] mb eb]; try done.
  destruct a as [sa| | |[] ma ea]; try done.
  { cbn [SFdiv]. exists 0%Q. split.
    - eapply rnd_eq; [| |apply rnd_zero]; [|reflexivity].
      cbn [val]. unfold Qdiv. ring.
    - left. split; [done|]. by eexists. }
  cbn [SFdiv]. unfold SFdiv_core_binary. cbn [Zdigits2 xorb].
  set (d1 := Zpos (digits2_pos ma)). set (d2 := Zpos (digits2_pos mb)).
  set (e' := Z.min (fexp (d1 + ea - (d2 + eb))) (ea - eb)).
  set (s := ea - eb - e').
  assert (Hs : 0 ≤ s) by (unfold s, e'; lia).
  assert (Hm' : match s with
                | Z0 => Zpos ma
                | Zpos _ => Z.shiftl (Zpos ma) s
                | Zneg _ => 0
                end = Zpos ma * 2 ^ s).
  { destruct s as [|p|p] eqn:Hsp; [simpl; lia | | lia].
    by rewrite Z.shiftl_mul_pow2. }
  rewrite Hm'. set (m' := Zpos ma * 2 ^ s).
  pose proof (Z.pow_pos_nonneg 2 s ltac:(lia) Hs) as H2s.
  pose proof (Z_div_mod m' (Zpos mb) ltac:(lia)) as Hdiv.
  destruct (Z.div_eucl m' (Zpos mb)) as [q r]. destruct Hdiv as [Hqr Hr].
  assert (Hq : 0 ≤ q) by nia.
  pose proof (new_location_inb (Zpos mb) q r ltac:(lia) Hr) as Hin.
  rewrite <- Hqr in Hin.
  destruct (bra_rnd false q e' (new_location (Zpos mb) r)
              (inject_Z m' / inject_Z (Zpos mb))) as (v & Hrnd & Hout).
  - done.
  - done.
  - (* the quotient has enough digits *)
    assert (d1 + s - d2 ≤ Zdigits2 q).
    { pose proof (Zdigits2_nonneg q).
      destruct (Z.le_gt_cases (d1 + s - d2) 0); [lia|].
      pose proof (digits_bounds ma) as [Hlo1 _].
      pose proof (digits_bounds mb) as [_ Hhi2].
      fold d1 in Hlo1. fold d2 in Hhi2.
      assert (2 ^ (d1 + s - d2 - 1) ≤ q).
      { assert (2 ^ (d1 + s - 1) ≤ m').
        { unfold m'. replace (d1 + s - 1) with (d1 - 1 + s) by lia.
          rewrite Z.pow_add_r by lia. nia. }
        assert (Hsplit : 2 ^ (d1 + s - 1) = 2 ^ (d1 + s - d2 - 1) * 2 ^ d2).
        { rewrite <- Z.pow_add_r by lia. f_equal. lia. }
        pose proof (Z.pow_pos_nonneg 2 (d1 + s - d2 - 1) ltac:(lia) ltac:(lia)).
        nia. }
      pose proof (digits_ge q (d1 + s - d2 - 1) ltac:(lia) ltac:(lia)). lia. }
    pose proof (fexp_mono (d1 + ea - (d2 + eb)) (Zdigits2 q + e')
                  ltac:(unfold s in *; lia)).
    unfold e' at 1. lia.
  - eapply outcome_rounds; [|exact Hout].
    eapply rnd_eq; [| reflexivity | exact Hrnd].
    cbn [val]. unfold m'. rewrite inject_Z_mult, <- pow2_Z by lia.
    assert (Hp : (pow2 ea == pow2 s * pow2 e' * pow2 eb)%Q).
    { rewrite <- !pow2_add.
      by replace (s + e' + eb) with ea by (unfold s; lia). }
    rewrite Hp. pose proof (pow2_pos eb).
    assert (0 < inject_Z (Zpos mb))%Q
      by (change 0%Q with (inject_Z 0); by apply Qlt_of_Z).
    field. lra.
Qed.

(** ** Order facts on the results *)

(** The sum of two numbers that are not negative grows with both, and
    is finite when the greater sum is. *)
Lemma SFadd_mono (a1 b1 a2 b2 : spec_float) :
  nonneg_float a1 = true → nonneg_float b1 = true →
  nonneg_float a2 = true → nonneg_float b2 = true →
  (val a1 <= val a2)%Q → (val b1 <= val b2)%Q →
  nonneg_float (SFadd prec emax a2 b2) = true →
  nonneg_float (SFadd prec emax a1 b1) = true ∧
  (val (SFadd prec emax a1 b1) <= val (SFadd prec emax a2 b2))%Q.
Proof.
  intros Ha1 Hb1 Ha2 Hb2 Ha Hb Hfin.
  apply (rounds_mono (val a1 + val b1) (val a2 + val b2));
    [by apply SFadd_rounds | by apply SFadd_rounds | lra | done].
Qed.

(** A finite sum is not below its terms. *)
Lemma SFadd_ge (a b : spec_float) :
  nonneg_float a = true → nonneg_float b = true →
  nonneg_float (SFadd prec emax a b) = true →
  (val a <= val (SFadd prec emax a b))%Q ∧
  (val b <= val (SFadd prec emax a b))%Q.
Proof.
  intros Ha Hb Hfin. pose proof (nonneg_val a Ha). pose proof (nonneg_val b Hb).
  pose proof (SFadd_rounds a b Ha Hb) as Hr.
  split; (eapply rounds_ge_repr; [exact Hr | done | lra | done]).
Qed.

(** A product by a factor of [0, 1] is not above the other factor. *)
Lemma SFmul_le (v a : spec_float) :
  nonneg_float v = true → nonneg_float a = true → (val v <= 1)%Q →
  nonneg_float (SFmul prec emax v a) = true ∧
  (val (SFmul prec emax v a) <= val a)%Q.
Proof.
  intros Hv Ha Hle. pose proof (nonneg_val v Hv). pose proof (nonneg_val a Ha).
  apply (rounds_le_repr (val v * val a)); [by apply SFmul_rounds | done | nra].
Qed.

Lemma SFmul_le_r (a p : spec_float) :
  nonneg_float a = true → nonneg_float p = true → (val p <= 1)%Q →
  nonneg_float (SFmul prec emax a p) = true ∧
  (val (SFmul prec emax a p) <= val a)%Q.
Proof.
  intros Ha Hp Hle. pose proof (nonneg_val a Ha). pose proof (nonneg_val p Hp).
  apply (rounds_le_repr (val a * val p)); [by apply SFmul_rounds | done | nra].
Qed.


(** A quotient by a number not below the dividend is not above 1. *)
Lemma SFdiv_le_one (a b one : spec_float) :
  nonneg_float one = true → (val one == 1)%Q →
  nonneg_float a = true → nonneg_float b = true →
  (0 < val b)%Q → (val a <= val b)%Q →
  nonneg_float (SFdiv prec emax a b) = true ∧
  (val (SFdiv prec emax a b) <= 1)%Q.
Proof.
  intros Hone Hval Ha Hb Hpos Hle. rewrite <- Hval.
  apply (rounds_le_repr (val a / val b)); [by apply SFdiv_rounds | done |].
  rewrite Hval. apply Qle_shift_div_r; [done | lra].
Qed.

End Rounding.

(** ** Fractal Brownian motion in binary64 *)

Module B64.

Lemma prec64_pos : 0 < prec.
Proof. done. Qed.

Lemma emax64_above : prec < emax.
Proof. done. Qed.

Lemma one64_nonneg : nonneg_float prec emax IEEE.one = true.
Proof. reflexivity. Qed.

Lemma one64_val : (val IEEE.one == 1)%Q.
Proof. vm_compute. reflexivity. Qed.

Lemma in_unit_spec (v : float) :
  in_unit64 v ↔ nonneg64 v ∧ (value64 v <= 1)%Q.
Proof.
  unfold in_unit64, nonneg64, value64. rewrite !leb_spec.
  pose proof (Prim2SF_valid v) as Hv.
  change (Prim2SF 0) with (S754_zero false).
  change (Prim2SF 1) with IEEE.one.
  destruct (Prim2SF v) as [s|[]| |[] m e] eqn:Hsf; cbn [nonneg_float];
    try (split; [intros [? ?]|intros [? ?]]; discriminate).
  - split; [|done]. intros _. split; [done|]. cbn [val]. lra.
  - rewrite !(SFleb_val prec emax prec64_pos emax64_above), one64_val by done.
    pose proof (mant_pos m e). cbn [val]. split; [intros [_ ?]; done|].
    intros [_ ?]. split; [lra | done].
Qed.

Lemma lt_one_le (p : float) :
  (0 <=? p)%float = true → (p <? 1)%float = true → in_unit64 p.
Proof.
  intros H0 H1. split; [done|]. rewrite leb_spec. rewrite ltb_spec in H1.
  unfold SFleb, SFltb in *. by destruct (SFcompare _ _) as [[]|].
Qed.

Lemma zero64_nonneg : nonneg64 0%float.
Proof. reflexivity. Qed.

Lemma mul_le (v a : float) :
  nonneg64 v → nonneg64 a → (value64 v <= 1)%Q →
  nonneg64 (v * a)%float ∧ (value64 (v * a)%float <= value64 a)%Q.
Proof.
  unfold nonneg64, value64. rewrite mul_spec.
  apply (SFmul_le prec emax prec64_pos emax64_above).
Qed.

Lemma mul_le_r (a p : float) :
  nonneg64 a → nonneg64 p → (value64 p <= 1)%Q →
  nonneg64 (a * p)%float ∧ (value64 (a * p)%float <= value64 a)%Q.
Proof.
  unfold nonneg64, value64. rewrite mul_spec.
  apply (SFmul_le_r prec emax prec64_pos emax64_above).
Qed.

Lemma add_mono (a1 b1 a2 b2 : float) :
  nonneg64 a1 → nonneg64 b1 → nonneg64 a2 → nonneg64 b2 →
  (value64 a1 <= value64 a2)%Q → (value64 b1 <= value64 b2)%Q →
  nonneg64 (a2 + b2)%float →
  nonneg64 (a1 + b1)%float ∧
  (value64 (a1 + b1)%float <= value64 (a2 + b2)%float)%Q.
Proof.
  unfold nonneg64, value64. rewrite !add_spec.
  apply (SFadd_mono prec emax prec64_pos emax64_above).
Qed.

Lemma add_ge (a b : float) :
  nonneg64 a → nonneg64 b → nonneg64 (a + b)%float →
  (value64 a <= value64 (a + b)%float)%Q ∧
  (value64 b <= value64 (a + b)%float)%Q.
Proof.
  unfold nonneg64, value64. rewrite !add_spec.
  apply (SFadd_ge prec emax prec64_pos emax64_above).
Qed.

Lemma div_in_unit (a b : float) :
  nonneg64 a → nonneg64 b →
  (0 < value64 b)%Q → (value64 a <= value64 b)%Q →
  in_unit64 (a / b)%float.
Proof.
  intros Ha Hb Hpos Hle. apply in_unit_spec. unfold nonneg64, value64 in *.
  rewrite div_spec.
  by apply (SFdiv_le_one prec emax prec64_pos emax64_above _ _ IEEE.one
              one64_nonneg one64_val).
Qed.

(** A sum of amplitudes of [0, 1] never goes above [2^53], since
    [2^53 + 1] rounds to [2^53]. *)
Lemma add_capped (m a : float) :
  nonneg64 m → nonneg64 a →
  (value64 m <= value64 cap64)%Q → (value64 a <= 1)%Q →
  nonneg64 (m + a)%float ∧ (value64 (m + a)%float <= value64 cap64)%Q.
Proof.
  intros Hm Ha Hcap Hle.
  assert (Hsum : (cap64 + 1)%float = cap64) by (vm_compute; reflexivity).
  rewrite <- Hsum at 1. apply add_mono; try done.
  unfold value64. change (Prim2SF 1) with IEEE.one. by rewrite one64_val.
Qed.

(** The invariant of the loop in binary64: [0 <= total <= maxValue],
    [maxValue] finite (at most [2^53]) and at least 1 once an iteration
    ran, the amplitude in [0, 1]. *)
Lemma octaves_loop_unit (noise2D : float → float → result float) (n : nat)
    (x y persistence lacunarity total frequency amplitude maxValue : float) :
  in_unit64 persistence →
  (∀ i : nat, (i < n)%nat →
     ∃ v, noise2D (x * Nat.iter i (λ f, (f * lacunarity)%F) frequency)%F
                  (y * Nat.iter i (λ f, (f * lacunarity)%F) frequency)%F
          = Ok v ∧ in_unit64 v) →
  nonneg64 total → nonneg64 maxValue → nonneg64 amplitude →
  (value64 total <= value64 maxValue)%Q →
  (value64 maxValue <= value64 cap64)%Q →
  (value64 amplitude <= 1)%Q →
  (1 <= value64 maxValue)%Q ∨ ((1 <= value64 amplitude)%Q ∧ (0 < n)%nat) →
  ∃ t m, octaves_loop noise2D n x y persistence lacunarity
           total frequency amplitude maxValue = Ok (t, m) ∧
         nonneg64 t ∧ nonneg64 m ∧
         (value64 t <= value64 m)%Q ∧ (1 <= value64 m)%Q.
Proof.
  intros [Hp Hp1]%in_unit_spec. revert total frequency amplitude maxValue.
  induction n as [|n IH]; intros total frequency amplitude maxValue
    Hcalls Ht Hm Ha Htm Hcap Ha1 Hpos.
  - exists total, maxValue. split; [done|]. do 3 (split; [done|]).
    destruct Hpos as [|[_ ?]]; [done | lia].
  - cbn [octaves_loop].
    destruct (Hcalls 0%nat) as (v & Hv & [Hv0 Hv1]%in_unit_spec); [lia|].
    change (noise2D (x * frequency)%F (y * frequency)%F = Ok v) in Hv.
    rewrite Hv, bind_Ok.
    change (PrimFloat.mul v amplitude) with (v * amplitude)%float.
    destruct (mul_le v amplitude Hv0 Ha Hv1) as [Hu Hu1].
    destruct (add_capped maxValue amplitude Hm Ha Hcap Ha1) as [Hm' Hcap'].
    destruct (add_mono total (v * amplitude)%float maxValue amplitude)
      as [Ht' Htm']; try done.
    destruct (mul_le_r amplitude persistence Ha Hp Hp1) as [Ha' Ha1'].
    destruct (add_ge maxValue amplitude Hm Ha Hm') as [Hge1 Hge2].
    apply IH; try done.
    + intros i Hi. destruct (Hcalls (S i)) as (w & Hw & Hin); [lia|].
      rewrite Nat.iter_succ_r in Hw. by exists w.
    + change (value64 (amplitude * persistence)%float <= 1)%Q. lra.
    + left. change (1 <= value64 (maxValue + amplitude)%float)%Q.
      destruct Hpos as [?|[? _]]; lra.
Qed.

Lemma fbm_unit (noise2D : float → float → result float) (x y : float)
    (octaves : Z) (persistence lacunarity : float) :
  1 ≤ octaves → in_unit64 persistence →
  octave_calls_in_unit64 noise2D x y lacunarity octaves →
  ∃ r, fbm noise2D x y octaves persistence lacunarity = Ok r ∧ in_unit64 r.
Proof.
  intros Hoct Hp Hcalls. unfold fbm.
  change (#0)%F with 0%float. change (#1)%F with 1%float.
  assert (H00 : (value64 0 <= value64 0)%Q) by (vm_compute; discriminate).
  assert (H0c : (value64 0 <= value64 cap64)%Q) by (vm_compute; discriminate).
  assert (H11 : (value64 1 <= 1)%Q) by (vm_compute; discriminate).
  assert (H1 : (1 <= value64 1)%Q) by (vm_compute; discriminate).
  destruct (octaves_loop_unit noise2D (Z.to_nat octaves) x y persistence
              lacunarity 0%float 1%float 1%float 0%float Hp Hcalls
              zero64_nonneg zero64_nonneg one64_nonneg H00 H0c H11)
    as (t & m & -> & Ht & Hm & Htm & Hm1).
  - right. split; [done | lia].
  - rewrite bind_Ok. eexists. split; [done|]. cbn [fst snd].
    apply div_in_unit; [done | done | lra | done].
Qed.

End B64.

(** C7, as the code has it: in binary64, for every x, y and seed,
    whenever [0 <= persistence < 1], [lacunarity > 1] and
    [octaves >= 1], and every noise call of the loop returns a value of
    [0, 1], the result [total / maxValue] of either compositor lies in
    [0, 1].  (The proof uses no more of [persistence < 1] than
    [persistence <= 1], and nothing of [lacunarity > 1].) *)
Theorem fbm_in_unit_interval (shuffle : Z → list Z → list Z)
    (x y : float) (octaves : Z) (persistence lacunarity : float) (seed : Z) :
  1 ≤ octaves →
  (0 <=? persistence)%float = true → (persistence <? 1)%float = true →
  (1 <? lacunarity)%float = true →
  (octave_calls_in_unit64
     (PerlinNoise.noise2D (PerlinNoise.new shuffle seed)) x y lacunarity
     octaves →
   ∃ r, generatePerlinFBM shuffle x y octaves persistence lacunarity seed
        = Ok r ∧ in_unit64 r) ∧
  (∀ e, SimplexNoise.new shuffle seed = Ok e →
     octave_calls_in_unit64 (SimplexNoise.noise2D e) x y lacunarity octaves →
     ∃ r, generateSimplexFBM shuffle x y octaves persistence lacunarity seed
          = Ok r ∧ in_unit64 r).
Proof.
  intros Hoct Hp0 Hp1 _. pose proof (B64.lt_one_le persistence Hp0 Hp1) as Hp.
  split.
  - intros Hcalls. unfold generatePerlinFBM. by apply B64.fbm_unit.
  - intros e He Hcalls. unfold generateSimplexFBM. rewrite He, bind_Ok.
    by apply B64.fbm_unit.
Qed.

Lemma fbm_in_unit_interval_witness :
  ∃ r : float,
    generatePerlinFBM Ref.shuffle 0.375%float 5.125%float 2 0.5%float
      2%float 0 = Ok r ∧ in_unit64 r.
Proof.
  refine (proj1 (fbm_in_unit_interval Ref.shuffle 0.375%float 5.125%float 2
                   0.5%float 2%float 0 _ _ _ _) _).
  - lia.
  - vm_compute. reflexivity.
  - vm_compute. reflexivity.
  - vm_compute. reflexivity.
  - intros i Hi. destruct i as [|[|i]]; [| |simpl in Hi; lia];
      (eexists; split; [vm_compute; reflexivity|]; split; vm_compute;
       reflexivity).
Defined.

(** C7 as stated fails: a persistence below 1 may be negative.  At
    (0.375, 5.125) with persistence -2, lacunarity 2 and two octaves,
    both noise calls return a value of [0, 1] and the result is above 1,
    in binary64 and in exact arithmetic alike. *)
Lemma fbm_negative_persistence_leaves_unit_interval :
  (let noise2D := PerlinNoise.noise2D (PerlinNoise.new Ref.shuffle 0) in
   ∃ v0 v1 r : float,
     ((-2) <? 1)%float = true ∧ (1 <? 2)%float = true ∧
     noise2D 0.375%float 5.125%float = Ok v0 ∧
     noise2D (0.375 * (1 * 2))%float (5.125 * (1 * 2))%float = Ok v1 ∧
     (0 <=? v0)%float = true ∧ (v0 <=? 1)%float = true ∧
     (0 <=? v1)%float = true ∧ (v1 <=? 1)%float = true ∧
     generatePerlinFBM Ref.shuffle 0.375%float 5.125%float 2 (-2)%float
       2%float 0 = Ok r ∧
     (1 <? r)%float = true) ∧
  (∃ r : Q,
     flt (Qmake (-2) 1) (#1)%F ∧ flt (#1)%F (Qmake 2 1) ∧
     octave_calls_in_unit
       (PerlinNoise.noise2D (PerlinNoise.new Ref.shuffle 0))
       (Qmake 3 8) (Qmake 41 8) (Qmake 2 1) 2 ∧
     generatePerlinFBM Ref.shuffle (Qmake 3 8) (Qmake 41 8) 2 (Qmake (-2) 1)
       (Qmake 2 1) 0 = Ok r ∧
     flt (#1)%F r).
Proof.
  split.
  - do 3 eexists.
    repeat (split; [vm_compute; reflexivity|]). vm_compute. reflexivity.
  - eexists. split; [vm_compute; reflexivity|].
    split; [vm_compute; reflexivity|]. split; [|split].
    + intros i Hi. destruct i as [|[|i]]; [| |simpl in Hi; lia];
        (eexists; split; [vm_compute; reflexivity|]; split; vm_compute;
         reflexivity).
    + vm_compute. reflexivity.
    + vm_compute. reflexivity.
Qed.

(** ** Normalization: the loops *)

(** A counting loop, by an invariant on the counter. *)
Lemma forM_count {S} (P : Z → S → Prop) (a n : Z)
    (body : Z → S → result S) (s : S) :
  a ≤ n → P a s →
  (∀ i s, a ≤ i < n → P i s → ∃ s', body i s = Ok s' ∧ P (i + 1) s') →
  ∃ s', forM (loop_range a n 1) body s = Ok s' ∧ P n s'.
Proof.
  unfold loop_range. remember (Z.to_nat (n - a)) as fuel eqn:Hfuel.
  revert a s Hfuel. induction fuel as [|fuel IH]; intros a s Hfuel Han Hs Hbody.
  - replace n with a by lia. by exists s.
  - simpl. destruct (Z.ltb_spec a n); [|lia]. simpl.
    destruct (Hbody a s) as (s' & -> & Hs'); [lia | done |].
    rewrite bind_Ok. apply IH; [lia | lia | done |].
    intros i s0 Hi. apply Hbody. lia.
Qed.

Section Normalization.
Context {F : Type} `{Arith F} {RNG : Type}.

Local Abbreviation t := (@DS.t F RNG).

Lemma inside_bounds (d : t) x y :
  DS.inside d x y = true ↔ 0 ≤ x < DS.size d ∧ 0 ≤ y < DS.size d.
Proof.
  unfold DS.inside. rewrite !andb_true_iff, !Z.leb_le, !Z.ltb_lt. lia.
Qed.

Lemma set2_cell (d : t) x y v hm x' y' :
  DS.wf d → DS.inside d x y = true → DS.inside d x' y' = true →
  DS.set2 (DS.heightmap d) x y v = Ok hm →
  DS.cell (DS.with_heightmap d hm) x' y'
  = if decide (x' = x ∧ y' = y) then v else DS.cell d x' y'.
Proof.
  intros Hwf [Hx Hy]%inside_bounds [Hx' Hy']%inside_bounds Hset.
  destruct (wf_row d x Hwf Hx) as (row & Hrow & Hlen).
  destruct Hwf as (Hn & Hlen' & Hrows).
  unfold DS.set2 in Hset.
  assert (at_ (DS.heightmap d) x = Ok row) as Hat
    by (apply at_lookup; split; [lia | done]).
  rewrite Hat, bind_Ok, set_at_in_range, bind_Ok, set_at_in_range in Hset
    by lia.
  injection Hset as <-. unfold DS.cell. simpl.
  destruct (decide (x' = x)) as [->|Hxne].
  - rewrite list_lookup_insert_eq by lia. simpl.
    destruct (decide (y' = y)) as [->|Hyne].
    + rewrite list_lookup_insert_eq by lia.
      by rewrite decide_True.
    + rewrite list_lookup_insert_ne by lia.
      rewrite decide_False by tauto. by rewrite Hrow.
  - rewrite list_lookup_insert_ne by lia.
    by rewrite decide_False by tauto.
Qed.

(** After the second pair of loops every cell holds its old height,
    less [minVal], over [range]. *)
Lemma rescale_spec n (d : t) minVal range :
  DS.keeps n d →
  ∃ d', DS.rescale minVal range d = Ok d' ∧ DS.keeps n d' ∧
        ∀ x y, DS.inside d x y = true →
               DS.cell d' x y = ((DS.cell d x y - minVal) / range)%F.
Proof.
  intros [Hwf Hn]. unfold DS.rescale. rewrite Hn.
  assert (Hn0 : 0 ≤ n) by (destruct Hwf; lia).
  set (done_ i j (d' : t) :=
         DS.keeps n d' ∧
         ∀ x y, DS.inside d x y = true →
                DS.cell d' x y
                = if decide (y < i ∨ (y = i ∧ x < j))
                  then ((DS.cell d x y - minVal) / range)%F
                  else DS.cell d x y).
  destruct (forM_count (λ i, done_ i 0) 0 n
    (λ y, forM (loop_range 0 n 1) (λ x d,
       h ← DS.get2 (DS.heightmap d) x y;
       hm ← DS.set2 (DS.heightmap d) x y ((h - minVal) / range)%F;
       mret (DS.with_heightmap d hm))) d)
    as (d' & Hloop & Hkeeps & Hcells).
  - done.
  - split; [done|]. intros x y [? ?]%inside_bounds.
    rewrite decide_False; [done | lia].
  - intros y d1 Hy Hd1.
    destruct (forM_count (done_ y) 0 n
      (λ x d, h ← DS.get2 (DS.heightmap d) x y;
              hm ← DS.set2 (DS.heightmap d) x y ((h - minVal) / range)%F;
              mret (DS.with_heightmap d hm)) d1)
      as (d2 & Hrow & Hd2); [done | done | |].
    + intros x d2 Hx ([Hwf2 Hn2] & Hcells2).
      assert (Hin : DS.inside d x y = true) by (apply inside_bounds; lia).
      assert (Hin2 : DS.inside d2 x y = true) by (apply inside_bounds; lia).
      rewrite (get2_cell d2 x y) by done. rewrite bind_Ok.
      destruct (set2_in_range d2 x y
                  ((DS.cell d2 x y - minVal) / range)%F)
        as (hm & Hset & Hwf'); [done | lia | lia |].
      rewrite Hset, bind_Ok. eexists. split; [done|]. split; [done|].
      intros x' y' Hin'.
      assert (Hin2' : DS.inside d2 x' y' = true).
      { apply inside_bounds. apply inside_bounds in Hin'. lia. }
      rewrite (set2_cell d2 x y _ hm x' y') by done.
      rewrite (Hcells2 x' y' Hin'), (Hcells2 x y Hin).
      apply inside_bounds in Hin'.
      repeat case_decide; (done || (exfalso; lia) || idtac).
      all: destruct_and?; subst; done || (exfalso; lia).
    + exists d2. split; [done|]. destruct Hd2 as [Hk2 Hcells2].
      split; [done|]. intros x' y' Hin'. rewrite (Hcells2 x' y' Hin').
      apply inside_bounds in Hin'.
      repeat case_decide; (done || (exfalso; lia)).
  - exists d'. split; [done|]. split; [done|]. intros x y Hin.
    rewrite (Hcells x y Hin). apply inside_bounds in Hin.
    by rewrite decide_True by lia.
Qed.

End Normalization.


(** ** Binary64: what one octave computes

    [x * 1], [x / 1] and [0 + x] are [x] in IEEE arithmetic, the last
    unless [x] is the negative zero, which no noise value is.  The
    facts come from the specification of the primitive floats
    ([SpecFloat]). *)

Lemma shr_1_shift (k : nat) (m : positive) :
  Nat.iter k shr_1 {| shr_m := Zpos (Nat.iter k xO m); shr_r := false; shr_s := false |}
  = {| shr_m := Zpos m; shr_r := false; shr_s := false |}.
Proof.
  induction k as [|k IH]; [reflexivity|].
  rewrite Nat.iter_succ_r. simpl. exact IH.
Qed.

Lemma digits2_pos_shift (k : nat) (m : positive) :
  Zpos (digits2_pos (Nat.iter k xO m)) = Zpos (digits2_pos m) + Z.of_nat k.
Proof.
  induction k as [|k IH]; [simpl; lia|].
  simpl Nat.iter. cbn [digits2_pos]. rewrite Pos2Z.inj_succ, IH. lia.
Qed.

Section Format.
Variables prec emax : Z.

(** A mantissa shifted left, with its exponent moved down by as much,
    rounds to the number it denotes. *)
Lemma binary_round_aux_shift (s : bool) (m : positive) (e : Z) (k : nat) :
  bounded prec emax m e = true ->
  binary_round_aux prec emax s (Zpos (Nat.iter k xO m)) (e - Z.of_nat k) loc_Exact
  = S754_finite s m e.
Proof.
  intros Hb. unfold bounded, canonical_mantissa in Hb.
  apply andb_prop in Hb as [Hc He]. apply Z.eqb_eq in Hc. apply Z.leb_le in He.
  unfold binary_round_aux, shr_fexp.
  cbn [Zdigits2 shr_record_of_loc].
  rewrite digits2_pos_shift.
  replace (Z.pos (digits2_pos m) + Z.of_nat k + (e - Z.of_nat k)) with (Z.pos (digits2_pos m) + e) by lia.
  rewrite Hc.
  replace (e - (e - Z.of_nat k)) with (Z.of_nat k) by lia.
  assert (Hshr : shr {| shr_m := Z.pos (Nat.iter k xO m); shr_r := false; shr_s := false |} (e - Z.of_nat k) (Z.of_nat k)
                 = ({| shr_m := Z.pos m; shr_r := false; shr_s := false |}, e)).
  { destruct k as [|k].
    - simpl. f_equal. lia.
    - pose proof (shr_1_shift (S k) m) as Hk.
      change (Z.of_nat (S k)) with (Zpos (Pos.of_succ_nat k)).
      unfold shr. rewrite iter_pos_nat, SuccNat2Pos.id_succ, Hk. f_equal. lia. }
  rewrite Hshr. cbn [shr_m loc_of_shr_record shr_r shr_s round_nearest_even Zdigits2 shr_record_of_loc].
  rewrite Hc, Z.sub_diag. cbn [shr shr_m].
  destruct (Z.leb_spec e (emax - prec)); [reflexivity | lia].
Qed.
End Format.

Lemma float_mul_1_r (x : float) : (x * 1)%float = x.
Proof.
  apply Prim2SF_inj. rewrite mul_spec.
  change (Prim2SF 1) with (S754_finite false 4503599627370496 (-52)).
  pose proof (Prim2SF_valid x) as Hv.
  destruct (Prim2SF x) as [sx|sx| |sx mx ex]; cbn [SF64mul SFmul];
    rewrite ?xorb_false_r; try reflexivity.
  replace (mx * 4503599627370496)%positive with (Nat.iter 52 xO mx)
    by (rewrite Pos.mul_comm; reflexivity).
  apply (binary_round_aux_shift prec emax sx mx ex 52).
  exact Hv.
Qed.

Lemma div_eucl_exact (a b q : Z) :
  0 < b -> a = b * q -> Z.div_eucl a b = (q, 0).
Proof.
  intros Hb ->.
  pose proof (Z.div_mul q b ltac:(lia)) as Hq.
  pose proof (Z.mod_mul q b ltac:(lia)) as Hr.
  rewrite (Z.mul_comm q b) in Hq, Hr. unfold Z.div in Hq. unfold Z.modulo in Hr.
  destruct (Z.div_eucl (b * q) b) as [q' r']. congruence.
Qed.

Lemma float_div_1_r (x : float) : (x / 1)%float = x.
Proof.
  apply Prim2SF_inj. rewrite div_spec.
  change (Prim2SF 1) with (S754_finite false 4503599627370496 (-52)).
  pose proof (Prim2SF_valid x) as Hv.
  destruct (Prim2SF x) as [sx|sx| |sx mx ex]; cbn [SF64div SFdiv];
    rewrite ?xorb_false_r; try reflexivity.
  pose proof Hv as Hb. unfold valid_binary, SpecFloat.valid_binary, bounded, canonical_mantissa in Hb.
  apply andb_prop in Hb as [Hc He]. apply Z.eqb_eq in Hc. apply Z.leb_le in He.
  unfold fexp, SpecFloat.emin in Hc. change prec with 53 in *. change emax with 1024 in *.
  unfold SFdiv_core_binary.
  cbn [Zdigits2]. change (Z.pos (digits2_pos 4503599627370496)) with 53.
  set (d1 := Z.pos (digits2_pos mx)) in *.
  unfold fexp, SpecFloat.emin.
  destruct (Z.eq_dec ex (-1074)) as [->|Hne].
  - (* subnormal exponent *)
    replace (Z.min (Z.max (d1 + -1074 - (53 + -52) - 53) (3 - 1024 - 53)) (-1074 - -52)) with (-1074) by lia.
    change (-1074 - -52 - -1074) with 52. cbv iota.
    rewrite (div_eucl_exact (Z.shiftl (Z.pos mx) 52) 4503599627370496 (Z.pos mx)); [|lia|].
    + change (new_location 4503599627370496 0) with loc_Exact.
      apply (binary_round_aux_shift 53 1024 sx mx (-1074) 0). exact Hv.
    + rewrite Z.shiftl_mul_pow2 by lia. lia.
  - replace (Z.min (Z.max (d1 + ex - (53 + -52) - 53) (3 - 1024 - 53)) (ex - -52)) with (ex - 1) by lia.
    replace (ex - -52 - (ex - 1)) with 53 by lia. cbv iota.
    rewrite (div_eucl_exact (Z.shiftl (Z.pos mx) 53) 4503599627370496 (Z.pos (mx~0))); [|lia|].
    + change (new_location 4503599627370496 0) with loc_Exact.
      apply (binary_round_aux_shift 53 1024 sx mx ex 1). exact Hv.
    + rewrite Z.shiftl_mul_pow2 by lia. lia.
Qed.

(** *** Results of rounding: sign, exponent, no underflow to zero *)

Lemma shr_m_positive (n : nat) (m : positive) (r s : bool) :
  (n < Pos.to_nat (digits2_pos m))%nat ->
  exists q, shr_m (Nat.iter n shr_1 {| shr_m := Zpos m; shr_r := r; shr_s := s |})
            = Zpos q.
Proof.
  revert m r s. induction n as [|n IH]; intros m r s Hn; [now exists m|].
  rewrite Nat.iter_succ_r.
  destruct m as [p|p|]; cbn [shr_1 digits2_pos] in *.
  - apply IH. rewrite Pos2Nat.inj_succ in Hn. lia.
  - apply IH. rewrite Pos2Nat.inj_succ in Hn. lia.
  - rewrite Pos2Nat.inj_1 in Hn. lia.
Qed.

Lemma shr_fexp_positive (m : positive) (e : Z) (l : location) :
  -1074 <= e ->
  exists q e', shr_fexp 53 1024 (Zpos m) e l = (q, e') /\ e <= e' /\
               exists p, shr_m q = Zpos p.
Proof.
  intros He. unfold shr_fexp, shr. cbn [Zdigits2].
  set (d := Z.pos (digits2_pos m)).
  assert (Hn : fexp 53 1024 (d + e) - e < d).
  { unfold fexp, SpecFloat.emin. lia. }
  destruct (fexp 53 1024 (d + e) - e) as [|p|p] eqn:Hshift.
  - do 2 eexists. split; [reflexivity|]. split; [lia|].
    destruct l as [|[]]; now exists m.
  - do 2 eexists. split; [reflexivity|]. split; [lia|].
    rewrite iter_pos_nat.
    destruct l as [|[]]; apply shr_m_positive; unfold d in Hn; lia.
  - do 2 eexists. split; [reflexivity|]. split; [lia|].
    destruct l as [|[]]; now exists m.
Qed.

Lemma round_nearest_even_positive (p : positive) (l : location) :
  exists q, round_nearest_even (Zpos p) l = Zpos q.
Proof.
  destruct l as [|[]]; cbn [round_nearest_even];
    try destruct (Z.even _); try (now exists p); now exists (p + 1)%positive.
Qed.

(** From an exponent not below the least one, rounding a positive
    mantissa gives a finite number of the same sign and an exponent not
    below, or an infinity. *)
Lemma binary_round_aux_finite (s : bool) (m : positive) (e : Z) (l : location) :
  -1074 <= e ->
  (exists m' e', binary_round_aux 53 1024 s (Zpos m) e l = S754_finite s m' e'
                 /\ e <= e') \/
  binary_round_aux 53 1024 s (Zpos m) e l = S754_infinity s.
Proof.
  intros He. unfold binary_round_aux.
  destruct (shr_fexp_positive m e l He) as (q1 & e1 & -> & He1 & p1 & Hp1).
  rewrite Hp1.
  destruct (round_nearest_even_positive p1 (loc_of_shr_record q1)) as [p2 ->].
  destruct (shr_fexp_positive p2 e1 loc_Exact ltac:(lia))
    as (q3 & e3 & -> & He3 & p3 & ->).
  destruct (e3 <=? 1024 - 53); [left|now right].
  exists p3, e3. split; [reflexivity | lia].
Qed.

Lemma binary_round_finite (s : bool) (m : positive) (e : Z) :
  -1074 <= e ->
  (exists m' e', binary_round 53 1024 s m e = S754_finite s m' e'
                 /\ e - 52 <= e') \/
  binary_round 53 1024 s m e = S754_infinity s.
Proof.
  intros He. unfold binary_round, shl_align.
  set (d := Z.pos (digits2_pos m)).
  assert (Hf : -1074 <= fexp 53 1024 (d + e) /\ e - 52 <= fexp 53 1024 (d + e)).
  { unfold fexp, SpecFloat.emin. lia. }
  destruct (fexp 53 1024 (d + e) - e) as [|p|p] eqn:Hshift.
  - destruct (binary_round_aux_finite s m e loc_Exact He)
      as [(m' & e' & -> & He') | ->]; [left|now right].
    exists m', e'. split; [reflexivity | lia].
  - destruct (binary_round_aux_finite s m e loc_Exact He)
      as [(m' & e' & -> & He') | ->]; [left|now right].
    exists m', e'. split; [reflexivity | lia].
  - destruct (binary_round_aux_finite s (Pos.iter xO m p)
                (fexp 53 1024 (d + e)) loc_Exact ltac:(lia))
      as [(m' & e' & -> & He') | ->]; [left|now right].
    exists m', e'. split; [reflexivity | lia].
Qed.

Lemma binary_round_aux_zero_sign (s s' : bool) (m e : Z) (l : location) :
  binary_round_aux 53 1024 s m e l = S754_zero s' -> s' = s.
Proof.
  unfold binary_round_aux.
  destruct (shr_fexp 53 1024 m e l) as [q1 e1].
  destruct (shr_fexp 53 1024 _ e1 loc_Exact) as [q2 e2].
  destruct (shr_m q2); [congruence | destruct (_ <=? _); discriminate
                       | discriminate].
Qed.

Lemma pos_iter_xO_ge (p d : positive) : 2 * Zpos p <= Zpos (Pos.iter xO p d).
Proof.
  induction d as [|d IH] using Pos.peano_ind.
  - simpl. lia.
  - rewrite Pos.iter_succ. lia.
Qed.

Lemma bounded_facts (m : positive) (e : Z) :
  bounded 53 1024 m e = true ->
  -1074 <= e <= 971 /\ Zpos m < 2 ^ 53 /\
  (-1074 < e -> Zpos (digits2_pos m) = 53).
Proof.
  intros Hb. unfold bounded, canonical_mantissa in Hb.
  apply andb_prop in Hb as [Hc He]. apply Z.eqb_eq in Hc. apply Z.leb_le in He.
  unfold fexp, SpecFloat.emin in Hc.
  assert (Hd : Zpos (digits2_pos m) <= 53) by lia.
  split; [lia|]. split; [|lia].
  pose proof (Pos.size_gt m) as Hsize. rewrite <- digits2_pos_size in Hsize.
  apply Pos2Z.pos_lt_pos in Hsize. rewrite Pos2Z.inj_pow in Hsize.
  pose proof (Z.pow_le_mono_r 2 (Zpos (digits2_pos m)) 53 ltac:(lia) Hd). lia.
Qed.

(** [x + 1] is never the negative zero, and when negative its exponent
    is far above the least one. *)
Lemma add_one_cases (x : spec_float) :
  valid_binary x = true ->
  SF64add x IEEE.one <> S754_zero true /\
  forall mr er, SF64add x IEEE.one = S754_finite true mr er -> -104 <= er.
Proof.
  intros Hv. destruct x as [sx|sx| |sx mx ex]; cbn [SF64add SFadd IEEE.one];
    try (split; [discriminate | intros mr er [=]]).
  destruct (bounded_facts mx ex Hv) as (Hex & Hmx & _).
  unfold SF64add, SFadd, IEEE.one.
  set (ez := Z.min ex (-52)).
  set (M := cond_Zopp sx (Z.pos (fst (shl_align mx ex ez))) +
            cond_Zopp false (Z.pos (fst (shl_align 4503599627370496 (-52) ez)))).
  assert (HM : M < 0 -> ez = -52).
  { intros HM. destruct (Z.lt_ge_cases ex (-52)) as [Hlt|Hge]; [|lia].
    exfalso. unfold M, shl_align in HM.
    replace ez with ex in HM by lia. rewrite Z.sub_diag in HM.
    destruct (ex - -52) as [|d|d] eqn:Hd; try lia.
    cbn [fst cond_Zopp] in HM.
    pose proof (pos_iter_xO_ge 4503599627370496 d).
    destruct sx; cbn [cond_Zopp] in HM; lia. }
  unfold binary_normalize. change prec with 53. change emax with 1024.
  destruct M as [|p|p].
  - split; [discriminate | intros mr er [=]].
  - destruct (binary_round_finite false p ez ltac:(lia))
      as [(m' & e' & -> & He') | ->];
      (split; [discriminate | intros mr er [=]]).
  - destruct (binary_round_finite true p ez ltac:(lia))
      as [(m' & e' & -> & He') | ->].
    + split; [discriminate|]. intros mr er [= _ <-]. lia.
    + split; [discriminate | intros mr er [=]].
Qed.

Lemma div_two_normal (mr : positive) (er : Z) :
  bounded 53 1024 mr er = true -> -104 <= er ->
  SF64div (S754_finite true mr er) IEEE.two = S754_finite true mr (er - 1).
Proof.
  intros Hb Her. destruct (bounded_facts mr er Hb) as (Hex & _ & Hd).
  specialize (Hd ltac:(lia)).
  unfold SF64div, SFdiv, IEEE.two, SFdiv_core_binary.
  change prec with 53. change emax with 1024.
  cbn [Zdigits2 xorb]. rewrite Hd.
  change (Z.pos (digits2_pos 4503599627370496)) with 53.
  unfold fexp, SpecFloat.emin.
  replace (Z.min (Z.max (53 + er - (53 + -51) - 53) (3 - 1024 - 53)) (er - -51))
    with (er - 2) by lia.
  replace (er - -51 - (er - 2)) with 53 by lia. cbv iota.
  rewrite (div_eucl_exact (Z.shiftl (Z.pos mr) 53) 4503599627370496
             (Z.pos (mr~0))); [|lia|].
  - change (new_location 4503599627370496 0) with loc_Exact.
    replace (er - 2) with (er - 1 - Z.of_nat 1) by lia.
    apply (binary_round_aux_shift 53 1024 true mr (er - 1) 1).
    unfold bounded, canonical_mantissa. rewrite Hd.
    unfold fexp, SpecFloat.emin.
    apply andb_true_intro. split; [apply Z.eqb_eq | apply Z.leb_le]; lia.
  - rewrite Z.shiftl_mul_pow2 by lia. lia.
Qed.

(** [(a + 1) / 2], the last operation of both noise functions, is never
    the negative zero. *)
Lemma add_one_halved_not_neg_zero (a : float) :
  Prim2SF ((a + 1) / 2) <> S754_zero true.
Proof.
  rewrite div_spec.
  change (Prim2SF 2) with IEEE.two.
  pose proof (Prim2SF_valid (a + 1)) as Hv.
  pose proof (add_one_cases (Prim2SF a) (Prim2SF_valid a)) as [Hnz Hexp].
  rewrite add_spec in Hv |- *. change (Prim2SF 1) with IEEE.one in *.
  destruct (SF64add (Prim2SF a) IEEE.one) as [s|s| |s mr er] eqn:Hr.
  - destruct s; [congruence | discriminate].
  - discriminate.
  - discriminate.
  - destruct s.
    + rewrite (div_two_normal mr er Hv (Hexp mr er eq_refl)). discriminate.
    + cbn [SF64div SFdiv IEEE.two xorb].
      destruct (SFdiv_core_binary _ _ _ _ _ _) as [[mz ez] lz].
      intros Hz%binary_round_aux_zero_sign. discriminate.
Qed.

Lemma float_add_0_l (v : float) :
  Prim2SF v <> S754_zero true -> (0 + v)%float = v.
Proof.
  intros Hv. apply Prim2SF_inj. rewrite add_spec.
  change (Prim2SF 0) with (S754_zero false).
  destruct (Prim2SF v) as [[]| | |]; cbn [SF64add SFadd]; congruence.
Qed.

Lemma fbm_identity (v : float) :
  Prim2SF v ≠ S754_zero true → ((#0 + v * #1) / (#0 + #1))%F = v.
Proof.
  intros Hv. change ((0 + v * 1) / 1 = v)%float.
  by rewrite float_mul_1_r, float_div_1_r, float_add_0_l.
Qed.

Lemma fbm_one_octave (noise2D : float → float → result float)
    (x y persistence lacunarity : float) :
  (∀ a b v, noise2D a b = Ok v → Prim2SF v ≠ S754_zero true) →
  fbm noise2D x y 1 persistence lacunarity = noise2D x y.
Proof.
  intros Hnz. unfold fbm. change (Z.to_nat 1) with 1%nat. cbn [octaves_loop].
  change (x * #1)%F with (x * 1)%float. change (y * #1)%F with (y * 1)%float.
  rewrite !float_mul_1_r.
  destruct (noise2D x y) as [v|e] eqn:Hv; [|done].
  rewrite !bind_Ok. cbn [fst snd]. unfold mret, result_ret. f_equal.
  apply fbm_identity. by eapply Hnz.
Qed.

Lemma perlin_noise_not_neg_zero (e : PerlinNoise.t) (x y z v : float) :
  PerlinNoise.noise e x y z = Ok v → Prim2SF v ≠ S754_zero true.
Proof.
  unfold PerlinNoise.noise. intros Hv. cbv zeta in Hv.
  repeat (apply bind_inv in Hv as (? & _ & Hv)).
  injection Hv as <-. apply add_one_halved_not_neg_zero.
Qed.

Lemma simplex_noise_not_neg_zero (e : SimplexNoise.t) (x y v : float) :
  SimplexNoise.noise2D e x y = Ok v → Prim2SF v ≠ S754_zero true.
Proof.
  unfold SimplexNoise.noise2D. intros Hv. cbv zeta in Hv.
  do 3 (apply bind_inv in Hv as (? & _ & Hv)).
  destruct (_ <? _)%F;
    repeat (apply bind_inv in Hv as (? & _ & Hv));
    injection Hv as <-; apply add_one_halved_not_neg_zero.
Qed.

(** C8: with one octave either compositor returns what its noise
    function returns at (x, y), for Perlin the value at (x, y, 0): the
    same value to the bit, or the same failure. *)
Theorem fbm_single_octave_is_noise (shuffle : Z → list Z → list Z)
    (x y persistence lacunarity : float) (seed : Z) :
  generatePerlinFBM shuffle x y 1 persistence lacunarity seed
  = PerlinNoise.noise2D (PerlinNoise.new shuffle seed) x y ∧
  PerlinNoise.noise2D (PerlinNoise.new shuffle seed) x y
  = PerlinNoise.noise (PerlinNoise.new shuffle seed) x y 0%float ∧
  generateSimplexFBM shuffle x y 1 persistence lacunarity seed
  = (SimplexNoise.new shuffle seed ≫= λ e, SimplexNoise.noise2D e x y).
Proof.
  split; [|split].
  - unfold generatePerlinFBM. apply fbm_one_octave.
    intros a b v. apply perlin_noise_not_neg_zero.
  - reflexivity.
  - unfold generateSimplexFBM.
    destruct (SimplexNoise.new shuffle seed) as [e|er]; [|done].
    rewrite !bind_Ok. apply fbm_one_octave.
    intros a b v. apply simplex_noise_not_neg_zero.
Qed.

(** ** Normalization in binary32 *)

Lemma binary32_sub_self (v : spec_float) :
  (v - v)%F = S754_zero false ∨ (v - v)%F = S754_nan.
Proof.
  destruct v as [[]|[]| |s m e]; cbn; auto.
  left. unfold SFsub. by rewrite Z.sub_diag.
Qed.

(** The range of a grid of equal heights is never above the epsilon. *)
Lemma binary32_epsilon_not_below (v : spec_float) :
  (DS.epsilon <? v - v)%F = false.
Proof. by destruct (binary32_sub_self v) as [-> | ->]. Qed.

(** A finite number divided by itself is 1. *)
Lemma binary32_div_self (s : bool) (m : positive) (e : Z) :
  (S754_finite s m e / S754_finite s m e)%F = S754_finite false 8388608 (-23).
Proof.
  change (SFdiv 24 128 (S754_finite s m e) (S754_finite s m e)
          = S754_finite false 8388608 (-23)).
  cbn [SFdiv]. rewrite xorb_nilpotent. unfold SFdiv_core_binary.
  rewrite !Z.sub_diag.
  change (Z.min (fexp 24 128 0) 0) with (-24).
  change (0 - -24) with 24. cbv iota.
  rewrite (div_eucl_exact (Z.shiftl (Z.pos m) 24) (Z.pos m) 16777216); [|lia|].
  - assert (new_location (Z.pos m) 0 = loc_Exact) as ->.
    { unfold new_location. by destruct (Z.even _). }
    apply (binary_round_aux_shift 24 128 false 8388608 (-23) 1). reflexivity.
  - rewrite Z.shiftl_mul_pow2 by lia. lia.
Qed.

(** A finite range has a finite least height. *)
Lemma binary32_range_finite (mx mn : spec_float) :
  (∃ s m e, (mx - mn)%F = S754_finite s m e) →
  (mn - mn)%F = S754_zero false.
Proof.
  intros (s & m & e & Heq).
  destruct (binary32_sub_self mn) as [-> | Hnan]; [done|].
  exfalso. change (SFsub 24 128 mn mn = S754_nan) in Hnan.
  change (SFsub 24 128 mx mn = S754_finite s m e) in Heq.
  destruct mn as [[]|[]| |sn mn en]; cbn in Hnan; try discriminate.
  - destruct mx as [[]|[]| |sx mx ex]; cbn in Heq; discriminate.
  - destruct mx as [[]|[]| |sx mx ex]; cbn in Heq; discriminate.
  - destruct mx as [[]|[]| |sx mx ex]; cbn in Heq; discriminate.
  - unfold SFsub in Hnan. rewrite Z.sub_diag in Hnan. discriminate.
Qed.

Lemma binary32_above_epsilon (s : bool) (m : positive) (e : Z) :
  (DS.epsilon <? S754_finite s m e)%F = true → s = false.
Proof. destruct s; [|done]. vm_compute. discriminate. Qed.

(** [minVal] and [maxVal] are heights of the grid, in any arithmetic. *)
Lemma min_max_cells {F : Type} `{Arith F} {RNG : Type} n (d : @DS.t F RNG) :
  DS.keeps n d → 1 ≤ n →
  ∃ mn mx, DS.min_max d = Ok (mn, mx) ∧
    (∃ x y, DS.inside d x y = true ∧ DS.cell d x y = mn) ∧
    (∃ x y, DS.inside d x y = true ∧ DS.cell d x y = mx).
Proof.
  intros [Hwf Hn] Hn1. unfold DS.min_max.
  rewrite (get2_cell d 0 0) by (done || apply inside_bounds; lia).
  rewrite bind_Ok, Hn.
  set (is_cell v := ∃ x y, DS.inside d x y = true ∧ DS.cell d x y = v).
  assert (Hcell0 : is_cell (DS.cell d 0 0)).
  { exists 0, 0. split; [apply inside_bounds; lia | done]. }
  destruct (forM_invariant (λ acc : F * F, is_cell acc.1 ∧ is_cell acc.2)
    (loop_range 0 n 1)
    (λ y, forM (loop_range 0 n 1) (λ x acc,
       h ← DS.get2 (DS.heightmap d) x y;
       mret (DS.fmin acc.1 h, DS.fmax acc.2 h)))
    (DS.cell d 0 0, DS.cell d 0 0)) as ([mn mx] & -> & Hmn & Hmx).
  - done.
  - intros y acc Hy%loop_range_bounds Hacc; [|lia].
    apply (forM_invariant (λ acc : F * F, is_cell acc.1 ∧ is_cell acc.2));
      [done|].
    intros x [a b] Hx%loop_range_bounds [Ha Hb]; [|lia].
    assert (Hin : DS.inside d x y = true) by (apply inside_bounds; lia).
    rewrite (get2_cell d x y) by done. rewrite bind_Ok.
    eexists. split; [done|]. simpl in *. split.
    + unfold DS.fmin. destruct (_ <? _)%F; [by exists x, y | done].
    + unfold DS.fmax. destruct (_ <? _)%F; [by exists x, y | done].
  - by exists mn, mx.
Qed.

Module B32.



Local Abbreviation nonneg32 := (nonneg_float Binary32.prec Binary32.emax).






Section Grid.
Context {RNG : Type}.
Local Abbreviation t := (@DS.t spec_float RNG).



End Grid.
End B32.




(** A finite range does not make the heights finite: [std::min] and
    [std::max] pass over a NaN.  With roughness -200 and seed 4609 every
    draw of the second round is positive, the sixteen heights of that
    round are NaN ([inf - inf]) and the nine older ones are finite; the
    range of these is finite and above the epsilon, and the sixteen are
    still NaN in the grid returned. *)
Lemma finite_range_keeps_nan_heights :
  ∃ pre mn mx post,
    (DS.new Ref.engine 5 4609 ≫= λ d0,
       DS.rounds Ref.uniform Terrain.to_double Terrain.to_float Ref.pow d0
         (#(-200))%F false) = Ok pre ∧
    DS.min_max pre = Ok (mn, mx) ∧
    (DS.epsilon <? mx - mn)%F = true ∧ finite32 (mx - mn)%F = true ∧
    DS.normalize pre = Ok post ∧
    DS.inside post 1 1 = true ∧ DS.cell post 1 1 = S754_nan.
Proof.
  do 4 eexists. split; [vm_compute; reflexivity|].
  split; [vm_compute; reflexivity|].
  split; [vm_compute; reflexivity|].
  split; [vm_compute; reflexivity|].
  split; [vm_compute; reflexivity|].
  split; vm_compute; reflexivity.
Qed.

(** * Further properties *)

(** ** The engines: every table read is inside the table *)

Lemma land_255 (i : Z) : 0 ≤ Z.land i 255 < 256.
Proof.
  change 255 with (Z.ones 8). rewrite Z.land_ones by lia.
  apply Z.mod_pos_bound. lia.
Qed.

Lemma Ok_inj {A} (a b : A) : Ok a = Ok b → a = b.
Proof. by intros [= ->]. Qed.

Section Lookups.
Variable shuffle : Z → list Z → list Z.
Hypothesis shuffle_perm : ∀ seed l, shuffle seed l ≡ₚ l.

(** Every entry of the base permutation is one of 0..255. *)
Lemma base_lookup seed i :
  0 ≤ i < 256 →
  ∃ v, shuffle seed (iota 256) !! Z.to_nat i = Some v ∧ 0 ≤ v < 256.
Proof.
  intros Hi.
  destruct (lookup_lt_is_Some_2 (shuffle seed (iota 256)) (Z.to_nat i))
    as [v Hv]; [rewrite base_length by done; lia|].
  exists v. split; [done|].
  apply list_elem_of_lookup_2 in Hv. rewrite shuffle_perm in Hv.
  by apply (elem_of_iota 256) in Hv.
Qed.

Lemma perlin_lookup seed i :
  0 ≤ i < 512 →
  ∃ v, at_ (PerlinNoise.p (PerlinNoise.new shuffle seed)) i = Ok v ∧
       0 ≤ v < 256.
Proof.
  intros Hi. unfold PerlinNoise.new. simpl.
  destruct (decide (i < 256)) as [Hlt|Hge].
  - destruct (base_lookup seed i) as (v & Hv & Hr); [lia|].
    exists v. split; [|done]. apply at_lookup. split; [lia|].
    rewrite lookup_app_l; [done|]. rewrite base_length by done. lia.
  - destruct (base_lookup seed (i - 256)) as (v & Hv & Hr); [lia|].
    exists v. split; [|done]. apply at_lookup. split; [lia|].
    rewrite lookup_app_r by (rewrite base_length by done; lia).
    rewrite base_length by done.
    by replace (Z.to_nat i - 256)%nat with (Z.to_nat (i - 256)) by lia.
Qed.

Lemma simplex_lookup seed e i :
  SimplexNoise.new shuffle seed = Ok e → 0 ≤ i < 512 →
  ∃ v, at_ (SimplexNoise.perm e) i = Ok v ∧ 0 ≤ v < 256.
Proof.
  intros He Hi.
  destruct (simplex_new shuffle shuffle_perm seed) as (e' & He' & Hperm).
  rewrite He in He'. apply Ok_inj in He'. subst e'.
  pose proof (land_255 i) as Hl.
  destruct (base_lookup seed (Z.land i 255)) as (v & Hv & Hr); [done|].
  exists v. split; [|done]. apply at_lookup. split; [lia|].
  rewrite Hperm, list_lookup_fmap.
  assert (iota 512 !! Z.to_nat i = Some i) as ->.
  { unfold iota. rewrite list_lookup_fmap, lookup_seq_lt by lia.
    simpl. f_equal. lia. }
  simpl. by rewrite Hv.
Qed.

(** Once its three conversions are done, [noise] reads the table at
    indices below 512 only. *)
Lemma perlin_noise_total {F : Type} `{Arith F} (seed : Z) (x y z : F)
    (X Y Z : Z) :
  to_int (ffloor x) = Ok X → to_int (ffloor y) = Ok Y →
  to_int (ffloor z) = Ok Z →
  ∃ v, PerlinNoise.noise (PerlinNoise.new shuffle seed) x y z = Ok v.
Proof.
  intros HX HY HZ. unfold PerlinNoise.noise.
  rewrite HX, HY, HZ, !bind_Ok. cbv zeta.
  pose proof (land_255 X) as HX'. pose proof (land_255 Y) as HY'.
  pose proof (land_255 Z) as HZ'.
  destruct (perlin_lookup seed (Z.land X 255))
    as (pX & -> & HpX); [lia|]. rewrite bind_Ok.
  destruct (perlin_lookup seed (pX + Z.land Y 255))
    as (pA & -> & HpA); [lia|]. rewrite bind_Ok.
  destruct (perlin_lookup seed (pX + Z.land Y 255 + 1))
    as (pA1 & -> & HpA1); [lia|]. rewrite bind_Ok.
  destruct (perlin_lookup seed (Z.land X 255 + 1))
    as (pX1 & -> & HpX1); [lia|]. rewrite bind_Ok.
  destruct (perlin_lookup seed (pX1 + Z.land Y 255))
    as (pB & -> & HpB); [lia|]. rewrite bind_Ok.
  destruct (perlin_lookup seed (pX1 + Z.land Y 255 + 1))
    as (pB1 & -> & HpB1); [lia|]. rewrite bind_Ok.
  destruct (perlin_lookup seed (pA + Z.land Z 255))
    as (pAA & -> & _); [lia|]. rewrite bind_Ok.
  destruct (perlin_lookup seed (pB + Z.land Z 255))
    as (pBA & -> & _); [lia|]. rewrite bind_Ok.
  destruct (perlin_lookup seed (pA1 + Z.land Z 255))
    as (pAB & -> & _); [lia|]. rewrite bind_Ok.
  destruct (perlin_lookup seed (pB1 + Z.land Z 255))
    as (pBB & -> & _); [lia|]. rewrite bind_Ok.
  destruct (perlin_lookup seed (pA + Z.land Z 255 + 1))
    as (pAA1 & -> & _); [lia|]. rewrite bind_Ok.
  destruct (perlin_lookup seed (pB + Z.land Z 255 + 1))
    as (pBA1 & -> & _); [lia|]. rewrite bind_Ok.
  destruct (perlin_lookup seed (pA1 + Z.land Z 255 + 1))
    as (pAB1 & -> & _); [lia|]. rewrite bind_Ok.
  destruct (perlin_lookup seed (pB1 + Z.land Z 255 + 1))
    as (pBB1 & -> & _); [lia|]. rewrite bind_Ok.
  by eexists.
Qed.

Lemma corner_defined {F : Type} `{Arith F} (t0 : F) (h : Z) (x0 y0 : F) :
  0 ≤ h < 256 → ∃ n, SimplexNoise.corner t0 (Z.rem h 12) x0 y0 = Ok n.
Proof.
  intros Hh. unfold SimplexNoise.corner.
  destruct (t0 <? #0)%F; [by eexists|].
  destruct (at_in_range SimplexNoise.grad3 (Z.rem h 12)) as [g ->].
  { pose proof (Z.rem_bound_pos h 12).
    change (length SimplexNoise.grad3) with 12%nat. lia. }
  rewrite bind_Ok. by eexists.
Qed.

(** Once the cell of the point is found, [noise2D] reads the table at
    indices below 512 and the gradients at indices below 12 only. *)
Lemma simplex_noise_total {F : Type} `{Arith F} (seed : Z)
    (e : SimplexNoise.t) (xin yin : F) (i j : Z) :
  SimplexNoise.new shuffle seed = Ok e →
  SimplexNoise.fastfloor (xin + (xin + yin) * SimplexNoise.F2)%F = Ok i →
  SimplexNoise.fastfloor (yin + (xin + yin) * SimplexNoise.F2)%F = Ok j →
  INT_MIN ≤ i + j ≤ INT_MAX →
  ∃ v, SimplexNoise.noise2D e xin yin = Ok v.
Proof.
  intros He Hi Hj Hij. unfold SimplexNoise.noise2D. cbv zeta.
  rewrite Hi, Hj, !bind_Ok.
  assert (int_of (i + j) = Ok (i + j)) as ->.
  { unfold int_of.
    destruct (Z.leb_spec INT_MIN (i + j)), (Z.leb_spec (i + j) INT_MAX);
      simpl; (done || lia). }
  rewrite bind_Ok.
  pose proof (land_255 i) as Hi'. pose proof (land_255 j) as Hj'.
  assert (Hij1 : ∃ i1 j1,
    (if (yin - (#j - #(i + j) * SimplexNoise.G2) <?
         xin - (#i - #(i + j) * SimplexNoise.G2))%F
     then (1, 0) else (0, 1)) = (i1, j1) ∧ 0 ≤ i1 ≤ 1 ∧ 0 ≤ j1 ≤ 1).
  { destruct (_ <? _)%F; do 2 eexists; (split; [done | lia]). }
  destruct Hij1 as (i1 & j1 & -> & Hi1 & Hj1).
  destruct (simplex_lookup seed e (Z.land j 255))
    as (pj0 & -> & Hp0); [done | lia |]. rewrite bind_Ok.
  destruct (simplex_lookup seed e (Z.land i 255 + pj0))
    as (h0 & -> & Hh0); [done | lia |]. rewrite bind_Ok.
  destruct (simplex_lookup seed e (Z.land j 255 + j1))
    as (pj1 & -> & Hp1); [done | lia |]. rewrite bind_Ok.
  destruct (simplex_lookup seed e (Z.land i 255 + i1 + pj1))
    as (h1 & -> & Hh1); [done | lia |]. rewrite bind_Ok.
  destruct (simplex_lookup seed e (Z.land j 255 + 1))
    as (pj2 & -> & Hp2); [done | lia |]. rewrite bind_Ok.
  destruct (simplex_lookup seed e (Z.land i 255 + 1 + pj2))
    as (h2 & -> & Hh2); [done | lia |]. rewrite bind_Ok.
  repeat match goal with
  | |- context [SimplexNoise.corner ?t (Z.rem ?h 12) ?x ?y] =>
      destruct (corner_defined t h x y ltac:(lia)) as [? ->]
  end.
  rewrite !bind_Ok. by eexists.
Qed.

End Lookups.

(** What [noise] needs to return. *)
Lemma perlin_noise_converts {F : Type} `{Arith F} (e : PerlinNoise.t)
    (x y z v : F) :
  PerlinNoise.noise e x y z = Ok v →
  ∃ X Y Z, to_int (ffloor x) = Ok X ∧ to_int (ffloor y) = Ok Y ∧
           to_int (ffloor z) = Ok Z.
Proof.
  unfold PerlinNoise.noise. intros Hv.
  destruct (to_int (ffloor x)) as [X|]; [|done].
  destruct (to_int (ffloor y)) as [Y|]; [|done].
  destruct (to_int (ffloor z)) as [Z|]; [|done].
  by exists X, Y, Z.
Qed.

Lemma simplex_noise_converts {F : Type} `{Arith F} (e : SimplexNoise.t)
    (xin yin v : F) :
  SimplexNoise.noise2D e xin yin = Ok v →
  ∃ i j,
    SimplexNoise.fastfloor (xin + (xin + yin) * SimplexNoise.F2)%F = Ok i ∧
    SimplexNoise.fastfloor (yin + (xin + yin) * SimplexNoise.F2)%F = Ok j ∧
    INT_MIN ≤ i + j ≤ INT_MAX.
Proof.
  unfold SimplexNoise.noise2D. cbv zeta. intros Hv.
  destruct (SimplexNoise.fastfloor (xin + _)%F) as [i|]; [|done].
  destruct (SimplexNoise.fastfloor (yin + _)%F) as [j|]; [|done].
  rewrite !bind_Ok in Hv. exists i, j. do 2 (split; [done|]).
  unfold int_of in Hv.
  destruct (Z.leb_spec INT_MIN (i + j)), (Z.leb_spec (i + j) INT_MAX);
    simpl in Hv; (done || lia).
Qed.

(** Perlin noise, for every seed and in every arithmetic: [noise]
    returns a value exactly when [(int)floor] is defined at its three
    coordinates.  None of the fourteen reads of the table leaves its 512
    entries: the conversions are the only undefined behaviour. *)
Theorem perlin_noise_reads_inside_table {F : Type} `{Arith F}
    (shuffle : Z → list Z → list Z) (seed : Z) (x y z : F) :
  (∀ seed l, shuffle seed l ≡ₚ l) →
  (∃ v, PerlinNoise.noise (PerlinNoise.new shuffle seed) x y z = Ok v) ↔
  (∃ X Y Z, to_int (ffloor x) = Ok X ∧ to_int (ffloor y) = Ok Y ∧
            to_int (ffloor z) = Ok Z).
Proof.
  intros Hperm. split.
  - intros [v Hv]. by eapply perlin_noise_converts.
  - intros (X & Y & Z & HX & HY & HZ). by eapply perlin_noise_total.
Qed.

Lemma perlin_noise_reads_inside_table_witness :
  (∀ seed l, Ref.shuffle seed l ≡ₚ l) ∧
  ∃ v : float,
    PerlinNoise.noise (PerlinNoise.new Ref.shuffle 0)
      0.5%float 1.25%float (-3)%float = Ok v.
Proof.
  split; [exact RefFacts.shuffle_perm|].
  apply (proj2 (perlin_noise_reads_inside_table Ref.shuffle 0
                  0.5%float 1.25%float (-3)%float RefFacts.shuffle_perm)).
  exists 0, 1, (-3). split; [reflexivity|]. split; reflexivity.
Defined.

(** Simplex noise, for every seed and in every arithmetic: the engine is
    built, and [noise2D] returns a value exactly when the two calls of
    [fastfloor] are defined and [i + j] is an [int].  The six reads of
    [perm] stay below 512 and the three of [grad3] below 12. *)
Theorem simplex_noise_reads_inside_table {F : Type} `{Arith F}
    (shuffle : Z → list Z → list Z) (seed : Z) (xin yin : F) :
  (∀ seed l, shuffle seed l ≡ₚ l) →
  ∃ e, SimplexNoise.new shuffle seed = Ok e ∧
    let s := ((xin + yin) * SimplexNoise.F2)%F in
    ((∃ v, SimplexNoise.noise2D e xin yin = Ok v) ↔
     (∃ i j, SimplexNoise.fastfloor (xin + s)%F = Ok i ∧
             SimplexNoise.fastfloor (yin + s)%F = Ok j ∧
             INT_MIN ≤ i + j ≤ INT_MAX)).
Proof.
  intros Hperm.
  destruct (simplex_new shuffle Hperm seed) as (e & He & _).
  exists e. split; [done|]. intros s. split.
  - intros [v Hv]. by eapply simplex_noise_converts.
  - intros (i & j & Hi & Hj & Hij). by eapply simplex_noise_total.
Qed.

Lemma simplex_noise_reads_inside_table_witness :
  (∀ seed l, Ref.shuffle seed l ≡ₚ l) ∧
  ∃ e, SimplexNoise.new Ref.shuffle 0 = Ok e ∧
       ∃ v : float, SimplexNoise.noise2D e 0.5%float 1.25%float = Ok v.
Proof.
  split; [exact RefFacts.shuffle_perm|].
  destruct (simplex_noise_reads_inside_table Ref.shuffle 0
              0.5%float 1.25%float RefFacts.shuffle_perm) as (e & He & Hiff).
  exists e. split; [exact He|].
  apply (proj2 Hiff). exists 1, 1.
  split; [reflexivity|]. split; [reflexivity|]. split; discriminate.
Defined.

(** ** Perlin noise on the lattice *)

(** [x - x] is the positive zero for every [x] that converts to an int. *)
Lemma float_sub_self (x : float) (X : Z) :
  IEEE.trunc x = Ok X → (x - x)%float = 0%float.
Proof.
  intros HX. apply Prim2SF_inj. rewrite sub_spec.
  change (Prim2SF 0) with (S754_zero false).
  unfold IEEE.trunc in HX.
  destruct (Prim2SF x) as [[]|?| |s m e]; try done.
  cbn [SF64sub SFsub]. by rewrite Z.sub_diag.
Qed.

Lemma grad_small (h : Z) (x y z : float) :
  corner_offset x → corner_offset y → corner_offset z →
  small (PerlinNoise.grad h x y z).
Proof.
  intros [-> | ->] [-> | ->] [-> | ->]; unfold PerlinNoise.grad; cbv zeta;
    repeat match goal with
           | |- context [if ?b then _ else _] => destruct b
           end; unfold small; one_of.
Qed.

Lemma grad_zero (h : Z) : is_zero (PerlinNoise.grad h 0%float 0%float 0%float).
Proof.
  unfold PerlinNoise.grad; cbv zeta;
    repeat match goal with
           | |- context [if ?b then _ else _] => destruct b
           end; unfold is_zero; one_of.
Qed.

Lemma lerp_0_small (a b : float) :
  small a → small b → small (PerlinNoise.lerp 0%float a b).
Proof.
  intros Ha Hb. unfold small in *.
  destruct Ha as [-> | [-> | [-> | [-> | [-> | ->]]]]];
    destruct Hb as [-> | [-> | [-> | [-> | [-> | ->]]]]]; one_of.
Qed.

Lemma lerp_0_zero (a b : float) :
  is_zero a → small b → is_zero (PerlinNoise.lerp 0%float a b).
Proof.
  intros Ha Hb. unfold small, is_zero in *.
  destruct Ha as [-> | ->];
    destruct Hb as [-> | [-> | [-> | [-> | [-> | ->]]]]]; one_of.
Qed.

(** At a point of integral coordinates every offset is 0 or -1, every
    fade weight is 0, and the blend is the gradient value at the first
    corner: a zero. *)
Lemma noise_lattice (e : PerlinNoise.t) (x y z v : float) :
  IEEE.floor x = x → IEEE.floor y = y → IEEE.floor z = z →
  PerlinNoise.noise e x y z = Ok v → v = 0.5%float.
Proof.
  intros Hx Hy Hz. unfold PerlinNoise.noise.
  change (ffloor x) with (IEEE.floor x). change (ffloor y) with (IEEE.floor y).
  change (ffloor z) with (IEEE.floor z). rewrite Hx, Hy, Hz.
  change (@to_int float binary64) with IEEE.trunc.
  destruct (IEEE.trunc x) as [X'|] eqn:HX; [|done].
  destruct (IEEE.trunc y) as [Y'|] eqn:HY; [|done].
  destruct (IEEE.trunc z) as [Z'|] eqn:HZ; [|done].
  rewrite !bind_Ok. cbv zeta.
  change (@fsub float binary64) with PrimFloat.sub.
  rewrite (float_sub_self x X' HX), (float_sub_self y Y' HY),
    (float_sub_self z Z' HZ).
  intros Hv. repeat (apply bind_inv in Hv as (? & _ & Hv)).
  apply Ok_inj in Hv. subst v.
  change (PerlinNoise.fade 0%float) with 0%float.
  change (PrimFloat.sub 0 (@of_int float binary64 1)) with (-1)%float.
  match goal with
  | |- ((?r + _) / _)%F = _ => assert (Hr : is_zero r)
  end.
  { repeat first
      [ apply lerp_0_zero | apply lerp_0_small | apply grad_zero
      | apply grad_small | by left | by right ]. }
  destruct Hr as [-> | ->]; reflexivity.
Qed.

(** Perlin noise in binary64 is exactly 0.5 at every point whose three
    coordinates are integers (in the range of [int]), whatever the seed:
    sampled on the integer lattice the noise field is constant. *)
Theorem perlin_noise_at_lattice_points (shuffle : Z → list Z → list Z)
    (seed : Z) (x y z : float) :
  (∀ seed l, shuffle seed l ≡ₚ l) →
  IEEE.floor x = x → IEEE.floor y = y → IEEE.floor z = z →
  (∃ X Y Z, IEEE.trunc x = Ok X ∧ IEEE.trunc y = Ok Y ∧ IEEE.trunc z = Ok Z) →
  PerlinNoise.noise (PerlinNoise.new shuffle seed) x y z = Ok 0.5%float.
Proof.
  intros Hperm Hx Hy Hz (X & Y & Z & HX & HY & HZ).
  destruct (perlin_noise_total shuffle Hperm seed x y z X Y Z) as [v Hv].
  - change (IEEE.trunc (IEEE.floor x) = Ok X). by rewrite Hx.
  - change (IEEE.trunc (IEEE.floor y) = Ok Y). by rewrite Hy.
  - change (IEEE.trunc (IEEE.floor z) = Ok Z). by rewrite Hz.
  - rewrite Hv. f_equal. exact (noise_lattice _ x y z v Hx Hy Hz Hv).
Qed.

Lemma perlin_noise_at_lattice_points_witness :
  (∀ seed l, Ref.shuffle seed l ≡ₚ l) ∧
  PerlinNoise.noise (PerlinNoise.new Ref.shuffle 7) 3%float (-7)%float 0%float
  = Ok 0.5%float.
Proof.
  split; [exact RefFacts.shuffle_perm|].
  apply (perlin_noise_at_lattice_points Ref.shuffle 7 3%float (-7)%float
           0%float RefFacts.shuffle_perm); try reflexivity.
  exists 3, (-7), 0. split; [reflexivity|]. split; reflexivity.
Defined.

(** ** fBM: when the compositors return *)

Section Defined.
Context {F : Type} `{Arith F}.

(** The loop of a compositor returns iff each of its noise calls does. *)
Lemma octaves_loop_defined (noise2D : F → F → result F) (n : nat)
    (x y persistence lacunarity total frequency amplitude maxValue : F) :
  (∃ r, octaves_loop noise2D n x y persistence lacunarity
          total frequency amplitude maxValue = Ok r) ↔
  (∀ i : nat, (i < n)%nat →
     ∃ v, noise2D (x * Nat.iter i (λ f, f * lacunarity) frequency)%F
                  (y * Nat.iter i (λ f, f * lacunarity) frequency)%F = Ok v).
Proof.
  revert total frequency amplitude maxValue.
  induction n as [|n IH]; intros total frequency amplitude maxValue.
  - split; [intros _ i Hi; lia | intros _; by eexists].
  - cbn [octaves_loop]. split.
    + intros [r Hr]. apply bind_inv in Hr as (v & Hv & Hr).
      intros [|i] Hi; [by exists v|].
      rewrite Nat.iter_succ_r.
      eapply IH; [by exists r | lia].
    + intros Hall. destruct (Hall 0%nat) as [v Hv]; [lia|].
      simpl in Hv. rewrite Hv, bind_Ok. apply IH.
      intros i Hi. specialize (Hall (S i) ltac:(lia)).
      by rewrite Nat.iter_succ_r in Hall.
Qed.

Lemma fbm_defined (noise2D : F → F → result F) (x y : F) (octaves : Z)
    (persistence lacunarity : F) :
  (∃ v, fbm noise2D x y octaves persistence lacunarity = Ok v) ↔
  (∀ i : nat, (i < Z.to_nat octaves)%nat →
     ∃ v, noise2D (x * frequency_at lacunarity i)%F
                  (y * frequency_at lacunarity i)%F = Ok v).
Proof.
  unfold fbm, frequency_at. rewrite <- octaves_loop_defined. split.
  - intros [v Hv]. apply bind_inv in Hv as (r & Hr & _). by exists r.
  - intros [r ->]. rewrite bind_Ok. by eexists.
Qed.

End Defined.

(** fBM in binary64, for every seed, octave count, persistence and
    lacunarity: [generatePerlinFBM] returns a value exactly when
    [(int)floor] is defined at both scaled coordinates of every octave,
    [x * frequency] and [y * frequency], the frequency of octave [i]
    being 1 multiplied [i] times by the lacunarity; [generateSimplexFBM]
    exactly when, at those coordinates, both calls of [fastfloor] are
    defined and the sum of their results is an [int].  Persistence plays
    no part; a frequency grown past the range of [int] makes the call
    undefined. *)
Theorem fbm_returns_iff_octaves_convert (shuffle : Z → list Z → list Z)
    (x y : float) (octaves : Z) (persistence lacunarity : float) (seed : Z) :
  (∀ seed l, shuffle seed l ≡ₚ l) →
  ((∃ v, generatePerlinFBM shuffle x y octaves persistence lacunarity seed
         = Ok v) ↔
   (∀ i : nat, (i < Z.to_nat octaves)%nat →
      ∃ X Y,
        IEEE.trunc (IEEE.floor (x * frequency_at lacunarity i)) = Ok X ∧
        IEEE.trunc (IEEE.floor (y * frequency_at lacunarity i)) = Ok Y)) ∧
  ((∃ v, generateSimplexFBM shuffle x y octaves persistence lacunarity seed
         = Ok v) ↔
   (∀ i : nat, (i < Z.to_nat octaves)%nat →
      let xf := (x * frequency_at lacunarity i)%float in
      let yf := (y * frequency_at lacunarity i)%float in
      let s := ((xf + yf) * SimplexNoise.F2)%float in
      ∃ a b,
        SimplexNoise.fastfloor (xf + s)%float = Ok a ∧
        SimplexNoise.fastfloor (yf + s)%float = Ok b ∧
        INT_MIN ≤ a + b ≤ INT_MAX)).
Proof.
  intros Hperm. split.
  - unfold generatePerlinFBM. rewrite fbm_defined.
    split; intros Hall i Hi; destruct (Hall i Hi) as [v Hv].
    + apply perlin_noise_converts in Hv as (X & Y & _ & HX & HY & _).
      by exists X, Y.
    + destruct Hv as (Y & HX & HY).
      by apply (perlin_noise_total shuffle Hperm seed _ _ _ v Y 0).
  - unfold generateSimplexFBM.
    destruct (simplex_new shuffle Hperm seed) as (e & He & _).
    rewrite He, bind_Ok, fbm_defined.
    split; intros Hall i Hi; destruct (Hall i Hi) as [v Hv].
    + by apply simplex_noise_converts in Hv.
    + destruct Hv as (b & Ha & Hb & Hab).
      by apply (simplex_noise_total shuffle Hperm seed e _ _ v b).
Qed.

Lemma fbm_returns_iff_octaves_convert_witness :
  (∀ seed l, Ref.shuffle seed l ≡ₚ l) ∧
  ∃ v, generatePerlinFBM Ref.shuffle 0.25%float 0.75%float 2 0.5%float
         2%float 0 = Ok v.
Proof.
  split; [exact RefFacts.shuffle_perm|].
  apply (proj2 (proj1 (fbm_returns_iff_octaves_convert Ref.shuffle
                         0.25%float 0.75%float 2 0.5%float 2%float 0
                         RefFacts.shuffle_perm))).
  intros [|[|i]] Hi.
  - exists 0, 0. split; reflexivity.
  - exists 0, 1. split; reflexivity.
  - simpl in Hi. lia.
Defined.

(** ** Diamond-square: reading and writing heights *)

Section HeightAccess.
Context {F : Type} `{Arith F} {RNG : Type}.
Local Abbreviation t := (@DS.t F RNG).

(** What [setHeight] leaves: the cell at an inside position replaced,
    nothing changed for a position outside. *)
Lemma setHeight_spec (d : t) x y v :
  DS.wf d →
  ∃ d', DS.setHeight d x y v = Ok d' ∧ DS.wf d' ∧
        DS.size d' = DS.size d ∧ DS.rng d' = DS.rng d ∧
        ∀ x' y', DS.inside d x' y' = true →
          DS.cell d' x' y' = if decide (x' = x ∧ y' = y) then v
                             else DS.cell d x' y'.
Proof.
  intros Hwf. unfold DS.setHeight.
  change ((0 <=? x) && (x <? DS.size d) && (0 <=? y) && (y <? DS.size d))
    with (DS.inside d x y).
  destruct (DS.inside d x y) eqn:Hin.
  - pose proof Hin as [Hx Hy]%inside_bounds.
    destruct (set2_in_range d x y v Hwf Hx Hy) as (hm & Hset & Hwf').
    rewrite Hset, bind_Ok. eexists. split; [done|].
    do 3 (split; [done|]). intros x' y' Hin'.
    by apply set2_cell.
  - exists d. do 4 (split; [done|]). intros x' y' Hin'.
    rewrite decide_False; [done|]. intros [-> ->]. congruence.
Qed.

End HeightAccess.

(** [setHeight] then [getHeightAt], on every well-formed grid: the
    height written at a position inside the grid is the one read back
    there; a write outside the grid is dropped without an error, and the
    position still reads 0; every other position reads what it read
    before. *)
Theorem set_height_then_get_height {F : Type} `{Arith F} {RNG : Type}
    (d : @DS.t F RNG) (x y : Z) (v : F) :
  DS.wf d →
  ∃ d', DS.setHeight d x y v = Ok d' ∧
    DS.getHeightAt d' x y = Ok (if DS.inside d x y then v else (#0)%F) ∧
    ∀ x' y', (x', y') ≠ (x, y) →
      DS.getHeightAt d' x' y' = DS.getHeightAt d x' y'.
Proof.
  intros Hwf. unfold DS.getHeightAt.
  destruct (setHeight_spec d x y v Hwf) as (d' & Hset & Hwf' & Hsize & _ & Hcell).
  exists d'. split; [done|].
  assert (Hins : ∀ a b, DS.inside d' a b = DS.inside d a b).
  { intros a b. unfold DS.inside. by rewrite Hsize. }
  split.
  - rewrite getHeight_no_wrap, Hins by done.
    destruct (DS.inside d x y) eqn:Hin; [|done].
    rewrite Hcell by done. by rewrite decide_True.
  - intros x' y' Hne. rewrite !getHeight_no_wrap, Hins by done.
    destruct (DS.inside d x' y') eqn:Hin; [|done].
    rewrite Hcell by done. rewrite decide_False; [done|].
    intros [-> ->]. done.
Qed.

Lemma set_height_then_get_height_witness :
  DS.wf (fresh 3) ∧
  ∃ d', DS.setHeight (fresh 3) 1 2 (#7)%F = Ok d' ∧
        DS.getHeightAt d' 1 2 = Ok (#7)%F.
Proof.
  assert (Hwf : DS.wf (fresh 3)).
  { split; [done|]. split; [done|]. by repeat constructor. }
  split; [exact Hwf|].
  destruct (set_height_then_get_height (fresh 3) 1 2 (#7)%F Hwf)
    as (d' & Hset & Hget & _).
  exact (ex_intro _ d' (conj Hset Hget)).
Defined.

(** [getHeight] with [wrap] set, on a grid that is not empty and at
    coordinates for which the sums [x + size] and [y + size] of the code
    are [int]s: coordinates from [-size] on are taken modulo [size], so
    the read goes round the grid; a coordinate below [-size] that is not
    a multiple of [size] has a negative remainder, and the read returns
    0 as a read outside the grid does. *)
Theorem get_height_wraps_one_period {F : Type} `{Arith F} {RNG : Type}
    (d : @DS.t F RNG) (x y : Z) :
  DS.wf d → 0 < DS.size d ≤ INT_MAX →
  INT_MIN ≤ x → x + DS.size d ≤ INT_MAX →
  INT_MIN ≤ y → y + DS.size d ≤ INT_MAX →
  (- DS.size d ≤ x → - DS.size d ≤ y →
   DS.getHeight d x y true
     = Ok (DS.cell d (x mod DS.size d) (y mod DS.size d))) ∧
  ((x < - DS.size d ∧ x mod DS.size d ≠ 0) ∨
   (y < - DS.size d ∧ y mod DS.size d ≠ 0) →
   DS.getHeight d x y true = Ok (#0)%F).
Proof.
  intros Hwf [Hn _] _ _ _ _. set (n := DS.size d) in *.
  assert (Hrem : ∀ a, rem_ (a + n) n = Ok (Z.rem (a + n) n)).
  { intros a. unfold rem_. destruct (Z.eqb_spec n 0); [lia | done]. }
  unfold DS.getHeight. fold n. rewrite !Hrem, !bind_Ok. split.
  - intros Hx Hy.
    assert (Hwrap : ∀ a, - n ≤ a → Z.rem (a + n) n = a mod n).
    { intros a Ha. rewrite Z.rem_mod_nonneg by lia.
      replace (a + n) with (a + 1 * n) by lia. by rewrite Z.mod_add by lia. }
    rewrite !Hwrap by done.
    pose proof (Z.mod_pos_bound x n Hn). pose proof (Z.mod_pos_bound y n Hn).
    destruct (Z.ltb_spec (x mod n) 0), (Z.leb_spec n (x mod n)),
      (Z.ltb_spec (y mod n) 0), (Z.leb_spec n (y mod n)); try lia.
    simpl. apply get2_cell; [done|]. apply inside_bounds. fold n. lia.
  - assert (Hneg : ∀ a, a < - n → a mod n ≠ 0 → Z.rem (a + n) n < 0).
    { intros a Ha Hmod.
      pose proof (Z.rem_nonpos (a + n) n ltac:(lia) ltac:(lia)) as Hb.
      destruct (decide (Z.rem (a + n) n = 0)) as [Hz|]; [|lia].
      exfalso. apply Hmod.
      apply Z.rem_divide in Hz as [q Hq]; [|lia].
      replace a with ((q - 1) * n) by lia. apply Z.mod_mul. lia. }
    intros [[Hx Hmod] | [Hy Hmod]].
    + pose proof (Hneg x Hx Hmod).
      destruct (Z.ltb_spec (Z.rem (x + n) n) 0); [done | lia].
    + pose proof (Hneg y Hy Hmod).
      destruct (Z.ltb_spec (Z.rem (y + n) n) 0); [|lia].
      by rewrite !orb_true_r.
Qed.

Lemma get_height_wraps_one_period_witness :
  let d := DS.with_heightmap (fresh 3) (replicate 3 (replicate 3 (#1)%F)) in
  DS.cell d 2 1 = (#1)%F ∧ DS.getHeight d (-4) 1 true = Ok (#0)%F.
Proof.
  intros d. split; [reflexivity|].
  refine (proj2 (get_height_wraps_one_period d (-4) 1 _ _ _ _ _ _) _).
  - split; [done|]. split; [done|]. by repeat constructor.
  - done.
  - done.
  - done.
  - done.
  - done.
  - left. split; [done | discriminate].
Defined.

(** ** Diamond-square: the lattices of a valid size *)

Lemma halvings_pow2 (j fuel : nat) :
  (j ≤ fuel)%nat →
  DS.halvings fuel (2 ^ Z.of_nat j) = (λ i, 2 ^ Z.of_nat i) <$> rev (seq 1 j).
Proof.
  revert fuel. induction j as [|j IH]; intros fuel Hfuel.
  - destruct fuel; done.
  - destruct fuel as [|fuel]; [lia|].
    rewrite seq_S, rev_app_distr. simpl rev. simpl app. rewrite fmap_cons.
    replace (1 + j)%nat with (S j) by lia.
    simpl DS.halvings.
    assert (Hpow : 2 ^ Z.of_nat (S j) = 2 * 2 ^ Z.of_nat j).
    { rewrite Nat2Z.inj_succ, Z.pow_succ_r by lia. done. }
    assert (0 < 2 ^ Z.of_nat j) by (apply Z.pow_pos_nonneg; lia).
    destruct (Z.ltb_spec 1 (2 ^ Z.of_nat (S j))); [|lia].
    f_equal. rewrite Hpow, Z.mul_comm, Z.quot_mul by lia.
    apply IH. lia.
Qed.

Lemma stepSizes_pow2 (k : nat) :
  DS.stepSizes (2 ^ Z.of_nat k + 1) = (λ i, 2 ^ Z.of_nat i) <$> rev (seq 1 k).
Proof.
  unfold DS.stepSizes.
  replace (2 ^ Z.of_nat k + 1 - 1) with (2 ^ Z.of_nat k) by lia.
  apply halvings_pow2.
  pose proof (Z.pow_gt_lin_r 2 (Z.of_nat k) ltac:(lia) ltac:(lia)). lia.
Qed.

Lemma valid_size_nat (n : Z) :
  valid_size n → ∃ k : nat, (1 ≤ k)%nat ∧ n = 2 ^ Z.of_nat k + 1.
Proof.
  intros (k & Hk & ->). exists (Z.to_nat k). split; [lia|].
  by rewrite Z2Nat.id by lia.
Qed.

(** A step size of a valid size is twice its half step and divides
    [size - 1]. *)
Lemma valid_step (k : nat) (s : Z) :
  s ∈ DS.stepSizes (2 ^ Z.of_nat k + 1) →
  ∃ h, 0 < h ∧ s = 2 * h ∧ Z.quot s 2 = h ∧ (2 ^ Z.of_nat k) mod s = 0.
Proof.
  rewrite stepSizes_pow2. intros (j & -> & Hj)%list_elem_of_fmap.
  apply list_elem_of_In, in_rev, in_seq in Hj.
  exists (2 ^ (Z.of_nat j - 1)).
  assert (Hpow : 2 ^ Z.of_nat j = 2 * 2 ^ (Z.of_nat j - 1)).
  { rewrite <- Z.pow_succ_r by lia. f_equal. lia. }
  split; [apply Z.pow_pos_nonneg; lia|]. split; [done|]. split.
  - rewrite Hpow, Z.mul_comm, Z.quot_mul; lia.
  - replace (Z.of_nat k) with ((Z.of_nat k - Z.of_nat j) + Z.of_nat j) by lia.
    rewrite Z.pow_add_r by lia. apply Z.mod_mul.
    apply Z.pow_nonzero; lia.
Qed.

(** The outer loop of [generate] on a size [2^k + 1]: [stepSize] takes
    the values [2^k, 2^(k-1), ..., 4, 2], in this order and no other.
    There are [k] rounds; every step size is twice its half step (no
    halving drops a bit) and divides [size - 1]. *)
Theorem step_sizes_of_valid_size (k : nat) :
  DS.stepSizes (2 ^ Z.of_nat k + 1) = (λ i, 2 ^ Z.of_nat i) <$> rev (seq 1 k) ∧
  length (DS.stepSizes (2 ^ Z.of_nat k + 1)) = k ∧
  ∀ stepSize, stepSize ∈ DS.stepSizes (2 ^ Z.of_nat k + 1) →
    2 * Z.quot stepSize 2 = stepSize ∧ (2 ^ Z.of_nat k) mod stepSize = 0.
Proof.
  split; [apply stepSizes_pow2|]. split.
  - by rewrite stepSizes_pow2, length_fmap, length_rev, length_seq.
  - intros stepSize (h & _ & Hs & Hq & Hdiv)%valid_step. split; [lia | done].
Qed.

(** A coordinate that is an odd multiple of the half step is half a
    step away from both ends of the grid. *)
Lemma odd_site_inside (n h s a : Z) :
  0 < h → s = 2 * h → (n - 1) mod s = 0 →
  0 ≤ a < n → (a - h) mod s = 0 → 0 ≤ a - h ∧ a + h < n.
Proof.
  intros Hh Hs Hn Ha Hm.
  apply Z.mod_divide in Hn as [m Hm']; [|lia].
  apply Z.mod_divide in Hm as [c Hc]; [|lia].
  assert (0 ≤ c) by (destruct (decide (0 ≤ c)); nia).
  assert (c < m) by (destruct (decide (c < m)); nia).
  nia.
Qed.

(** A multiple of [h] is a multiple of [2 h], or [h] more than one. *)
Lemma mod_half (x h s : Z) :
  0 < h → s = 2 * h → x mod h = 0 →
  x mod s = 0 ∨ (x - h) mod s = 0.
Proof.
  intros Hh -> Hx. apply Z.mod_divide in Hx as [b ->]; [|lia].
  destruct (Z.even b) eqn:Heven.
  - left. apply Z.even_spec in Heven as [c ->].
    replace (2 * c * h) with (c * (2 * h)) by lia. apply Z.mod_mul. lia.
  - right. rewrite <- Z.negb_odd in Heven. apply negb_false_iff in Heven.
    apply Z.odd_spec in Heven as [c ->].
    replace ((2 * c + 1) * h - h) with (c * (2 * h)) by lia.
    apply Z.mod_mul. lia.
Qed.

(** Where the inner loop of the square steps starts. *)
Lemma square_start (y h s : Z) :
  0 < h → s = 2 * h → 0 ≤ y →
  (y mod s = 0 → Z.rem (y + h) s = h) ∧
  ((y - h) mod s = 0 → Z.rem (y + h) s = 0).
Proof.
  intros Hh Hs Hy. rewrite Z.rem_mod_nonneg by lia. split; intros Hmod.
  - apply Z.mod_divide in Hmod as [c ->]; [|lia].
    rewrite Z.add_comm, Z.mod_add by lia. apply Z.mod_small. lia.
  - mod_from Hmod 1.
Qed.

(** On a grid of valid size, every diamond step of [generate] reads its
    four diagonal corners inside the grid: the height 0 that
    [getHeight] substitutes outside the grid never enters a generation
    of valid size. *)
Theorem diamond_step_reads_inside {F : Type} `{Arith F} {RNG : Type}
    (d : @DS.t F RNG) (stepSize x y : Z) :
  valid_size (DS.size d) →
  stepSize ∈ DS.stepSizes (DS.size d) →
  y ∈ loop_range (Z.quot stepSize 2) (DS.size d) stepSize →
  x ∈ loop_range (Z.quot stepSize 2) (DS.size d) stepSize →
  let halfStep := Z.quot stepSize 2 in
  DS.inside d (x - halfStep) (y - halfStep) = true ∧
  DS.inside d (x + halfStep) (y - halfStep) = true ∧
  DS.inside d (x - halfStep) (y + halfStep) = true ∧
  DS.inside d (x + halfStep) (y + halfStep) = true.
Proof.
  intros (k & Hk & Hn)%valid_size_nat. rewrite Hn.
  intros (h & Hh & Hs & -> & Hdiv)%valid_step. cbv zeta.
  set (n := 2 ^ Z.of_nat k + 1) in *.
  intros [Hy Hym]%elem_of_loop_range [Hx Hxm]%elem_of_loop_range; try lia.
  assert (Hn1 : (n - 1) mod stepSize = 0).
  { unfold n. by replace (2 ^ Z.of_nat k + 1 - 1) with (2 ^ Z.of_nat k) by lia. }
  pose proof (odd_site_inside n h stepSize x Hh Hs Hn1 ltac:(lia) Hxm).
  pose proof (odd_site_inside n h stepSize y Hh Hs Hn1 ltac:(lia) Hym).
  repeat split; apply inside_bounds; rewrite Hn; fold n; lia.
Qed.

Lemma diamond_step_reads_inside_witness :
  valid_size (DS.size (fresh 5)) ∧
  DS.inside (fresh 5) (2 - 2) (2 - 2) = true ∧
  DS.inside (fresh 5) (2 + 2) (2 + 2) = true.
Proof.
  assert (Hvalid : valid_size (DS.size (fresh 5))) by (exists 2; done).
  split; [exact Hvalid|].
  destruct (diamond_step_reads_inside (fresh 5) 4 2 2 Hvalid)
    as (Ha & _ & _ & Hb); [by left | by left | by left |].
  exact (conj Ha Hb).
Defined.



(** ** Diamond-square: a generation assigns every cell before it is read *)

(** Two runs of a loop, by an invariant on the indices done. *)
Lemma forM_rel {S} (I : list Z → S → S → Prop) (l : list Z)
    (body : Z → S → result S) (s1 s2 : S) :
  I [] s1 s2 →
  (∀ pre i a b, i ∈ l → I pre a b →
     ∃ a' b', body i a = Ok a' ∧ body i b = Ok b' ∧ I (pre ++ [i]) a' b') →
  ∃ a' b', forM l body s1 = Ok a' ∧ forM l body s2 = Ok b' ∧ I l a' b'.
Proof.
  revert I s1 s2. induction l as [|i l IH]; intros I s1 s2 H0 Hstep; simpl.
  - by exists s1, s2.
  - destruct (Hstep [] i s1 s2) as (a & b & -> & -> & Hab); [left | done |].
    rewrite !bind_Ok. apply (IH (λ pre, I (i :: pre))); [done|].
    intros pre j a' b' Hj Hpre.
    apply (Hstep (i :: pre) j a' b'); [by right | done].
Qed.

Lemma forM_cons {S} (i : Z) (l : list Z) (body : Z → S → result S) (s : S) :
  forM (i :: l) body s = body i s ≫= forM l body.
Proof. reflexivity. Qed.

(** Every position of the lattice of step [h] is on the lattice of step
    [2 h], or is the site of a diamond step, or of a square step. *)
Lemma lattice_covered (n h s x y : Z) :
  0 < h → s = 2 * h → 0 ≤ x < n → 0 ≤ y < n →
  x mod h = 0 → y mod h = 0 →
  (x mod s = 0 ∧ y mod s = 0) ∨
  (x ∈ loop_range h n s ∧ y ∈ loop_range h n s) ∨
  (y ∈ loop_range 0 n h ∧ x ∈ loop_range (Z.rem (y + h) s) n s).
Proof.
  intros Hh Hs Hx Hy Hxm Hym.
  assert (Hge : ∀ a, 0 ≤ a → (a - h) mod s = 0 → h ≤ a).
  { intros a Ha Hm. apply Z.mod_divide in Hm as [c Hc]; [|lia].
    destruct (decide (0 ≤ c)); nia. }
  destruct (square_start y h s Hh Hs ltac:(lia)) as [Hs0 Hs1].
  assert (Hyin : y ∈ loop_range 0 n h).
  { apply elem_of_loop_range; [lia|]. by rewrite Z.sub_0_r. }
  destruct (mod_half x h s Hh Hs Hxm) as [Hx2 | Hx2],
    (mod_half y h s Hh Hs Hym) as [Hy2 | Hy2].
  - by left.
  - right. right. split; [done|]. rewrite (Hs1 Hy2).
    apply elem_of_loop_range; [lia|]. by rewrite Z.sub_0_r.
  - right. right. split; [done|]. rewrite (Hs0 Hy2).
    apply elem_of_loop_range; [lia|]. split; [|done]. pose proof (Hge x). lia.
  - right. left.
    split; (apply elem_of_loop_range; [lia|]); (split; [|done]).
    + pose proof (Hge x). lia.
    + pose proof (Hge y). lia.
Qed.

Section Agreement.
Context {D : Type} `{Arith D} {F : Type} `{Arith F} {RNG : Type}.
Variable dist : RNG → F * RNG.
Variable widen : F → D.
Variable narrow : D → F.
Variable pow : D → D → D.
Local Abbreviation t := (@DS.t F RNG).

Lemma agree_weaken n (P Q : Z → Z → Prop) (d1 d2 : t) :
  agree n P d1 d2 →
  (∀ x y, 0 ≤ x < n → 0 ≤ y < n → Q x y → P x y) → agree n Q d1 d2.
Proof.
  intros (H1 & H2 & Hr & Hc) HQ. do 3 (split; [done|]).
  intros x y Hx Hy HQxy. apply Hc; auto.
Qed.

Lemma agree_size n P (d1 d2 : t) :
  agree n P d1 d2 → DS.size d1 = n ∧ DS.size d2 = n.
Proof. by intros ([_ ?] & [_ ?] & _). Qed.

(** A read gives the same height in both grids when its position is in
    [P] or outside the grid. *)
Lemma agree_read n P (d1 d2 : t) x y :
  agree n P d1 d2 → (0 ≤ x < n → 0 ≤ y < n → P x y) →
  ∃ h, DS.getHeight d1 x y false = Ok h ∧ DS.getHeight d2 x y false = Ok h.
Proof.
  intros ([Hwf1 Hn1] & [Hwf2 Hn2] & _ & Hc) HP.
  rewrite !getHeight_no_wrap by done.
  assert (DS.inside d2 x y = DS.inside d1 x y) as ->.
  { unfold DS.inside. by rewrite Hn1, Hn2. }
  destruct (DS.inside d1 x y) eqn:Hin; [|by eexists].
  apply inside_bounds in Hin. rewrite Hn1 in Hin. destruct Hin.
  rewrite (Hc x y) by auto. by eexists.
Qed.

Lemma agree_draw n P (d1 d2 : t) :
  agree n P d1 d2 →
  (DS.draw dist d1).1 = (DS.draw dist d2).1 ∧
  agree n P (DS.draw dist d1).2 (DS.draw dist d2).2.
Proof.
  intros ([Hwf1 Hn1] & [Hwf2 Hn2] & Hr & Hc). unfold DS.draw. rewrite Hr.
  destruct (dist (DS.rng d2)) as [v g]. simpl. split; [done|].
  split; [split; [exact Hwf1 | exact Hn1]|].
  split; [split; [exact Hwf2 | exact Hn2]|].
  split; [done | exact Hc].
Qed.

(** A write makes the grids agree at its position. *)
Lemma agree_write n P (d1 d2 : t) x y v :
  agree n P d1 d2 →
  ∃ d1' d2', DS.setHeight d1 x y v = Ok d1' ∧ DS.setHeight d2 x y v = Ok d2' ∧
             agree n (λ a b, P a b ∨ (a = x ∧ b = y)) d1' d2'.
Proof.
  intros ([Hwf1 Hn1] & [Hwf2 Hn2] & Hr & Hc).
  destruct (setHeight_spec d1 x y v Hwf1) as (d1' & -> & Hwf1' & Hs1 & Hr1 & Hc1).
  destruct (setHeight_spec d2 x y v Hwf2) as (d2' & -> & Hwf2' & Hs2 & Hr2 & Hc2).
  exists d1', d2'. do 2 (split; [done|]).
  split; [split; [done | congruence]|].
  split; [split; [done | congruence]|].
  split; [congruence|].
  intros a b Ha Hb HP.
  rewrite Hc1, Hc2 by (apply inside_bounds; lia).
  case_decide; [done|]. destruct HP as [HP | HP]; [auto | done].
Qed.

Lemma agree_seed_corner n P (d1 d2 : t) x y :
  0 ≤ x < n → 0 ≤ y < n → agree n P d1 d2 →
  ∃ d1' d2', DS.seed_corner dist x y d1 = Ok d1' ∧
             DS.seed_corner dist x y d2 = Ok d2' ∧
             agree n (λ a b, P a b ∨ (a = x ∧ b = y)) d1' d2'.
Proof.
  intros Hx Hy Hag. unfold DS.seed_corner.
  destruct (agree_draw n P d1 d2 Hag) as [Hv Hag'].
  destruct (DS.draw dist d1) as [v1 g1], (DS.draw dist d2) as [v2 g2].
  simpl in Hv, Hag'. subst v2.
  destruct Hag' as ([Hwf1 Hn1] & [Hwf2 Hn2] & Hr & Hc).
  destruct (set2_in_range g1 x y v1 Hwf1) as (hm1 & Hs1 & Hwf1'); [lia | lia |].
  destruct (set2_in_range g2 x y v1 Hwf2) as (hm2 & Hs2 & Hwf2'); [lia | lia |].
  rewrite Hs1, Hs2, !bind_Ok. do 2 eexists. do 2 (split; [done|]).
  split; [by split|]. split; [by split|]. split; [done|].
  intros a b Ha Hb HP.
  rewrite (set2_cell g1 x y v1 hm1 a b), (set2_cell g2 x y v1 hm2 a b);
    try done; try (apply inside_bounds; lia).
  case_decide; [done|]. destruct HP as [HP | HP]; [auto | done].
Qed.

Lemma agree_diamondStep n P (d1 d2 : t) x y h r :
  agree n P d1 d2 →
  (∀ a b, 0 ≤ a < n → 0 ≤ b < n →
          (a = x - h ∨ a = x + h) → (b = y - h ∨ b = y + h) → P a b) →
  ∃ d1' d2', DS.diamondStep dist d1 x y h r = Ok d1' ∧
             DS.diamondStep dist d2 x y h r = Ok d2' ∧
             agree n (λ a b, P a b ∨ (a = x ∧ b = y)) d1' d2'.
Proof.
  intros Hag HP. unfold DS.diamondStep.
  destruct (agree_read n P d1 d2 (x - h) (y - h) Hag) as (a & -> & ->); [auto|].
  destruct (agree_read n P d1 d2 (x + h) (y - h) Hag) as (b & -> & ->); [auto|].
  destruct (agree_read n P d1 d2 (x - h) (y + h) Hag) as (c & -> & ->); [auto|].
  destruct (agree_read n P d1 d2 (x + h) (y + h) Hag) as (e & -> & ->); [auto|].
  rewrite !bind_Ok.
  destruct (agree_draw n P d1 d2 Hag) as [Hv Hag'].
  destruct (DS.draw dist d1) as [v1 g1], (DS.draw dist d2) as [v2 g2].
  simpl in Hv, Hag'. subst v2. by apply agree_write.
Qed.

Lemma agree_neighbour n P (d1 d2 : t) guard x y acc :
  agree n P d1 d2 → (0 ≤ x < n → 0 ≤ y < n → P x y) →
  ∃ acc', DS.neighbour d1 guard x y false acc = Ok acc' ∧
          DS.neighbour d2 guard x y false acc = Ok acc'.
Proof.
  intros Hag HP. unfold DS.neighbour. destruct guard; [|by eexists].
  destruct (agree_read n P d1 d2 x y Hag HP) as (h & -> & ->).
  rewrite !bind_Ok. by eexists.
Qed.

Lemma agree_squareStep n P (d1 d2 : t) x y h r :
  agree n P d1 d2 →
  (∀ a b, 0 ≤ a < n → 0 ≤ b < n →
          (a = x ∧ (b = y - h ∨ b = y + h)) ∨
          (b = y ∧ (a = x - h ∨ a = x + h)) → P a b) →
  ∃ d1' d2', DS.squareStep dist d1 x y h r false = Ok d1' ∧
             DS.squareStep dist d2 x y h r false = Ok d2' ∧
             agree n (λ a b, P a b ∨ (a = x ∧ b = y)) d1' d2'.
Proof.
  intros Hag HP. unfold DS.squareStep, DS.neighbours.
  assert (DS.size d2 = DS.size d1) as ->.
  { destruct Hag as ([_ ->] & [_ ->] & _). done. }
  destruct (agree_neighbour n P d1 d2 (false || (0 <=? y - h)) x (y - h)
              ((#0)%F, 0) Hag) as (a1 & -> & ->); [intros; apply HP; lia|].
  rewrite !bind_Ok.
  destruct (agree_neighbour n P d1 d2 (false || (x + h <? DS.size d1)) (x + h) y
              a1 Hag) as (a2 & -> & ->); [intros; apply HP; lia|].
  rewrite !bind_Ok.
  destruct (agree_neighbour n P d1 d2 (false || (y + h <? DS.size d1)) x (y + h)
              a2 Hag) as (a3 & -> & ->); [intros; apply HP; lia|].
  rewrite !bind_Ok.
  destruct (agree_neighbour n P d1 d2 (false || (0 <=? x - h)) (x - h) y
              a3 Hag) as (a4 & -> & ->); [intros; apply HP; lia|].
  rewrite !bind_Ok.
  destruct (agree_draw n P d1 d2 Hag) as [Hv Hag'].
  destruct (DS.draw dist d1) as [v1 g1], (DS.draw dist d2) as [v2 g2].
  simpl in Hv, Hag'. subst v2. by apply agree_write.
Qed.

(** The diamond steps of a round read the lattice of the round's step
    only, and assign their sites. *)
Lemma agree_diamonds n h s P (d1 d2 : t) r :
  0 < h → s = 2 * h → agree n P d1 d2 →
  (∀ x y, 0 ≤ x < n → 0 ≤ y < n → on_lattice s x y → P x y) →
  ∃ d1' d2', DS.diamonds dist h s r d1 = Ok d1' ∧
             DS.diamonds dist h s r d2 = Ok d2' ∧
    agree n (λ x y, P x y ∨
               (x ∈ loop_range h n s ∧ y ∈ loop_range h n s)) d1' d2'.
Proof.
  intros Hh Hs Hag HP. unfold DS.diamonds.
  destruct (agree_size n P d1 d2 Hag) as [-> ->].
  set (xs := loop_range h n s).
  destruct (forM_rel
    (λ pre, agree n (λ x y, P x y ∨ (x ∈ xs ∧ y ∈ pre))) xs
    (λ y, forM xs (λ x d, DS.diamondStep dist d x y h r)) d1 d2)
    as (d1' & d2' & H1 & H2 & Hag').
  - eapply agree_weaken; [exact Hag|].
    intros x y _ _ [HPxy | [_ []%elem_of_nil]]. done.
  - intros pre y a b Hy Hpre.
    destruct (forM_rel
      (λ pre', agree n (λ x y', P x y' ∨ (x ∈ xs ∧ y' ∈ pre) ∨
                                 (x ∈ pre' ∧ y' = y))) xs
      (λ x d, DS.diamondStep dist d x y h r) a b)
      as (a' & b' & Ha & Hb & Hab).
    + eapply agree_weaken; [exact Hpre|].
      intros x y' _ _ [HPxy | [Hin | [[]%elem_of_nil _]]]; auto.
    + intros pre' x a0 b0 Hx Hpre'.
      destruct (agree_diamondStep n _ a0 b0 x y h r Hpre')
        as (a1 & b1 & Ha1 & Hb1 & Hab1).
      * intros c e Hc0 He0 Hc He. left.
        apply elem_of_loop_range in Hx as [_ Hxm]; [|lia].
        apply elem_of_loop_range in Hy as [_ Hym]; [|lia].
        apply HP; [done | done |]. split.
        -- destruct Hc as [-> | ->]; [exact Hxm | mod_from Hxm 1].
        -- destruct He as [-> | ->]; [exact Hym | mod_from Hym 1].
      * exists a1, b1. do 2 (split; [done|]).
        eapply agree_weaken; [exact Hab1|].
        intros c e _ _ [HPce | [Hin | [Hin ->]]]; auto.
        apply elem_of_app in Hin as [Hin | ->%list_elem_of_singleton]; auto.
    + exists a', b'. do 2 (split; [done|]).
      eapply agree_weaken; [exact Hab|].
      intros x y' _ _ [HPxy | [Hx Hin]]; auto.
      apply elem_of_app in Hin as [Hin | ->%list_elem_of_singleton]; auto.
  - exists d1', d2'. by do 2 (split; [done|]).
Qed.

(** The square steps of a round, without [wrap], read the lattice of
    the round's step and the sites of its diamond steps only, and assign
    their sites. *)
Lemma agree_squares n h s P (d1 d2 : t) r :
  0 < h → s = 2 * h → agree n P d1 d2 →
  (∀ x y, 0 ≤ x < n → 0 ≤ y < n →
          on_lattice s x y ∨ on_lattice s (x - h) (y - h) → P x y) →
  ∃ d1' d2', DS.squares dist h s r false d1 = Ok d1' ∧
             DS.squares dist h s r false d2 = Ok d2' ∧
    agree n (λ x y, P x y ∨
               (y ∈ loop_range 0 n h ∧
                x ∈ loop_range (Z.rem (y + h) s) n s)) d1' d2'.
Proof.
  intros Hh Hs Hag HP. unfold DS.squares.
  destruct (agree_size n P d1 d2 Hag) as [-> ->].
  set (ys := loop_range 0 n h).
  set (xs y := loop_range (Z.rem (y + h) s) n s).
  destruct (forM_rel
    (λ pre, agree n (λ x y, P x y ∨ (y ∈ pre ∧ x ∈ xs y))) ys
    (λ y d, x0 ← rem_ (y + h) s;
            forM (loop_range x0 (DS.size d) s)
              (λ x d, DS.squareStep dist d x y h r false) d) d1 d2)
    as (d1' & d2' & H1 & H2 & Hag').
  - eapply agree_weaken; [exact Hag|].
    intros x y _ _ [HPxy | [[]%elem_of_nil _]]. done.
  - intros pre y a b Hy Hpre.
    destruct (agree_size n _ a b Hpre) as [-> ->].
    unfold rem_. destruct (Z.eqb_spec s 0); [lia|]. rewrite !bind_Ok.
    fold (xs y).
    destruct (forM_rel
      (λ pre', agree n (λ x y', P x y' ∨ (y' ∈ pre ∧ x ∈ xs y') ∨
                                 (x ∈ pre' ∧ y' = y))) (xs y)
      (λ x d, DS.squareStep dist d x y h r false) a b)
      as (a' & b' & Ha & Hb & Hab).
    + eapply agree_weaken; [exact Hpre|].
      intros x y' _ _ [HPxy | [Hin | [[]%elem_of_nil _]]]; auto.
    + intros pre' x a0 b0 Hx Hpre'.
      destruct (agree_squareStep n _ a0 b0 x y h r Hpre')
        as (a1 & b1 & Ha1 & Hb1 & Hab1).
      * intros c e Hc0 He0 Hce. left. apply HP; [done | done |].
        apply elem_of_loop_range in Hy as [Hy0 Hym]; [|lia].
        rewrite Z.sub_0_r in Hym.
        destruct (square_start y h s Hh Hs ltac:(lia)) as [Hs0 Hs1].
        unfold xs in Hx. unfold on_lattice.
        destruct (mod_half y h s Hh Hs Hym) as [Hy2 | Hy2].
        -- rewrite (Hs0 Hy2) in Hx.
           apply elem_of_loop_range in Hx as [_ Hxm]; [|lia].
           destruct Hce as [[-> [-> | ->]] | [-> [-> | ->]]].
           ++ right. split; [done | mod_from Hy2 (-1)].
           ++ right. split; [done | mod_from Hy2 0].
           ++ left. split; [done | done].
           ++ left. split; [mod_from Hxm 1 | done].
        -- rewrite (Hs1 Hy2) in Hx.
           apply elem_of_loop_range in Hx as [_ Hxm]; [|lia].
           rewrite Z.sub_0_r in Hxm.
           destruct Hce as [[-> [-> | ->]] | [-> [-> | ->]]].
           ++ left. split; [done | done].
           ++ left. split; [done | mod_from Hy2 1].
           ++ right. split; [mod_from Hxm (-1) | done].
           ++ right. split; [mod_from Hxm 0 | done].
      * exists a1, b1. do 2 (split; [done|]).
        eapply agree_weaken; [exact Hab1|].
        intros c e _ _ [HPce | [Hin | [Hin ->]]]; auto.
        apply elem_of_app in Hin as [Hin | ->%list_elem_of_singleton]; auto.
    + exists a', b'. do 2 (split; [done|]).
      eapply agree_weaken; [exact Hab|].
      intros x y' _ _ [HPxy | [Hin Hx]]; auto.
      apply elem_of_app in Hin as [Hin | ->%list_elem_of_singleton]; auto.
  - exists d1', d2'. by do 2 (split; [done|]).
Qed.

(** A round of step [2 h]: grids that agree on the lattice of step
    [2 h] agree on the lattice of step [h] afterwards. *)
Lemma agree_round n h P (d1 d2 : t) roughness r :
  0 < h → agree n P d1 d2 →
  (∀ x y, 0 ≤ x < n → 0 ≤ y < n → on_lattice (2 * h) x y → P x y) →
  ∃ s1 s2,
    DS.round dist widen narrow pow roughness false (2 * h) (d1, r) = Ok s1 ∧
    DS.round dist widen narrow pow roughness false (2 * h) (d2, r) = Ok s2 ∧
    agree n (on_lattice h) s1.1 s2.1 ∧ s1.2 = s2.2.
Proof.
  intros Hh Hag HP. unfold DS.round.
  replace (Z.quot (2 * h) 2) with h
    by (rewrite Z.mul_comm, Z.quot_mul; lia).
  destruct (agree_diamonds n h (2 * h) P d1 d2 r Hh eq_refl Hag)
    as (a1 & a2 & -> & -> & Ha); [done|].
  rewrite !bind_Ok.
  destruct (agree_squares n h (2 * h) _ a1 a2 r Hh eq_refl Ha)
    as (b1 & b2 & -> & -> & Hb).
  { intros x y Hx Hy [Hl | [Hdx Hdy]]; [left; by apply HP|].
    right.
    assert (Hin : ∀ a, 0 ≤ a < n → (a - h) mod (2 * h) = 0 →
                       a ∈ loop_range h n (2 * h)).
    { intros a Ha' Hm. apply elem_of_loop_range; [lia|]. split; [|done].
      apply Z.mod_divide in Hm as [c Hc]; [|lia].
      destruct (decide (0 ≤ c)); nia. }
    split; by apply Hin. }
  rewrite !bind_Ok. do 2 eexists. do 2 (split; [done|]). split; [|done].
  simpl. eapply agree_weaken; [exact Hb|].
  intros x y Hx Hy [Hxm Hym].
  destruct (lattice_covered n h (2 * h) x y Hh eq_refl Hx Hy Hxm Hym)
    as [Hl | [Hd | Hs]]; [left; left; by apply HP | by left; right | by right].
Qed.

(** The rounds from step [2^j] down: heights that agree on the lattice of
    step [2^j] end up agreeing everywhere. *)
Lemma agree_levels n (j : nat) (d1 d2 : t) roughness r :
  agree n (on_lattice (2 ^ Z.of_nat j)) d1 d2 →
  ∃ s1 s2,
    forM ((λ i, 2 ^ Z.of_nat i) <$> rev (seq 1 j))
      (DS.round dist widen narrow pow roughness false) (d1, r) = Ok s1 ∧
    forM ((λ i, 2 ^ Z.of_nat i) <$> rev (seq 1 j))
      (DS.round dist widen narrow pow roughness false) (d2, r) = Ok s2 ∧
    agree n (on_lattice 1) s1.1 s2.1.
Proof.
  revert d1 d2 r. induction j as [|j IH]; intros d1 d2 r Hag.
  - by exists (d1, r), (d2, r).
  - rewrite seq_S, rev_app_distr. simpl rev. simpl app. rewrite fmap_cons.
    replace (1 + j)%nat with (S j) by lia. rewrite !forM_cons.
    assert (Hpow : 2 ^ Z.of_nat (S j) = 2 * 2 ^ Z.of_nat j).
    { rewrite Nat2Z.inj_succ, Z.pow_succ_r by lia. done. }
    assert (0 < 2 ^ Z.of_nat j) by (apply Z.pow_pos_nonneg; lia).
    rewrite Hpow in Hag |- *.
    destruct (agree_round n (2 ^ Z.of_nat j) _ d1 d2 roughness r
                ltac:(done) Hag) as ([a1 r1] & [a2 r2] & -> & -> & Ha & Hr);
      [done|].
    rewrite !bind_Ok. simpl in Ha, Hr. subst r2. by apply IH.
Qed.

(** Grids of the same size that hold the same heights are the same. *)
Lemma agree_everywhere n (d1 d2 : t) :
  agree n (on_lattice 1) d1 d2 → d1 = d2.
Proof.
  intros ([(Hn1 & Hlen1 & Hrows1) Hs1] & [(Hn2 & Hlen2 & Hrows2) Hs2] & Hr & Hc).
  destruct d1 as [hm1 n1 g1], d2 as [hm2 n2 g2]. simpl in *. subst n1 n2 g2.
  f_equal. apply list_eq_same_length with (Z.to_nat n); [done | done |].
  intros i row1 row2 Hi Hrow1 Hrow2.
  pose proof (proj1 (Forall_lookup _ _) Hrows1 i row1 Hrow1) as Hl1.
  pose proof (proj1 (Forall_lookup _ _) Hrows2 i row2 Hrow2) as Hl2.
  simpl in Hl1, Hl2.
  apply list_eq_same_length with (Z.to_nat n); [done | done |].
  intros j h1 h2 Hj Hh1 Hh2.
  specialize (Hc (Z.of_nat i) (Z.of_nat j) ltac:(lia) ltac:(lia)).
  unfold DS.cell in Hc. simpl in Hc. rewrite !Nat2Z.id in Hc.
  rewrite Hrow1, Hrow2 in Hc. simpl in Hc. rewrite Hh1, Hh2 in Hc.
  simpl in Hc. apply Hc. split; apply Z.mod_1_r.
Qed.

(** The corners, then the rounds: whatever the grids held, they hold
    the same heights when the rounds are over. *)
Lemma agree_rounds (k : nat) (d1 d2 : t) roughness :
  (1 ≤ k)%nat →
  agree (2 ^ Z.of_nat k + 1) (λ _ _, False) d1 d2 →
  ∃ d, DS.rounds dist widen narrow pow d1 roughness false = Ok d ∧
       DS.rounds dist widen narrow pow d2 roughness false = Ok d.
Proof.
  intros Hk Hag. set (n := 2 ^ Z.of_nat k + 1) in *.
  assert (Hpos : 0 < 2 ^ Z.of_nat k) by (apply Z.pow_pos_nonneg; lia).
  unfold DS.rounds.
  destruct (agree_seed_corner n _ d1 d2 0 0 ltac:(lia) ltac:(lia) Hag)
    as (a1 & a2 & -> & -> & Ha). rewrite !bind_Ok.
  destruct (agree_size n _ a1 a2 Ha) as [-> ->].
  destruct (agree_seed_corner n _ a1 a2 (n - 1) 0 ltac:(lia) ltac:(lia) Ha)
    as (b1 & b2 & -> & -> & Hb). rewrite !bind_Ok.
  destruct (agree_size n _ b1 b2 Hb) as [-> ->].
  destruct (agree_seed_corner n _ b1 b2 0 (n - 1) ltac:(lia) ltac:(lia) Hb)
    as (c1 & c2 & -> & -> & Hc). rewrite !bind_Ok.
  destruct (agree_size n _ c1 c2 Hc) as [-> ->].
  destruct (agree_seed_corner n _ c1 c2 (n - 1) (n - 1)
              ltac:(lia) ltac:(lia) Hc)
    as (e1 & e2 & -> & -> & He). rewrite !bind_Ok.
  destruct (agree_size n _ e1 e2 He) as [-> ->].
  replace (DS.stepSizes n) with ((λ i, 2 ^ Z.of_nat i) <$> rev (seq 1 k))
    by (symmetry; apply stepSizes_pow2).
  destruct (agree_levels n k e1 e2 roughness (#1)%F)
    as ([f1 r1] & [f2 r2] & -> & -> & Hf).
  { eapply agree_weaken; [exact He|].
    intros x y Hx Hy [Hxm Hym].
    assert (Hend : ∀ a, 0 ≤ a < n → a mod 2 ^ Z.of_nat k = 0 →
                        a = 0 ∨ a = n - 1).
    { intros a Ha' Hm. apply Z.mod_divide in Hm as [c Hc']; [|lia].
      unfold n in *. destruct (decide (c ≤ 0)); [left; nia|].
      destruct (decide (c = 1)); [right; nia|]. nia. }
    destruct (Hend x Hx Hxm) as [-> | ->], (Hend y Hy Hym) as [-> | ->];
      tauto. }
  rewrite !bind_Ok. simpl in *.
  apply agree_everywhere in Hf. subst f2. by exists f1.
Qed.

End Agreement.

(** [generate] without [wrap], on a grid of valid size: every cell is
    assigned (the corners, then round by round the sites of the diamond
    and of the square steps) before any step reads it.  The result is
    therefore the same for two grids of that size in the same random
    state, whatever heights they held: a second [generate] on the same
    instance generates as a fresh instance in that random state would. *)
Theorem generate_overwrites_grid
    {D : Type} `{Arith D} {F : Type} `{Arith F} {RNG : Type}
    (dist : RNG → F * RNG) (widen : F → D) (narrow : D → F) (pow : D → D → D)
    (d1 d2 : @DS.t F RNG) (roughness : F) :
  valid_size (DS.size d1) → DS.wf d1 → DS.wf d2 →
  DS.size d1 = DS.size d2 → DS.rng d1 = DS.rng d2 →
  ∃ d, DS.generate dist widen narrow pow d1 roughness false = Ok d ∧
       DS.generate dist widen narrow pow d2 roughness false = Ok d.
Proof.
  intros (k & Hk & Hn)%valid_size_nat Hwf1 Hwf2 Hsize Hrng.
  destruct (agree_rounds dist widen narrow pow k d1 d2 roughness Hk) as (d & Hd1 & Hd2).
  { split; [by split|]. split; [split; [done | congruence]|]. by split. }
  unfold DS.generate. rewrite Hd1, Hd2, !bind_Ok.
  assert (Hkeeps : DS.keeps (DS.size d1) d).
  { destruct (rounds_keeps dist widen narrow pow (DS.size d1) d1 roughness false)
      as (d' & Hd' & Hk'); [by split | |].
    - assert (0 < 2 ^ Z.of_nat k) by (apply Z.pow_pos_nonneg; lia). lia.
    - congruence. }
  destruct (normalize_keeps (DS.size d1) d Hkeeps) as (d' & Hd' & _).
  { assert (0 < 2 ^ Z.of_nat k) by (apply Z.pow_pos_nonneg; lia). lia. }
  by exists d'.
Qed.

Lemma generate_overwrites_grid_witness :
  let ones : @DS.t Q Z :=
    {| DS.heightmap := replicate 3 (replicate 3 (#1)%F);
       DS.size := 3; DS.rng := Ref.engine 0 |} in
  let zeros : @DS.t Q Z :=
    {| DS.heightmap := replicate 3 (replicate 3 (#0)%F);
       DS.size := 3; DS.rng := Ref.engine 0 |} in
  valid_size (DS.size ones) ∧ DS.wf ones ∧ DS.wf zeros ∧
  ∃ d, DS.generate Ref.uniform id id Ref.pow ones (#1)%F false = Ok d ∧
       DS.generate Ref.uniform id id Ref.pow zeros (#1)%F false = Ok d.
Proof.
  intros ones zeros.
  assert (Hvalid : valid_size (DS.size ones)) by (exists 1; done).
  assert (Hones : DS.wf ones).
  { split; [done|]. split; [done|]. by repeat constructor. }
  assert (Hzeros : DS.wf zeros).
  { split; [done|]. split; [done|]. by repeat constructor. }
  split; [exact Hvalid|]. split; [exact Hones|]. split; [exact Hzeros|].
  exact (generate_overwrites_grid Ref.uniform id id Ref.pow ones zeros (#1)%F
           Hvalid Hones Hzeros eq_refl eq_refl).
Defined.

(** With [wrap] a square step on the border reads, across the edge, a
    cell that no step has assigned yet, and the result depends on what
    the grid held: here for size 3, over the rationals. *)
Lemma generate_with_wrap_reads_old_heights :
  let ones : @DS.t Q Z :=
    {| DS.heightmap := replicate 3 (replicate 3 (#1)%F);
       DS.size := 3; DS.rng := Ref.engine 0 |} in
  let zeros : @DS.t Q Z :=
    {| DS.heightmap := replicate 3 (replicate 3 (#0)%F);
       DS.size := 3; DS.rng := Ref.engine 0 |} in
  DS.generate Ref.uniform id id Ref.pow ones (#1)%F true
  ≠ DS.generate Ref.uniform id id Ref.pow zeros (#1)%F true.
Proof. vm_compute. discriminate. Qed.

(** So does it for a size that is not valid: for size 4, without
    [wrap], cells are left that no step assigns. *)
Lemma generate_of_invalid_size_keeps_old_heights :
  let ones : @DS.t Q Z :=
    {| DS.heightmap := replicate 4 (replicate 4 (#1)%F);
       DS.size := 4; DS.rng := Ref.engine 0 |} in
  let zeros : @DS.t Q Z :=
    {| DS.heightmap := replicate 4 (replicate 4 (#0)%F);
       DS.size := 4; DS.rng := Ref.engine 0 |} in
  DS.generate Ref.uniform id id Ref.pow ones (#1)%F false
  ≠ DS.generate Ref.uniform id id Ref.pow zeros (#1)%F false.
Proof. vm_compute. discriminate. Qed.

(** ** Diamond-square: sizes below 1 *)

(** [generateDiamondSquareNoise] with a size below 1, in every
    arithmetic: a negative size makes the allocation of the grid fail
    (the vector is asked for more than [max_size] elements), and size 0
    builds an empty grid whose corner [heightmap[0][0]] the first
    statement of [generate] then writes: an access outside the vector.
    Neither is refused by a check of the size. *)
Theorem diamond_square_fails_below_size_one {D : Type} `{Arith D} {F : Type} `{Arith F}
    {RNG : Type} (mt19937 : Z → RNG) (dist : RNG → F * RNG)
    (widen : F → D) (narrow : D → F) (pow : D → D → D) (roughness : F) (seed : Z) (wrap : bool) :
  (∀ size, size < 0 →
     DS.generateDiamondSquareNoise mt19937 dist widen narrow pow
       size roughness seed wrap
     = Err LengthError) ∧
  DS.generateDiamondSquareNoise mt19937 dist widen narrow pow
    0 roughness seed wrap
  = Err UndefinedIndex.
Proof.
  split.
  - intros size Hsize. unfold DS.generateDiamondSquareNoise, DS.new.
    by destruct (Z.ltb_spec size 0); [|lia].
  - unfold DS.generateDiamondSquareNoise, DS.new, DS.generate, DS.rounds,
      DS.seed_corner, DS.draw. simpl.
    by destruct (dist (mt19937 seed)).
Qed.

(** ** Diamond-square in binary32 *)

(** [normalize] in binary32, rounding included: when the range
    [maxVal - minVal] is above the epsilon and finite, a cell that held
    [minVal] holds the positive zero afterwards and a cell that held
    [maxVal] holds 1, to the bit (whatever the other heights are). *)
Theorem binary32_normalized_extremes {RNG : Type}
    (d : @DS.t spec_float RNG) (n : Z) (mn mx : spec_float) :
  DS.keeps n d → 1 ≤ n → DS.min_max d = Ok (mn, mx) →
  (DS.epsilon <? mx - mn)%F = true → finite32 (mx - mn)%F = true →
  ∃ post,
    DS.normalize d = Ok post ∧
    (∃ x y, DS.inside post x y = true ∧ DS.cell d x y = mn ∧
            DS.cell post x y = S754_zero false) ∧
    (∃ x y, DS.inside post x y = true ∧ DS.cell d x y = mx ∧
            DS.cell post x y = one32).
Proof.
  intros Hd Hn Hmm Heps Hfin.
  destruct (min_max_cells n d Hd Hn)
    as (mn' & mx' & Hmm' & (xm & ym & Hinm & Hcm) & (xM & yM & HinM & HcM)).
  rewrite Hmm in Hmm'. injection Hmm' as <- <-.
  destruct (rescale_spec n d mn (mx - mn)%F Hd)
    as (post & Hpost & Hkeeps & Hcells).
  exists post. split.
  { unfold DS.normalize. rewrite Hmm, bind_Ok. cbv zeta. cbn [fst snd].
    by rewrite Heps. }
  assert (Hsame : ∀ x y, DS.inside post x y = DS.inside d x y).
  { intros x y. unfold DS.inside. by rewrite (proj2 Hkeeps), (proj2 Hd). }
  assert (Hr : ∃ m e, (mx - mn)%F = S754_finite false m e).
  { destruct (mx - mn)%F as [s| | |[] m e]; try done. by exists m, e. }
  destruct Hr as (m & e & Hr).
  split.
  - exists xm, ym. rewrite Hsame. do 2 (split; [done|]).
    rewrite (Hcells xm ym Hinm), Hcm.
    rewrite (binary32_range_finite mx mn) by (rewrite Hr; by do 3 eexists).
    by rewrite Hr.
  - exists xM, yM. rewrite Hsame. do 2 (split; [done|]).
    rewrite (Hcells xM yM HinM), HcM, Hr. apply binary32_div_self.
Qed.

Lemma binary32_normalized_extremes_witness :
  let d : @DS.t spec_float Z :=
    {| DS.heightmap := [[ (#3)%F; (#7)%F ]; [ (#4)%F; (#5)%F ]];
       DS.size := 2; DS.rng := 0 |} in
  ∃ post,
    DS.normalize d = Ok post ∧
    (∃ x y, DS.inside post x y = true ∧ DS.cell d x y = (#3)%F ∧
            DS.cell post x y = S754_zero false) ∧
    (∃ x y, DS.inside post x y = true ∧ DS.cell d x y = (#7)%F ∧
            DS.cell post x y = one32).
Proof.
  intros d.
  refine (binary32_normalized_extremes d 2 (#3)%F (#7)%F _ _ _ _ _).
  - split; [|done]. split; [done|]. split; [done|]. by repeat constructor.
  - lia.
  - vm_compute. reflexivity.
  - vm_compute. reflexivity.
  - vm_compute. reflexivity.
Defined.

Lemma single_cell_grid {D : Type} `{Arith D} {F : Type} `{Arith F} {RNG : Type}
    (mt19937 : Z → RNG) (dist : RNG → F * RNG)
    (widen : F → D) (narrow : D → F) (pow : D → D → D)
    (roughness : F) (seed : Z) (wrap : bool) :
  (∀ v : F, (DS.epsilon <? v - v)%F = false) →
  DS.generateDiamondSquareNoise mt19937 dist widen narrow pow
    1 roughness seed wrap
  = Ok [[ (dist (dist (dist (dist (mt19937 seed)).2).2).2).1 ]].
Proof.
  intros Heps.
  unfold DS.generateDiamondSquareNoise, DS.new. simpl.
  unfold DS.generate, DS.rounds, DS.seed_corner, DS.draw. simpl.
  destruct (dist (mt19937 seed)) as [v1 g1]. simpl.
  destruct (dist g1) as [v2 g2]. simpl.
  destruct (dist g2) as [v3 g3]. simpl.
  destruct (dist g3) as [v4 g4]. simpl.
  unfold DS.normalize, DS.min_max. simpl.
  unfold DS.fmin, DS.fmax. rewrite !Tauto.if_same. simpl.
  by rewrite Heps.
Qed.

(** [generateDiamondSquareNoise] with size 1, in binary32, for every
    generator, seed, roughness and wrap flag: the four corner draws all
    land on the one cell, no round runs, the range is 0 (or NaN) and
    [normalize] rescales nothing.  The grid returned holds the fourth
    draw as it came, a number of [-1, 1], not of [0, 1]. *)
Theorem single_cell_grid_keeps_fourth_draw {D : Type} `{Arith D}
    {RNG : Type} (mt19937 : Z → RNG) (dist : RNG → spec_float * RNG)
    (widen : spec_float → D) (narrow : D → spec_float) (pow : D → D → D)
    (roughness : spec_float) (seed : Z) (wrap : bool) :
  DS.generateDiamondSquareNoise mt19937 dist widen narrow pow
    1 roughness seed wrap
  = Ok [[ (dist (dist (dist (dist (mt19937 seed)).2).2).2).1 ]].
Proof. apply single_cell_grid, binary32_epsilon_not_below. Qed.

(** ** The terrain mesh *)

Module T := Terrain.

Lemma height_at_defined (vertices : list T.Vertex) (i : Z) :
  0 ≤ i < Z.of_nat (length vertices) → ∃ h, T.height_at vertices i = Ok h.
Proof.
  intros Hi. unfold T.height_at.
  destruct (at_in_range vertices i Hi) as [v ->]. rewrite bind_Ok. by eexists.
Qed.

Lemma calculateNormal_defined (normalize : T.vec3 → T.vec3)
    (vertices : list T.Vertex) (x z width : Z) :
  0 ≤ x < width → 0 ≤ z < width → width * width ≤ INT_MAX →
  Z.of_nat (length vertices) = width * width →
  ∃ n, T.calculateNormal normalize vertices x z width = Ok n.
Proof.
  intros Hx Hz Hmax Hlen. unfold T.calculateNormal.
  assert (Hidx : 0 ≤ z * width + x < width * width) by nia.
  assert (Hrow : 0 ≤ z * width ≤ z * width + x) by nia.
  assert (Hint : ∀ i, 0 ≤ i < width * width → int_of i = Ok i).
  { intros i Hi. unfold int_of, INT_MIN, INT_MAX in *.
    destruct (Z.leb_spec (- 2 ^ 31) i), (Z.leb_spec i (2 ^ 31 - 1));
      simpl; (done || lia). }
  rewrite (Hint (z * width)), bind_Ok by lia.
  rewrite (Hint (z * width + x)), bind_Ok by lia.
  destruct (height_at_defined vertices
              (if 0 <? x then z * width + x - 1 else z * width + x))
    as [hL ->]; [destruct (Z.ltb_spec 0 x); lia|]. rewrite bind_Ok.
  destruct (height_at_defined vertices
              (if x <? width - 1 then z * width + x + 1 else z * width + x))
    as [hR ->]; [destruct (Z.ltb_spec x (width - 1)); nia|]. rewrite bind_Ok.
  destruct (height_at_defined vertices
              (if 0 <? z then z * width + x - width else z * width + x))
    as [hD ->]; [destruct (Z.ltb_spec 0 z); nia|]. rewrite bind_Ok.
  destruct (height_at_defined vertices
              (if z <? width - 1 then z * width + x + width
               else z * width + x))
    as [hU ->]; [destruct (Z.ltb_spec z (width - 1)); nia|]. rewrite bind_Ok.
  by eexists.
Qed.

Lemma perlin_table_holds :
  forallb (λ c, forallb (λ i, converts (c * frequency_at 2%float i)%float)
                  (seq 0 6)) noise_coordinates = true.
Proof. vm_compute. reflexivity. Qed.

Lemma simplex_table_holds :
  forallb (λ xf, forallb (λ zf,
    forallb (λ i, simplex_converts (xf * frequency_at 2%float i)%float
                                   (zf * frequency_at 2%float i)%float)
      (seq 0 5)) noise_coordinates) noise_coordinates = true.
Proof. vm_compute. reflexivity. Qed.

Lemma coordinate_in_table (i : Z) :
  0 ≤ i < 256 → In (noise_coordinate i) noise_coordinates.
Proof.
  intros Hi. apply list_elem_of_In, list_elem_of_fmap. exists i.
  split; [done|]. by apply (elem_of_iota 256).
Qed.

Lemma perlin_coordinate_converts (i : Z) (o : nat) :
  0 ≤ i < 256 → (o < 6)%nat →
  ∃ X, IEEE.trunc (IEEE.floor (noise_coordinate i * frequency_at 2%float o))
       = Ok X.
Proof.
  intros Hi Ho.
  pose proof (proj1 (forallb_forall _ _) perlin_table_holds _
                (coordinate_in_table i Hi)) as Ht.
  pose proof (proj1 (forallb_forall _ _) Ht o
                (proj2 (in_seq 6 0 o) ltac:(lia))) as Hc.
  unfold converts in Hc.
  destruct (IEEE.trunc _) as [X|]; [by exists X | discriminate Hc].
Qed.

Lemma simplex_coordinates_convert (i j : Z) (o : nat) :
  0 ≤ i < 256 → 0 ≤ j < 256 → (o < 5)%nat →
  ∃ a b,
    SimplexNoise.fastfloor
      (noise_coordinate i * frequency_at 2%float o +
       (noise_coordinate i * frequency_at 2%float o +
        noise_coordinate j * frequency_at 2%float o) * SimplexNoise.F2)%float
    = Ok a ∧
    SimplexNoise.fastfloor
      (noise_coordinate j * frequency_at 2%float o +
       (noise_coordinate i * frequency_at 2%float o +
        noise_coordinate j * frequency_at 2%float o) * SimplexNoise.F2)%float
    = Ok b ∧
    INT_MIN ≤ a + b ≤ INT_MAX.
Proof.
  intros Hi Hj Ho.
  pose proof (proj1 (forallb_forall _ _) simplex_table_holds _
                (coordinate_in_table i Hi)) as Ht.
  pose proof (proj1 (forallb_forall _ _) Ht _
                (coordinate_in_table j Hj)) as Ht'.
  pose proof (proj1 (forallb_forall _ _) Ht' o
                (proj2 (in_seq 5 0 o) ltac:(lia))) as Hc.
  unfold simplex_converts in Hc.
  destruct (SimplexNoise.fastfloor _) as [a|]; [|discriminate Hc].
  destruct (SimplexNoise.fastfloor _) as [b|]; [|discriminate Hc].
  exists a, b. do 2 (split; [done|]).
  apply andb_prop in Hc as [?%Z.leb_le ?%Z.leb_le]. lia.
Qed.

Section Mesh.
Variable shuffle : Z → list Z → list Z.
Hypothesis shuffle_perm : ∀ seed l, shuffle seed l ≡ₚ l.
Variable mix : T.vec3 → T.vec3 → spec_float → T.vec3.
Variable normalize : T.vec3 → T.vec3.

(** No noise call of the mesh is undefined. *)
Lemma height_of_defined (type : T.NoiseType) (x z : Z) :
  0 ≤ x < 256 → 0 ≤ z < 256 → ∃ h, T.height_of shuffle type x z = Ok h.
Proof.
  intros Hx Hz.
  assert (Hperlin : ∃ h,
    generatePerlinFBM shuffle (noise_coordinate x) (noise_coordinate z) 6
      0.5%float 2%float 12345 = Ok h).
  { unfold generatePerlinFBM. apply fbm_defined. intros o Ho.
    destruct (perlin_coordinate_converts x o Hx) as [X HX]; [simpl in Ho; lia|].
    destruct (perlin_coordinate_converts z o Hz) as [Y HY]; [simpl in Ho; lia|].
    by apply (perlin_noise_total shuffle shuffle_perm 12345 _ _ _ X Y 0). }
  unfold T.height_of. cbv zeta. fold (noise_coordinate x) (noise_coordinate z).
  destruct type.
  - destruct Hperlin as [h ->]. rewrite bind_Ok. by eexists.
  - unfold generateSimplexFBM.
    destruct (simplex_new shuffle shuffle_perm 54321) as (e & He & _).
    rewrite He, bind_Ok.
    destruct (proj2 (fbm_defined (SimplexNoise.noise2D e) (noise_coordinate x)
                       (noise_coordinate z) 5 0.5%float 2%float)) as [h ->].
    { intros o Ho.
      destruct (simplex_coordinates_convert x z o Hx Hz)
        as (a & b & Ha & Hb & Hab); [simpl in Ho; lia|].
      by apply (simplex_noise_total shuffle shuffle_perm 54321 e _ _ a b). }
    rewrite bind_Ok. by eexists.
  - destruct Hperlin as [h ->]. rewrite bind_Ok. by eexists.
Qed.

Lemma vertices_appended (type : T.NoiseType) :
  ∃ vertices,
    forM (loop_range 0 T.TERRAIN_HEIGHT 1) (λ z,
      forM (loop_range 0 T.TERRAIN_WIDTH 1) (λ x vertices,
        height ← T.height_of shuffle type x z;
        let vertex :=
          {| T.position := {| T.x := (#x * T.TERRAIN_SCALE)%F;
                              T.y := (height * T.HEIGHT_SCALE)%F;
                              T.z := (#z * T.TERRAIN_SCALE)%F |};
             T.normal := {| T.x := (#0)%F; T.y := (#1)%F; T.z := (#0)%F |};
             T.color := T.getColorForHeight mix height |} in
        mret (vertices ++ [vertex]))) [] = Ok vertices ∧
    Z.of_nat (length vertices) = 256 * 256 ∧
    ∀ x z, 0 ≤ x < 256 → 0 ≤ z < 256 →
           T.vertex_of shuffle mix type vertices x z.
Proof.
  change T.TERRAIN_HEIGHT with 256. 
  set (seen i j (vs : list T.Vertex) :=
         Z.of_nat (length vs) = i * 256 + j ∧
         ∀ x z, 0 ≤ x < 256 → 0 ≤ z < 256 → z < i ∨ (z = i ∧ x < j) →
                T.vertex_of shuffle mix type vs x z).
  destruct (forM_count (λ i, seen i 0) 0 256
    (λ z, forM (loop_range 0 T.TERRAIN_WIDTH 1) (λ x vertices,
        height ← T.height_of shuffle type x z;
        mret (vertices ++
          [{| T.position := {| T.x := (#x * T.TERRAIN_SCALE)%F;
                               T.y := (height * T.HEIGHT_SCALE)%F;
                               T.z := (#z * T.TERRAIN_SCALE)%F |};
              T.normal := {| T.x := (#0)%F; T.y := (#1)%F; T.z := (#0)%F |};
              T.color := T.getColorForHeight mix height |}]))) [])
    as (vs & Hvs & Hlen & Hall).
  - lia.
  - split; [done|]. intros x z Hx Hz Hlt. lia.
  - intros z vs Hz Hseen. change T.TERRAIN_WIDTH with 256.
    destruct (forM_count (seen z) 0 256
      (λ x vertices,
        height ← T.height_of shuffle type x z;
        mret (vertices ++
          [{| T.position := {| T.x := (#x * T.TERRAIN_SCALE)%F;
                               T.y := (height * T.HEIGHT_SCALE)%F;
                               T.z := (#z * T.TERRAIN_SCALE)%F |};
              T.normal := {| T.x := (#0)%F; T.y := (#1)%F; T.z := (#0)%F |};
              T.color := T.getColorForHeight mix height |}])) vs)
      as (vs' & Hvs' & Hlen' & Hall'); [lia | done | |].
    + intros x vs0 Hx [Hl0 Ha0].
      destruct (height_of_defined type x z Hx Hz) as [h Hh].
      rewrite Hh, bind_Ok. eexists. split; [done|]. split.
      * rewrite length_app. simpl. lia.
      * intros x' z' Hx' Hz' Hlt.
        destruct (decide (z' = z ∧ x' = x)) as [[-> ->]|Hne].
        -- exists h. eexists. split; [done|].
           change T.TERRAIN_WIDTH with 256.
           replace (Z.to_nat (z * 256 + x)) with (length vs0 + 0)%nat by lia.
           rewrite lookup_app_r, Nat.add_comm, Nat.add_sub by lia.
           by split.
        -- destruct (Ha0 x' z' Hx' Hz') as (h' & v' & Hh' & Hv' & Hp'); [lia|].
           exists h', v'. split; [done|]. split; [|done].
           by apply lookup_app_l_Some.
    + exists vs'. split; [done|]. split; [lia|].
      intros x' z' Hx' Hz' Hlt. apply Hall'; [done | done | lia].
  - exists vs. split; [done|]. split; [lia|].
    intros x z Hx Hz. apply Hall; [done | done | lia].
Qed.

(** The second pair of loops replaces normals only. *)
Lemma normals_replaced (vertices : list T.Vertex) :
  Z.of_nat (length vertices) = 256 * 256 →
  ∃ vertices',
    forM (loop_range 0 T.TERRAIN_HEIGHT 1) (λ z,
      forM (loop_range 0 T.TERRAIN_WIDTH 1) (λ x vertices,
        let index := z * T.TERRAIN_WIDTH + x in
        n ← T.calculateNormal normalize vertices x z T.TERRAIN_WIDTH;
        v ← at_ vertices index;
        set_at vertices index
          {| T.position := T.position v; T.normal := n;
             T.color := T.color v |})) vertices = Ok vertices' ∧
    Z.of_nat (length vertices') = 256 * 256 ∧
    ∀ i v, vertices !! i = Some v →
      ∃ v', vertices' !! i = Some v' ∧ T.position v' = T.position v ∧
            T.color v' = T.color v.
Proof.
  intros Hlen.
  set (kept (vs : list T.Vertex) :=
         Z.of_nat (length vs) = 256 * 256 ∧
         ∀ i v, vertices !! i = Some v →
           ∃ v', vs !! i = Some v' ∧ T.position v' = T.position v ∧
                 T.color v' = T.color v).
  apply (forM_invariant kept).
  { split; [done|]. intros i v Hv. by exists v. }
  intros z vs Hz%loop_range_bounds Hvs; [|done].
  apply (forM_invariant kept); [done|].
  intros x vs0 Hx%loop_range_bounds [Hl0 Hk0]; [|done].
  change T.TERRAIN_WIDTH with 256 in *. change T.TERRAIN_HEIGHT with 256 in *.
  cbv zeta.
  destruct (calculateNormal_defined normalize vs0 x z 256 Hx Hz ltac:(done) Hl0)
    as [n ->].
  rewrite bind_Ok.
  destruct (at_in_range vs0 (z * 256 + x)) as [v Hv]; [lia|].
  rewrite Hv, bind_Ok, set_at_in_range by lia.
  eexists. split; [done|]. split; [by rewrite length_insert|].
  intros i v0 Hv0. destruct (Hk0 i v0 Hv0) as (v1 & Hv1 & Hp1 & Hc1).
  apply at_lookup in Hv as [_ Hv].
  destruct (decide (i = Z.to_nat (z * 256 + x))) as [->|Hne].
  - rewrite list_lookup_insert_eq by lia. eexists. split; [done|].
    simpl. rewrite Hv in Hv1. injection Hv1 as <-. by split.
  - rewrite list_lookup_insert_ne by done. by exists v1.
Qed.

End Mesh.

(** [calculateNormal] on a square grid of [width] by [width] vertices
    (their number an [int]): the four reads guarded by [x > 0],
    [x < width - 1], [z > 0] and [z < width - 1] are inside the vector at
    every position of the grid.  (The row guard uses [width], not a
    height: the grid has to be square.) *)
Theorem calculate_normal_reads_inside (normalize : T.vec3 → T.vec3)
    (vertices : list T.Vertex) (x z width : Z) :
  0 ≤ x < width → 0 ≤ z < width → width * width ≤ INT_MAX →
  Z.of_nat (length vertices) = width * width →
  ∃ n, T.calculateNormal normalize vertices x z width = Ok n.
Proof. apply calculateNormal_defined. Qed.

Lemma calculate_normal_reads_inside_witness :
  let v := {| T.position := {| T.x := (#0)%F; T.y := (#1)%F; T.z := (#0)%F |};
              T.normal := {| T.x := (#0)%F; T.y := (#1)%F; T.z := (#0)%F |};
              T.color := {| T.x := (#0)%F; T.y := (#0)%F; T.z := (#0)%F |} |} in
  ∃ n, T.calculateNormal (λ n, n) [v; v; v; v] 1 0 2 = Ok n.
Proof.
  intros v.
  exact (calculate_normal_reads_inside (λ n, n) [v; v; v; v] 1 0 2
           ltac:(lia) ltac:(lia) ltac:(done) eq_refl).
Defined.

(** On a grid with fewer rows than columns the guard [z < width - 1]
    lets the read of the row above leave the vector. *)
Lemma calculate_normal_needs_square_grid :
  let v := {| T.position := {| T.x := (#0)%F; T.y := (#1)%F; T.z := (#0)%F |};
              T.normal := {| T.x := (#0)%F; T.y := (#1)%F; T.z := (#0)%F |};
              T.color := {| T.x := (#0)%F; T.y := (#0)%F; T.z := (#0)%F |} |} in
  T.calculateNormal (λ n, n) [v; v] 0 0 2 = Err UndefinedIndex.
Proof. reflexivity. Qed.

(** [generateTerrainVertices], for every noise type and every conforming
    [std::shuffle]: no noise call is undefined at any of the 256 x 256
    grid points, no read or write leaves the vector, and the function
    returns 65536 vertices.  The vertex of column [x] and row [z] is at
    index [z * 256 + x]; its position is [(x * 0.5, height * 20, z * 0.5)]
    and its color [getColorForHeight(height)], where [height] is the fBM
    value at [(x * 0.02f, z * 0.02f)] converted to [float] (Perlin with 6
    octaves and seed 12345, or Simplex with 5 octaves and seed 54321).
    The type [DIAMOND_SQUARE] gives the mesh of [PERLIN]. *)
Theorem terrain_vertices_follow_noise (shuffle : Z → list Z → list Z)
    (mix : T.vec3 → T.vec3 → spec_float → T.vec3)
    (normalize : T.vec3 → T.vec3) (type : T.NoiseType) :
  (∀ seed l, shuffle seed l ≡ₚ l) →
  (∃ vertices,
     T.generateTerrainVertices shuffle mix normalize type = Ok vertices ∧
     Z.of_nat (length vertices) = T.TERRAIN_WIDTH * T.TERRAIN_HEIGHT ∧
     ∀ x z, 0 ≤ x < T.TERRAIN_WIDTH → 0 ≤ z < T.TERRAIN_HEIGHT →
       ∃ h v,
         T.height_of shuffle type x z = Ok h ∧
         vertices !! Z.to_nat (z * T.TERRAIN_WIDTH + x) = Some v ∧
         T.position v = {| T.x := (#x * T.TERRAIN_SCALE)%F;
                           T.y := (h * T.HEIGHT_SCALE)%F;
                           T.z := (#z * T.TERRAIN_SCALE)%F |} ∧
         T.color v = T.getColorForHeight mix h) ∧
  T.generateTerrainVertices shuffle mix normalize T.DIAMOND_SQUARE
  = T.generateTerrainVertices shuffle mix normalize T.PERLIN.
Proof.
  intros Hperm. split; [|reflexivity].
  destruct (vertices_appended shuffle Hperm mix type)
    as (vs & Hvs & Hlen & Hall).
  destruct (normals_replaced normalize vs Hlen) as (vs' & Hvs' & Hlen' & Hkept).
  exists vs'. split; [|split].
  - unfold T.generateTerrainVertices.
    match type of Hvs with
    | ?first = _ =>
        match goal with |- ?m ≫= _ = _ => change m with first end
    end.
    rewrite Hvs, bind_Ok. exact Hvs'.
  - done.
  - intros x z Hx Hz.
    destruct (Hall x z Hx Hz) as (h & v & Hh & Hv & Hp & Hc).
    destruct (Hkept _ v Hv) as (v' & Hv' & Hp' & Hc').
    exists h, v'. split; [done|]. split; [done|]. split; congruence.
Qed.

Lemma terrain_vertices_follow_noise_witness :
  (∀ seed l, Ref.shuffle seed l ≡ₚ l) ∧
  ∃ vertices,
    T.generateTerrainVertices Ref.shuffle (λ a _ _, a) (λ n, n) T.SIMPLEX
      = Ok vertices ∧
    Z.of_nat (length vertices) = 65536.
Proof.
  split; [exact RefFacts.shuffle_perm|].
  destruct (proj1 (terrain_vertices_follow_noise Ref.shuffle (λ a _ _, a)
                     (λ n, n) T.SIMPLEX RefFacts.shuffle_perm))
    as (vertices & Hvs & Hlen & _).
  exact (ex_intro _ vertices (conj Hvs Hlen)).
Defined.

Lemma indices_in_range (i : Z) :
  i ∈ T.generateTerrainIndices → 0 ≤ i < T.TERRAIN_WIDTH * T.TERRAIN_HEIGHT.
Proof.
  unfold T.generateTerrainIndices.
  intros (z & Hi & Hz)%list_elem_of_bind.
  apply list_elem_of_bind in Hi as (x & Hi & Hx).
  apply loop_range_bounds in Hz, Hx; try done.
  change T.TERRAIN_WIDTH with 256 in *. change T.TERRAIN_HEIGHT with 256 in *.
  cbv zeta in Hi.
  repeat (apply elem_of_cons in Hi as [-> | Hi]; [lia|]).
  by apply elem_of_nil in Hi.
Qed.

(** [generateTerrainIndices]: two triangles for each of the 255 x 255
    cells, 390150 indices, every one of them below 65536, the number of
    vertices: the index buffer never designates a vertex that
    [generateTerrainVertices] has not made. *)
Theorem terrain_indices_designate_vertices :
  Z.of_nat (length T.generateTerrainIndices)
  = 6 * (T.TERRAIN_WIDTH - 1) * (T.TERRAIN_HEIGHT - 1) ∧
  ∀ i, i ∈ T.generateTerrainIndices →
       0 ≤ i < T.TERRAIN_WIDTH * T.TERRAIN_HEIGHT.
Proof.
  split; [vm_compute; reflexivity|]. apply indices_in_range.
Qed.
